(** * pipe: deferred flushers, reference-counted closers, Script and Line

    A shallow embedding of the Go package [pipe] (the revision with
    [AddFlusher]/[FlushAll], [refCloser], [Script], [Line] and [Filter]).

    Go values that are shared and mutated through pointers live in explicit
    stores: the backing arrays of [[]string] slices and the [refCloser]
    objects live in a [Heap]; a [*pendingFlush] is the position of the entry
    in the registry of the [State] that created it (the registry is only ever
    appended to while a pipe is being configured).  A [Pipe] is a function
    that transforms the [State] it is given together with the heap, and
    returns a Go [error] ([None] is [nil]). *)

From stdpp Require Import base list strings.
From Stdlib Require Import Ascii ZArith Lia.
From Stdlib.Strings Require Byte.

Open Scope string_scope.
Open Scope list_scope.

(** * The program *)

(** A Go [error]; [None] is [nil]. *)
Definition error := string.

(** What the Go runtime, the [path/filepath] library and the operating system
    decide: the capacity [append] gives to a newly allocated array (old
    capacity, needed length), the two [filepath] functions that [State.Path]
    calls, the environment of the process and the answer of [os.Mkdir]. *)
Class GoRuntime := {
  growslice : nat -> nat -> nat;
  filepath_IsAbs : string -> bool;
  filepath_Join : list string -> string;
  os_Environ : list string;
  os_Mkdir : string -> nat -> option error
}.

(** [strings.HasPrefix(s, prefix)]. *)
Fixpoint HasPrefix (s prefix : string) {struct prefix} : bool :=
  match prefix with
  | EmptyString => true
  | String c prefix' =>
    match s with
    | EmptyString => false
    | String d s' => Ascii.eqb c d && HasPrefix s' prefix'
    end
  end.

(** [s[n:]] for [n <= len(s)]. *)
Fixpoint string_from (n : nat) (s : string) : string :=
  match n, s with
  | O, _ => s
  | S n', String _ s' => string_from n' s'
  | S _, EmptyString => EmptyString
  end.

(** A slice header.  [sptr = None] is the [nil] slice. *)
Record slice := mkSlice { sptr : option nat; slen : nat; scap : nat }.

Definition nil_slice : slice := mkSlice None 0 0.

(** The backing array a slice points to. *)
Definition backing (m : list (list string)) (sl : slice) : list string :=
  match sptr sl with
  | Some a => default [] (m !! a)
  | None => []
  end.

(** The elements [sl[0], ..., sl[len-1]]. *)
Definition elems (m : list (list string)) (sl : slice) : list string :=
  take (slen sl) (backing m sl).

(** [sl[i] = x] for [i < len(sl)]. *)
Definition slice_store (m : list (list string)) (sl : slice) (i : nat) (x : string)
  : list (list string) :=
  match sptr sl with
  | Some a => alter (fun arr => <[i:=x]> arr) a m
  | None => m
  end.

(** [append(sl, xs...)]: no elements gives [sl] back; when the elements fit
    in the capacity they are written in place behind the current length;
    otherwise a new array is allocated and the old elements are copied. *)
Definition append `{GoRuntime} (m : list (list string)) (sl : slice) (xs : list string)
  : list (list string) * slice :=
  match xs with
  | [] => (m, sl)
  | _ =>
    let n := slen sl + length xs in
    if decide (n <= scap sl) then
      match sptr sl with
      | Some a =>
        (alter (fun arr => take (slen sl) arr ++ xs ++ drop n arr) a m,
         mkSlice (Some a) n (scap sl))
      | None => (m, sl)
      end
    else
      let c := Nat.max n (growslice (scap sl) n) in
      (m ++ [elems m sl ++ xs ++ replicate (c - n) EmptyString],
       mkSlice (Some (length m)) n c)
  end.

(** A slice header that is valid in a store: its array exists and is as long
    as the capacity says. *)
Definition slice_ok (m : list (list string)) (sl : slice) : Prop :=
  slen sl <= scap sl /\
  match sptr sl with
  | Some a => exists arr, m !! a = Some arr /\ length arr = scap sl
  | None => scap sl = 0
  end.

(** The values held by [State.Stdin], [State.Stdout] and [State.Stderr]. *)
Inductive stream :=
| EmptyReader                       (* an empty strings.Reader *)
| DiscardWriter                     (* ioutil.Discard *)
| Buffer (id : nat)                 (* an *OutputBuffer *)
| UserStream (closer : bool) (id : nat) (* a caller's stream; may implement io.Closer *)
| PipeReader (id : nat)             (* the read end of the id-th io.Pipe() *)
| PipeWriter (id : nat).            (* the write end of the id-th io.Pipe() *)

Global Instance stream_eq_dec : EqDecision stream.
Proof. solve_decision. Defined.

(** The type assertion [x.(io.Closer)] succeeds. *)
Definition is_Closer (x : stream) : bool :=
  match x with
  | EmptyReader | DiscardWriter | Buffer _ => false
  | UserStream closer _ => closer
  | PipeReader _ | PipeWriter _ => true
  end.

(** 32-bit two's complement wrap-around ([int32] arithmetic). *)
Definition wrap32 (z : Z) : Z := ((z + 2 ^ 31) mod 2 ^ 32 - 2 ^ 31)%Z.

Record refCloser := mkRefCloser { rc_c : stream; refs : Z }.

(** The two implementations of the [Flusher] interface in the package. *)
Inductive Flusher :=
| execFlusher (name : string) (args : list string)
| flushFunc (f : nat).              (* the closure is named by a number *)

(** The [State] struct.  The registry type is a parameter so that the copy
    kept by a [pendingFlush] (whose registry header is never read) does not
    make the two records mutually recursive. *)
Record StateOf (R : Type) := mkState {
  Stdin : stream;
  Stdout : stream;
  Stderr : stream;
  Dir : string;
  Env : slice;
  pendingFlushes : R
}.
Global Arguments mkState {R}.
Global Arguments Stdin {R}.
Global Arguments Stdout {R}.
Global Arguments Stderr {R}.
Global Arguments Dir {R}.
Global Arguments Env {R}.
Global Arguments pendingFlushes {R}.

(** The [pendingFlush] struct: [pf_c] holds heap addresses of [refCloser]s,
    [pf_wg] is the WaitGroup counter, [pf_wf] holds the registry positions of
    the entries that wait for this one. *)
Record pendingFlush := mkPendingFlush {
  pf_s : StateOf unit;
  pf_f : Flusher;
  pf_c : list nat;
  pf_wg : nat;
  pf_wf : list nat
}.

Definition State := StateOf (list pendingFlush).

(** The part of the Go heap the package shares between values. *)
Record Heap := mkHeap {
  arrays : list (list string);     (* backing arrays of []string slices *)
  closers : list refCloser;        (* refCloser objects, by address *)
  pipes : nat;                     (* number of io.Pipe() calls so far *)
  closed : list stream             (* endpoints whose Close ran, oldest first *)
}.

Definition set_arrays (m : list (list string)) (h : Heap) : Heap :=
  mkHeap m (closers h) (pipes h) (closed h).
Definition set_closers (cs : list refCloser) (h : Heap) : Heap :=
  mkHeap (arrays h) cs (pipes h) (closed h).

Definition set_Stdin {R} (x : stream) (s : StateOf R) : StateOf R :=
  mkState x (Stdout s) (Stderr s) (Dir s) (Env s) (pendingFlushes s).
Definition set_Stdout {R} (x : stream) (s : StateOf R) : StateOf R :=
  mkState (Stdin s) x (Stderr s) (Dir s) (Env s) (pendingFlushes s).
Definition set_Stderr {R} (x : stream) (s : StateOf R) : StateOf R :=
  mkState (Stdin s) (Stdout s) x (Dir s) (Env s) (pendingFlushes s).
Definition set_Dir {R} (d : string) (s : StateOf R) : StateOf R :=
  mkState (Stdin s) (Stdout s) (Stderr s) d (Env s) (pendingFlushes s).
Definition set_Env {R} (e : slice) (s : StateOf R) : StateOf R :=
  mkState (Stdin s) (Stdout s) (Stderr s) (Dir s) e (pendingFlushes s).
Definition set_pendingFlushes {R R'} (r : R') (s : StateOf R) : StateOf R' :=
  mkState (Stdin s) (Stdout s) (Stderr s) (Dir s) (Env s) r.

(** [type Pipe func(s *State) error]. *)
Definition Pipe := State -> Heap -> State * Heap * option error.

(** [NewState(stdout, stderr)]: a nil writer becomes [ioutil.Discard],
    [Stdin] is an empty reader, [Dir] is left empty, and [Env] is the slice
    that [os.Environ()] returns, in an array of its own. *)
Definition NewState `{GoRuntime} (stdout stderr : option stream) (h : Heap)
  : State * Heap :=
  let '(m, e) := append (arrays h) nil_slice os_Environ in
  (mkState EmptyReader (default DiscardWriter stdout) (default DiscardWriter stderr)
     EmptyString e [], set_arrays m h).

(** [AddFlusher]: [pf := &pendingFlush{s: *s, f: f}], then the copy's [Env]
    becomes [append([]string(nil), s.Env...)], then the entry is appended. *)
Definition AddFlusher `{GoRuntime} (f : Flusher) (s : State) (h : Heap)
  : State * Heap * option error :=
  let '(m, e) := append (arrays h) nil_slice (elems (arrays h) (Env s)) in
  let pf := mkPendingFlush (set_Env e (set_pendingFlushes tt s)) f [] 0 [] in
  (set_pendingFlushes (pendingFlushes s ++ [pf]) s, set_arrays m h, None).

(** The loop of [EnvVar] over the elements of [s.Env]. *)
Fixpoint EnvVar_loop (prefix : string) (kvs : list string) : string :=
  match kvs with
  | [] => EmptyString
  | kv :: rest =>
    if HasPrefix kv prefix then string_from (String.length prefix) kv
    else EnvVar_loop prefix rest
  end.


(** The position at which the loop of [SetEnvVar] stops, counting from [i]. *)
Fixpoint SetEnvVar_find (prefix : string) (kvs : list string) (i : nat) : option nat :=
  match kvs with
  | [] => None
  | kv :: rest =>
    if HasPrefix kv prefix then Some i else SetEnvVar_find prefix rest (S i)
  end.

Definition SetEnvVar_method `{GoRuntime} {R} (name value : string) (s : StateOf R) (h : Heap)
  : StateOf R * Heap :=
  let prefix := name +:+ "=" in
  match SetEnvVar_find prefix (elems (arrays h) (Env s)) 0 with
  | Some i => (s, set_arrays (slice_store (arrays h) (Env s) i (prefix +:+ value)) h)
  | None =>
    let '(m, e) := append (arrays h) (Env s) [prefix +:+ value] in
    (set_Env e s, set_arrays m h)
  end.

(** [State.Path]. *)
Definition Path `{GoRuntime} {R} (s : StateOf R) (path : list string) : string :=
  match path with
  | [] => Dir s
  | p0 :: rest =>
    if filepath_IsAbs p0 then filepath_Join path
    else match rest with
         | [] => filepath_Join [Dir s; p0]
         | _ => filepath_Join (Dir s :: path)
         end
  end.

Definition firstErr (err1 err2 : option error) : option error :=
  match err1 with
  | Some e => Some e
  | None => err2
  end.

(** [&refCloser{c, n}]: a new object at the next free address. *)
Definition new_refCloser (c : stream) (n : Z) (h : Heap) : nat * Heap :=
  (length (closers h), set_closers (closers h ++ [mkRefCloser c n]) h).

(** [rc.uses(c)]: [rc != nil && rc.c == c]. *)
Definition uses (rc : option nat) (c : stream) (h : Heap) : bool :=
  match rc with
  | None => false
  | Some a =>
    match closers h !! a with
    | Some o => bool_decide (rc_c o = c)
    | None => false
    end
  end.

(** [rc.c.Close()] on a pipe end: the call is recorded; the Close methods
    of io.PipeReader and io.PipeWriter both return nil. *)
Definition close_endpoint (c : stream) (h : Heap) : Heap * option error :=
  (mkHeap (arrays h) (closers h) (pipes h) (closed h ++ [c]), None).

(** [rc.Close()]: a nil receiver does nothing; otherwise the count is
    decremented (with [int32] wrap-around) and the endpoint is closed when the
    new count is zero. *)
Definition Close (rc : option nat) (h : Heap) : Heap * option error :=
  match rc with
  | None => (h, None)
  | Some a =>
    match closers h !! a with
    | None => (h, None)
    | Some o =>
      let n := wrap32 (refs o - 1) in
      let h' := set_closers (<[a := mkRefCloser (rc_c o) n]> (closers h)) h in
      if decide (n = 0%Z) then close_endpoint (rc_c o) h' else (h', None)
    end
  end.

(** [rc.refs++]. *)
Definition incr_refs (a : nat) (h : Heap) : Heap :=
  set_closers (alter (fun o => mkRefCloser (rc_c o) (wrap32 (refs o + 1))) a (closers h)) h.

(** [pf.closeWhenDone(c)]. *)
Definition closeWhenDone (c : nat) (pf : pendingFlush) : pendingFlush :=
  mkPendingFlush (pf_s pf) (pf_f pf) (pf_c pf ++ [c]) (pf_wg pf) (pf_wf pf).

Definition wg_Add (pf : pendingFlush) : pendingFlush :=
  mkPendingFlush (pf_s pf) (pf_f pf) (pf_c pf) (S (pf_wg pf)) (pf_wf pf).

Definition wf_append (fi : nat) (other : pendingFlush) : pendingFlush :=
  mkPendingFlush (pf_s other) (pf_f other) (pf_c other) (pf_wg other) (pf_wf other ++ [fi]).

(** [reg[fi].waitFor(reg[wi])]: [pf.wg.Add(1)], then
    [other.wf = append(other.wf, pf)]. *)
Definition waitFor (fi wi : nat) (reg : list pendingFlush) : list pendingFlush :=
  alter (wf_append fi) wi (alter wg_Add fi reg).

Definition Exec `{GoRuntime} (name : string) (args : list string) : Pipe :=
  fun s h => let '(s', h', _) := AddFlusher (execFlusher name args) s h in (s', h', None).

Definition System `{GoRuntime} (cmd : string) : Pipe := Exec "/bin/sh" ["-c"; cmd].

Definition FlushFunc `{GoRuntime} (f : nat) : Pipe :=
  fun s h => let '(s', h', _) := AddFlusher (flushFunc f) s h in (s', h', None).

Definition ChDir `{GoRuntime} (dir : string) : Pipe :=
  fun s h => (set_Dir (Path s [dir]) s, h, None).

Definition MkDir `{GoRuntime} (dir : string) (perm : nat) : Pipe :=
  fun s h => (s, h, os_Mkdir (Path s [dir]) perm).

Definition SetEnvVar `{GoRuntime} (name value : string) : Pipe :=
  fun s h => let '(s', h') := SetEnvVar_method name value s h in (s', h', None).

Definition CombineToErr : Pipe := fun s h => (set_Stdout (Stderr s) s, h, None).

Definition CombineToOut : Pipe := fun s h => (set_Stderr (Stdout s) s, h, None).

(** The two nested loops that follow a stage of [Script]: every entry in
    [oldLen, newLen) waits for every entry in [startLen, oldLen). *)
Definition Script_chain (startLen oldLen newLen : nat) (reg : list pendingFlush)
  : list pendingFlush :=
  foldl (fun reg fi =>
           foldl (fun reg wi => waitFor fi wi reg) reg (seq startLen (oldLen - startLen)))
        reg (seq oldLen (newLen - oldLen)).

(** The loop over the stages of [Script]. *)
Fixpoint Script_loop (startLen : nat) (ps : list Pipe) (s : State) (h : Heap)
  : State * Heap * option error :=
  match ps with
  | [] => (s, h, None)
  | p :: rest =>
    let oldLen := length (pendingFlushes s) in
    let '(s1, h1, err) := p s h in
    match err with
    | Some e => (s1, h1, Some e)
    | None =>
      let newLen := length (pendingFlushes s1) in
      let s2 := set_pendingFlushes
                  (Script_chain startLen oldLen newLen (pendingFlushes s1)) s1 in
      Script_loop startLen rest s2 h1
    end
  end.

(** The entry of a scope, in [Script] and in [Line]: [dir := s.Dir],
    [env := s.Env] (both are still in the State the caller holds), and
    [s.Env = append([]string(nil), s.Env...)]. *)
Definition enter_scope `{GoRuntime} (s : State) (h : Heap) : State * Heap :=
  let '(m, e) := append (arrays h) nil_slice (elems (arrays h) (Env s)) in
  (set_Env e s, set_arrays m h).

(** [Script]: the scope is entered, the stages run, and the deferred function
    puts [dir] and [env] back on every return. *)
Definition Script `{GoRuntime} (ps : list Pipe) : Pipe :=
  fun s h =>
    let '(s0, h0) := enter_scope s h in
    let '(s1, h1, err) := Script_loop (length (pendingFlushes s)) ps s0 h0 in
    (set_Env (Env s) (set_Dir (Dir s) s1), h1, err).

(** One of the three tests of the inner loop of [Line]:
    [if c, ok := x.(io.Closer); ok && rc.uses(c) { rc.refs++; pf.closeWhenDone(rc) }]. *)
Definition Line_attach1 (rc : option nat) (x : stream) (pfh : pendingFlush * Heap)
  : pendingFlush * Heap :=
  let '(pf, h) := pfh in
  match rc with
  | Some a =>
    if is_Closer x && uses rc x h then (closeWhenDone a pf, incr_refs a h) else (pf, h)
  | None => (pf, h)
  end.

(** The body of the inner loop of [Line] for the entry at position [fi]. *)
Definition Line_attach (closeIn closeOut : option nat) (sh : State * Heap) (fi : nat)
  : State * Heap :=
  let '(s, h) := sh in
  match pendingFlushes s !! fi with
  | None => (s, h)
  | Some pf =>
    let '(pf', h') :=
      Line_attach1 closeOut (Stderr (pf_s pf))
        (Line_attach1 closeOut (Stdout (pf_s pf))
           (Line_attach1 closeIn (Stdin (pf_s pf)) (pf, h))) in
    (set_pendingFlushes (<[fi := pf']> (pendingFlushes s)) s, h')
  end.

(** The start of an iteration of [Line]:
    [if r != nil { closeIn = &refCloser{r, 1} }]. *)
Definition Line_closeIn (r : option nat) (h : Heap) : option nat * Heap :=
  match r with
  | Some id => let '(a, h') := new_refCloser (PipeReader id) 1 h in (Some a, h')
  | None => (None, h)
  end.

(** The junction behind the current stage: for the last stage ([i == end])
    [r, w = nil, nil] and [s.Stdout = endStdout]; otherwise [r, w = io.Pipe()],
    [s.Stdout = w] and [closeOut = &refCloser{w, 1}].  The result is the new
    [r], [closeOut], the State and the heap. *)
Definition Line_junction (last : bool) (endStdout : stream) (s : State) (h : Heap)
  : option nat * option nat * State * Heap :=
  if last then (None, None, set_Stdout endStdout s, h)
  else
    let id := pipes h in
    let hp := mkHeap (arrays h) (closers h) (S id) (closed h) in
    let '(a, h') := new_refCloser (PipeWriter id) 1 hp in
    (Some id, Some a, set_Stdout (PipeWriter id) s, h').

(** [if i < end { s.Stdin = r }], where [r] is not nil exactly when
    [i < end]. *)
Definition Line_next_Stdin (r : option nat) (s : State) : State :=
  match r with
  | Some id => set_Stdin (PipeReader id) s
  | None => s
  end.

(** The loop over the stages of [Line]; [r] is the read end left by the
    previous iteration ([None] is nil), and a stage is the last one when no
    stage follows it. *)
Fixpoint Line_loop (endStdout : stream) (r : option nat) (ps : list Pipe)
    (s : State) (h : Heap) : State * Heap * option error :=
  match ps with
  | [] => (s, h, None)
  | p :: rest =>
    let '(closeIn, h1) := Line_closeIn r h in
    let '(r', closeOut, s2, h2) :=
      Line_junction (match rest with [] => true | _ => false end) endStdout s h1 in
    let oldLen := length (pendingFlushes s2) in
    let '(s3, h3, err) := p s2 h2 in
    match err with
    | Some e => let '(h4, _) := Close closeIn h3 in (s3, h4, Some e)
    | None =>
      let newLen := length (pendingFlushes s3) in
      let '(s4, h4) :=
        foldl (Line_attach closeIn closeOut) (s3, h3) (seq oldLen (newLen - oldLen)) in
      let '(h5, _) := Close closeIn h4 in
      let '(h6, _) := Close closeOut h5 in
      Line_loop endStdout r' rest (Line_next_Stdin r' s4) h6
    end
  end.

(** [Line]: the same scope as [Script]; [endStdout] is [s.Stdout]. *)
Definition Line `{GoRuntime} (ps : list Pipe) : Pipe :=
  fun s h =>
    let '(s0, h0) := enter_scope s h in
    let '(s1, h1, err) := Line_loop (Stdout s0) None ps s0 h0 in
    (set_Env (Env s) (set_Dir (Dir s) s1), h1, err).

(** ** FlushAll: the goroutines and the receive loop *)

(** Where the goroutine of an entry is. *)
Inductive gstate :=
| GWait                           (* in pf.wait() *)
| GFlush                          (* in pf.f.Flush(&pf.s) *)
| GFlushed (err : option error)   (* Flush has returned err; pf.done() is next *)
| GSend (err : option error)      (* pf.done() has returned; done <- err is next *)
| GExit (err : option error).     (* err is sent; the goroutine has ended *)

(** Where [FlushAll] itself is: about to receive with [n] iterations of the
    receive loop left, in the Kill loop before entry [j], returned, or dead
    because a goroutine panicked. *)
Inductive mstate :=
| MRecv (n : nat) (first : option error)
| MKill (n : nat) (first : option error) (j : nat)
| MReturn (first : option error)
| MPanic.

(** The state of a [FlushAll] call.  The entries are shared between the
    goroutines, so they are kept by position in [c_pfs], and
    [s.pendingFlushes] is the list of their positions. *)
Record config := mkConfig {
  c_registry : list nat;            (* s.pendingFlushes *)
  c_pfs : list pendingFlush;        (* the entries, with their WaitGroup counters *)
  c_heap : Heap;
  c_gs : list gstate;               (* one goroutine per entry *)
  c_chan : list (option error);     (* the buffered channel done *)
  c_main : mstate;
  c_kills : list nat;               (* Kill calls so far, by entry *)
  c_recv : list (option error)      (* what FlushAll has received, oldest first *)
}.

(** [FlushAll] has made the channel and started the goroutines. *)
Definition FlushAll_init (reg : list pendingFlush) (h : Heap) : config :=
  mkConfig (seq 0 (length reg)) reg h (replicate (length reg) GWait) []
    (MRecv (length reg) None) [] [].

(** [wf.wg.Done()] for the entry at position [x]; a counter that is already
    zero makes [Done] panic ([None]). *)
Definition wg_Done (pfs : option (list pendingFlush)) (x : nat)
  : option (list pendingFlush) :=
  match pfs with
  | None => None
  | Some pfs =>
    match pfs !! x with
    | None => Some pfs
    | Some pf =>
      match pf_wg pf with
      | O => None
      | S n =>
        Some (<[x := mkPendingFlush (pf_s pf) (pf_f pf) (pf_c pf) n (pf_wf pf)]> pfs)
      end
    end
  end.

(** [pf.done()]: every closer of the entry is closed, then every waiter is
    signalled. *)
Definition pf_done (pf : pendingFlush) (pfs : list pendingFlush) (h : Heap)
  : option (list pendingFlush) * Heap :=
  (foldl wg_Done (Some pfs) (pf_wf pf),
   foldl (fun h c => (Close (Some c) h).1) h (pf_c pf)).

(** One step of one thread. *)
Inductive action :=
| Start (i : nat)                        (* pf.wait() returns in goroutine i *)
| Return (i : nat) (err : option error)  (* Flush returns err in goroutine i *)
| Done (i : nat)                         (* goroutine i runs pf.done() *)
| Send (i : nat)                         (* goroutine i sends on done *)
| Main.                                  (* the next step of FlushAll itself *)

Definition set_gs (gs : list gstate) (c : config) : config :=
  mkConfig (c_registry c) (c_pfs c) (c_heap c) gs (c_chan c) (c_main c)
    (c_kills c) (c_recv c).

(** The step of [FlushAll] itself: the loop is over, so the registry is
    cleared and [first] is returned; or a value is received, and the first
    error starts the Kill loop; or the Kill loop calls the next [Kill] (the
    step is the moment [Kill] returns), or is over. *)
Definition step_main (c : config) : option config :=
  match c_main c with
  | MRecv O first =>
    Some (mkConfig [] (c_pfs c) (c_heap c) (c_gs c) (c_chan c) (MReturn first)
            (c_kills c) (c_recv c))
  | MRecv (S n) first =>
    match c_chan c with
    | [] => None
    | err :: chan =>
      let next :=
        match err, first with
        | Some e, None => MKill n (Some e) 0
        | _, _ => MRecv n first
        end in
      Some (mkConfig (c_registry c) (c_pfs c) (c_heap c) (c_gs c) chan next
              (c_kills c) (c_recv c ++ [err]))
    end
  | MKill n first j =>
    match c_registry c !! j with
    | Some pf =>
      Some (mkConfig (c_registry c) (c_pfs c) (c_heap c) (c_gs c) (c_chan c)
              (MKill n first (S j)) (c_kills c ++ [pf]) (c_recv c))
    | None =>
      Some (mkConfig (c_registry c) (c_pfs c) (c_heap c) (c_gs c) (c_chan c)
              (MRecv n first) (c_kills c) (c_recv c))
    end
  | MReturn _ | MPanic => None
  end.

Definition is_panic (m : mstate) : bool :=
  match m with MPanic => true | _ => false end.

(** The step of a thread; [None] when the thread cannot move (it is blocked,
    or it is not at that point, or the program has panicked). *)
Definition step (a : action) (c : config) : option config :=
  if is_panic (c_main c) then None
  else
    match a with
    | Start i =>
      match c_gs c !! i, c_pfs c !! i with
      | Some GWait, Some pf =>
        if decide (pf_wg pf = 0) then Some (set_gs (<[i := GFlush]> (c_gs c)) c)
        else None
      | _, _ => None
      end
    | Return i err =>
      match c_gs c !! i with
      | Some GFlush => Some (set_gs (<[i := GFlushed err]> (c_gs c)) c)
      | _ => None
      end
    | Done i =>
      match c_gs c !! i, c_pfs c !! i with
      | Some (GFlushed err), Some pf =>
        match pf_done pf (c_pfs c) (c_heap c) with
        | (Some pfs, h) =>
          Some (mkConfig (c_registry c) pfs h (<[i := GSend err]> (c_gs c)) (c_chan c)
                  (c_main c) (c_kills c) (c_recv c))
        | (None, h) =>
          Some (mkConfig (c_registry c) (c_pfs c) h (c_gs c) (c_chan c) MPanic
                  (c_kills c) (c_recv c))
        end
      | _, _ => None
      end
    | Send i =>
      match c_gs c !! i with
      | Some (GSend err) =>
        Some (mkConfig (c_registry c) (c_pfs c) (c_heap c) (<[i := GExit err]> (c_gs c))
                (c_chan c ++ [err]) (c_main c) (c_kills c) (c_recv c))
      | _ => None
      end
    | Main => step_main c
    end.

(** A schedule: the steps in the order in which they happen. *)
Fixpoint run (acts : list action) (c : config) : option config :=
  match acts with
  | [] => Some c
  | a :: acts' =>
    match step a c with
    | Some c' => run acts' c'
    | None => None
    end
  end.

(** ** Filter *)

(** The reader behind [s.Stdin]: the bytes still to come, and how the stream
    ends ([None] is io.EOF). *)
Record Reader := mkReader { rd_data : list Byte.byte; rd_err : option error }.

(** The [err] result of a read. *)
Inductive read_err :=
| RNil
| REOF
| RErr (e : error).

(** The scan of [ReadBytes]: the bytes up to and with the first [delim], the
    bytes behind it, and whether [delim] was found. *)
Fixpoint ReadBytes_scan (delim : Byte.byte) (data : list Byte.byte)
  : list Byte.byte * list Byte.byte * bool :=
  match data with
  | [] => ([], [], false)
  | b :: rest =>
    if Byte.eqb b delim then ([b], rest, true)
    else let '(line, rest', found) := ReadBytes_scan delim rest in
         (b :: line, rest', found)
  end.

(** [r.ReadBytes(delim)]: the data up to and with the delimiter; when the
    stream ends first, the data read so far and the error of the stream. *)
Definition ReadBytes (delim : Byte.byte) (r : Reader)
  : list Byte.byte * read_err * Reader :=
  let '(line, rest, found) := ReadBytes_scan delim (rd_data r) in
  if found then (line, RNil, mkReader rest (rd_err r))
  else (line, match rd_err r with None => REOF | Some e => RErr e end,
        mkReader [] (rd_err r)).

(** [bytes.TrimRight(s, cutset)]. *)
Fixpoint TrimRight (s cutset : list Byte.byte) : list Byte.byte :=
  match s with
  | [] => []
  | b :: s' =>
    match TrimRight s' cutset with
    | [] => if existsb (Byte.eqb b) cutset then [] else [b]
    | t => b :: t
    end
  end.

(** [OutputBuffer.Write]: the bytes are appended and the error is nil. *)
Definition OutputBuffer_Write (buf b : list Byte.byte)
  : list Byte.byte * option error := (buf ++ b, None).

(** The loop of the flusher of [Filter], for a writer [write] behind
    [s.Stdout]; [fuel] bounds the number of iterations. *)
Fixpoint Filter_loop {W : Type} (write : W -> list Byte.byte -> W * option error)
    (f : list Byte.byte -> bool) (fuel : nat) (r : Reader) (w : W)
  : option (W * option error) :=
  match fuel with
  | O => None
  | S fuel' =>
    let '(line, err, r') := ReadBytes Byte.x0a r in
    let eof := match err with REOF => true | _ => false end in
    match err, line with
    | REOF, [] => Some (w, None)
    | RErr e, _ => Some (w, Some e)
    | _, _ =>
      let '(w', werr) :=
        if f (TrimRight line [Byte.x0d; Byte.x0a]) then write w line else (w, None) in
      match werr with
      | Some e => Some (w', Some e)
      | None => if eof then Some (w', None) else Filter_loop write f fuel' r' w'
      end
    end
  end.

(** The flusher of [Filter]: every iteration but the last one takes at least
    one byte, so one more iteration than there are bytes is enough. *)
Definition Filter_flush {W : Type} (write : W -> list Byte.byte -> W * option error)
    (f : list Byte.byte -> bool) (r : Reader) (w : W) : option (W * option error) :=
  Filter_loop write f (S (length (rd_data r))) r w.

(** * Specifications and invariants *)

(** Arrays are never removed and never change their length. *)
Definition arrays_ext (m m' : list (list string)) : Prop :=
  forall a arr, m !! a = Some arr ->
    exists arr', m' !! a = Some arr' /\ length arr' = length arr.

(** The words of the specification for [SetEnvVar], on the list of entries:
    the first entry with the prefix is overwritten, and when there is none
    the new entry is appended. *)
Fixpoint setenv_spec (prefix value : string) (kvs : list string) : list string :=
  match kvs with
  | [] => [prefix +:+ value]
  | kv :: rest =>
    if HasPrefix kv prefix then (prefix +:+ value) :: rest
    else kv :: setenv_spec prefix value rest
  end.

(** A run of [SetEnvVar] calls, first call first. *)
Definition SetEnvVars `{GoRuntime} {R} (ws : list (string * string))
    (s : StateOf R) (h : Heap) : StateOf R * Heap :=
  foldl (fun sh w => SetEnvVar_method (fst w) (snd w) (fst sh) (snd sh)) (s, h) ws.

(** The value of the last write to [name] in a run of writes. *)
Fixpoint last_written (name : string) (ws : list (string * string)) : option string :=
  match ws with
  | [] => None
  | w :: rest =>
    match last_written name rest with
    | Some v => Some v
    | None => if decide (fst w = name) then Some (snd w) else None
    end
  end.

(** A variable name: no ['='] in it. *)
Fixpoint is_name (s : string) : bool :=
  match s with
  | EmptyString => true
  | String c s' => negb (Ascii.eqb c "="%char) && is_name s'
  end.

(** [k] calls of [rc.Close()] in a row. *)
Definition Close_times (k : N) (rc : option nat) (h : Heap) : Heap :=
  N.iter k (fun h => (Close rc h).1) h.

(** How many of the calls number 1 to [k] bring a count that started at [n]
    to zero. *)
Definition zero_crossings (n : Z) (k : N) : nat :=
  Z.to_nat ((Z.of_N k - n + 2 ^ 32) / 2 ^ 32).

(** [cs] does not point to the array of [ls]. *)
Definition separate (cs ls : slice) : Prop := sptr cs = None \/ sptr cs <> sptr ls.

(** A stage that reaches the environment only through the State it is given:
    of the arrays that exist when it is called it writes at most the one
    behind [s.Env], and it leaves [s.Env] on that array, nil, or on an array
    allocated during the call. *)
Definition env_local (p : Pipe) : Prop :=
  forall s h s' h' r, p s h = (s', h', r) -> slice_ok (arrays h) (Env s) ->
    slice_ok (arrays h') (Env s')
    /\ arrays_ext (arrays h) (arrays h')
    /\ (forall a, a < length (arrays h) -> sptr (Env s) <> Some a ->
          arrays h' !! a = arrays h !! a)
    /\ (sptr (Env s') = sptr (Env s) \/ sptr (Env s') = None
        \/ exists a, sptr (Env s') = Some a /\ length (arrays h) <= a).

(** Inside a scope entered with the store [m0]: the current environment [e]
    lives in an array allocated after the entry, and the arrays of [m0] are
    as they were. *)
Definition in_scope (m0 : list (list string)) (e : slice) (m : list (list string)) : Prop :=
  slice_ok m e
  /\ arrays_ext m0 m
  /\ (forall a, a < length m0 -> m !! a = m0 !! a)
  /\ (sptr e = None \/ exists a, sptr e = Some a /\ length m0 <= a).

(** The first non-nil error among the received values: what the receive
    loop leaves in [first]. *)
Fixpoint first_error (errs : list (option error)) : option error :=
  match errs with
  | [] => None
  | Some e :: _ => Some e
  | None :: rest => first_error rest
  end.

(** The errors the goroutines that have ended have sent. *)
Fixpoint exit_errs (gs : list gstate) : list (option error) :=
  match gs with
  | [] => []
  | GExit err :: gs' => err :: exit_errs gs'
  | _ :: gs' => exit_errs gs'
  end.

Definition is_exit (g : gstate) : bool :=
  match g with GExit _ => true | _ => false end.

(** What holds of [FlushAll] itself at every moment: the iterations left and
    the values received add up to the number of entries, [first] is the
    first error received, and [Kill] has been called on the entries
    [0 .. j-1], each once, where [j] is 0 before the first error and the
    number of entries after the Kill loop. *)
Definition main_ok (n : nat) (c : config) : Prop :=
  match c_main c with
  | MRecv m first =>
    m + length (c_recv c) = n /\ first = first_error (c_recv c)
    /\ c_registry c = seq 0 n
    /\ c_kills c = match first with Some _ => seq 0 n | None => [] end
  | MKill m first j =>
    m + length (c_recv c) = n /\ first = first_error (c_recv c) /\ is_Some first
    /\ c_registry c = seq 0 n /\ c_kills c = seq 0 j /\ j <= n
  | MReturn first =>
    length (c_recv c) = n /\ first = first_error (c_recv c)
    /\ c_registry c = []
    /\ c_kills c = match first with Some _ => seq 0 n | None => [] end
  | MPanic => True
  end.

Definition flush_inv (n : nat) (c : config) : Prop :=
  length (c_gs c) = n
  /\ main_ok n c
  /\ c_recv c ++ c_chan c ≡ₚ exit_errs (c_gs c)
  /\ exists j, j <= n /\ c_kills c = seq 0 j.

(** How often [i] occurs in a list of positions. *)
Fixpoint count (i : nat) (l : list nat) : nat :=
  match l with
  | [] => 0
  | x :: l' => (if decide (x = i) then 1 else 0) + count i l'
  end.

(** How many [Done] signals the entry at position [i] is to receive in all:
    its occurrences in the [wf] lists of the registry. *)
Fixpoint waits (i : nat) (pfs : list pendingFlush) : nat :=
  match pfs with
  | [] => 0
  | pf :: pfs' => count i (pf_wf pf) + waits i pfs'
  end.

(** A goroutine that has run [pf.done()]. *)
Definition signalled (g : gstate) : bool :=
  match g with GSend _ | GExit _ => true | _ => false end.

(** How many [Done] signals the entry at position [i] is still to receive:
    its occurrences in the [wf] lists of the entries that have not run
    [pf.done()]. *)
Fixpoint owed (i : nat) (gs : list gstate) (pfs : list pendingFlush) : nat :=
  match gs, pfs with
  | g :: gs', pf :: pfs' =>
    (if signalled g then 0 else count i (pf_wf pf)) + owed i gs' pfs'
  | _, _ => 0
  end.

(** A registry whose wait dependencies are in order: the counter of every
    entry is the number of its occurrences in the [wf] lists, and the [wf]
    list of an entry holds positions behind it. *)
Definition wait_ok (reg : list pendingFlush) : Prop :=
  (forall i pf, reg !! i = Some pf -> pf_wg pf = waits i reg)
  /\ (forall j pf i, reg !! j = Some pf -> i ∈ pf_wf pf -> j < i < length reg).

(** What holds of the wait dependencies at every moment of a [FlushAll]
    call: no goroutine has panicked, the [wf] lists are the ones of the
    registry, every counter covers the signals its entry is still to
    receive, and an entry whose goroutine has got past [pf.wait()] is in the
    [wf] list only of entries that have run [pf.done()]. *)
Definition wait_inv (reg : list pendingFlush) (c : config) : Prop :=
  is_panic (c_main c) = false
  /\ length (c_gs c) = length (c_pfs c)
  /\ pf_wf <$> c_pfs c = pf_wf <$> reg
  /\ (forall i pf, c_pfs c !! i = Some pf -> owed i (c_gs c) (c_pfs c) <= pf_wg pf)
  /\ (forall i j g pf, c_gs c !! i = Some g -> g <> GWait ->
        c_pfs c !! j = Some pf -> i ∈ pf_wf pf ->
        exists g', c_gs c !! j = Some g' /\ signalled g' = true).

(** The goroutine of entry [i] runs from [pf.wait()] to its end, and its
    [Flush] returns [err]. *)
Definition goroutine_steps (i : nat) (err : option error) : list action :=
  [Start i; Return i err; Done i; Send i].

(** The goroutines of the entries [i], [i+1], ... run one after the other. *)
Fixpoint goroutines_from (i : nat) (errs : list (option error)) : list action :=
  match errs with
  | [] => []
  | err :: rest => goroutine_steps i err ++ goroutines_from (S i) rest
  end.

(** A stage that only adds entries to the registry, and keeps the wait
    dependencies in order. *)
Definition registry_local (p : Pipe) : Prop :=
  forall s h, exists new,
    pendingFlushes (p s h).1.1 = pendingFlushes s ++ new
    /\ (wait_ok (pendingFlushes s) -> wait_ok (pendingFlushes s ++ new)).

(** What [reg[fi].waitFor(reg[wi])] does to the entry at position [i]. *)
Definition waitFor_entry (fi wi i : nat) (pf : pendingFlush) : pendingFlush :=
  (if decide (wi = i) then wf_append fi else id)
    ((if decide (fi = i) then wg_Add else id) pf).

(** What the loops of [Script] behind a stage do to the entry at position
    [i]: the entries [fis] wait for the entries [wis]. *)
Definition chain_entry (fis wis : list nat) (i : nat) (pf : pendingFlush) : pendingFlush :=
  foldl (fun pf fi => foldl (fun pf wi => waitFor_entry fi wi i pf) pf wis) pf fis.

(** The entries of one registry are all in another one, with [wf] lists that
    have only grown. *)
Definition wf_grows (reg reg' : list pendingFlush) : Prop :=
  forall i pf, reg !! i = Some pf ->
    exists pf', reg' !! i = Some pf' /\ (forall x, x ∈ pf_wf pf -> x ∈ pf_wf pf').

(** The words of the specification: the lines of the input, each with its
    terminator, the last one without when the input does not end in one. *)
Fixpoint lines_of (input : list Byte.byte) : list (list Byte.byte) :=
  match input with
  | [] => []
  | b :: rest =>
    if Byte.eqb b Byte.x0a then [b] :: lines_of rest
    else match lines_of rest with
         | [] => [[b]]
         | l :: ls => (b :: l) :: ls
         end
  end.

Definition is_crlf (b : Byte.byte) : bool := Byte.eqb b Byte.x0d || Byte.eqb b Byte.x0a.

Fixpoint drop_crlf (s : list Byte.byte) : list Byte.byte :=
  match s with
  | [] => []
  | b :: s' => if is_crlf b then drop_crlf s' else s
  end.

(** A line with its trailing CR and LF bytes stripped. *)
Definition strip_crlf (line : list Byte.byte) : list Byte.byte :=
  rev (drop_crlf (rev line)).

(** What the specification lets through: the lines that [f] accepts once
    they are stripped, in the order of the input, as they are. *)
Definition filter_spec (f : list Byte.byte -> bool) (input : list Byte.byte)
  : list Byte.byte :=
  concat (List.filter (fun line => f (strip_crlf line)) (lines_of input)).

(** The wait dependencies at every moment of a [FlushAll] call on a registry
    that is in order: no goroutine has panicked, every counter is exactly the
    number of signals its entry is still to receive, and the [wf] lists
    point forward. *)
Definition wait_exact (c : config) : Prop :=
  is_panic (c_main c) = false
  /\ length (c_gs c) = length (c_pfs c)
  /\ (forall i pf, c_pfs c !! i = Some pf -> pf_wg pf = owed i (c_gs c) (c_pfs c))
  /\ (forall j pf i, c_pfs c !! j = Some pf -> i ∈ pf_wf pf -> j < i).

(** A goroutine that has left [pf.wait()] and has not ended. *)
Definition running (g : gstate) : bool :=
  match g with GFlush | GFlushed _ | GSend _ => true | _ => false end.

Definition is_wait (g : gstate) : bool :=
  match g with GWait => true | _ => false end.

(** The steps a goroutine has left. *)
Definition g_steps (g : gstate) : nat :=
  match g with
  | GWait => 4
  | GFlush => 3
  | GFlushed _ => 2
  | GSend _ => 1
  | GExit _ => 0
  end.

(** The steps [FlushAll] itself has left at most, for [n] entries: one per
    value to receive, one for the return, and the Kill loop when it is
    still to come. *)
Definition main_steps (n : nat) (m : mstate) : nat :=
  match m with
  | MRecv k None => k + 1 + (n + 1)
  | MRecv k (Some _) => k + 1
  | MKill k _ j => k + 1 + (n - j) + 1
  | MReturn _ | MPanic => 0
  end.

Definition steps_left (c : config) : nat :=
  if is_panic (c_main c) then 0
  else sum_list_with g_steps (c_gs c) + main_steps (length (c_gs c)) (c_main c).

(** A line that ends in its terminator. *)
Definition terminated (line : list Byte.byte) : bool :=
  match last line with
  | Some b => Byte.eqb b Byte.x0a
  | None => false
  end.

(** One [Write] call per line, up to the first one that fails. *)
Fixpoint write_lines {W : Type} (write : W -> list Byte.byte -> W * option error)
    (w : W) (lines : list (list Byte.byte)) : W * option error :=
  match lines with
  | [] => (w, None)
  | line :: rest =>
    match write w line with
    | (w', Some e) => (w', Some e)
    | (w', None) => write_lines write w' rest
    end
  end.

(** The lines [Filter] gets to see: all of them when the stream ends in
    io.EOF, the terminated ones when it ends in an error. *)
Definition lines_read (r : Reader) : list (list Byte.byte) :=
  match rd_err r with
  | None => lines_of (rd_data r)
  | Some _ => List.filter terminated (lines_of (rd_data r))
  end.

(** What the flusher of [Filter] comes to, in terms of lines: the accepted
    lines are written one by one, the first failing [Write] ends the run
    with its error, and otherwise the error of the stream is returned. *)
Definition filter_result {W : Type} (write : W -> list Byte.byte -> W * option error)
    (f : list Byte.byte -> bool) (r : Reader) (w : W) : W * option error :=
  let '(w', werr) :=
    write_lines write w (List.filter (fun line => f (strip_crlf line)) (lines_read r)) in
  (w', match werr with Some e => Some e | None => rd_err r end).

(** A string as the predicate of [Filter] gets it: no LF in it, and neither
    CR nor LF at its end. *)
Definition clean (s : list Byte.byte) : bool :=
  forallb (fun b => negb (Byte.eqb b Byte.x0a)) s
  && match last s with Some b => negb (Byte.eqb b Byte.x0d) | None => true end.

(** No LF in a string. *)
Definition no_LF (s : list Byte.byte) : bool :=
  forallb (fun b => negb (Byte.eqb b Byte.x0a)) s.

(** Lines as [ReadBytes] cuts them: each one ends at its first LF, and only
    the last one may be without. *)
Inductive lines_wf : list (list Byte.byte) -> Prop :=
| lines_wf_nil : lines_wf []
| lines_wf_last body : no_LF body = true -> body <> [] -> lines_wf [body]
| lines_wf_cons body ls :
    no_LF body = true -> lines_wf ls -> lines_wf ((body ++ [Byte.x0a]) :: ls).

(** How many entries of an environment are for the variable [name]. *)
Definition entries_for (name : string) (kvs : list string) : nat :=
  length (List.filter (fun kv => HasPrefix kv (name +:+ "=")) kvs).

(** The stage that registers the flusher [f]: [Exec] for a command and
    [FlushFunc] for a closure. *)
Definition stage_of `{GoRuntime} (f : Flusher) : Pipe :=
  match f with
  | execFlusher name args => Exec name args
  | flushFunc k => FlushFunc k
  end.

(** The entries of one registry are all in another one, at their positions,
    with their State, their flusher and their closers. *)
Definition same_entries (reg reg' : list pendingFlush) : Prop :=
  forall i pf, reg !! i = Some pf ->
    exists pf', reg' !! i = Some pf'
      /\ pf_s pf' = pf_s pf /\ pf_f pf' = pf_f pf /\ pf_c pf' = pf_c pf.

(** A captured environment [cs] beside the live one: both are valid and
    they do not share an array. *)
Definition kept (cs live : slice) (m : list (list string)) : Prop :=
  slice_ok m live /\ slice_ok m cs /\ separate cs live.

(** How often the closer at address [a] is in the [c] lists of a registry:
    the entries that hold it. *)
Fixpoint held (a : nat) (pfs : list pendingFlush) : nat :=
  match pfs with
  | [] => 0
  | pf :: pfs' => count a (pf_c pf) + held a pfs'
  end.

(** How often the closer at address [a] is in the [c] list of an entry that
    has not run [pf.done()]. *)
Fixpoint holders (a : nat) (gs : list gstate) (pfs : list pendingFlush) : nat :=
  match gs, pfs with
  | g :: gs', pf :: pfs' =>
    (if signalled g then 0 else count a (pf_c pf)) + holders a gs' pfs'
  | _, _ => 0
  end.

(** How often [Close] has run on the endpoint [x]. *)
Fixpoint closes (x : stream) (log : list stream) : nat :=
  match log with
  | [] => 0
  | y :: log' => (if decide (y = x) then 1 else 0) + closes x log'
  end.

(** Closers as [Line] leaves them: the count of every closer is the number
    of entries that hold it, as an [int32], and no two closers are for the
    same endpoint. *)
Definition closers_ok (reg : list pendingFlush) (h : Heap) : Prop :=
  (forall a o, closers h !! a = Some o ->
     refs o = Z.of_nat (held a reg) /\ (refs o < 2 ^ 31)%Z)
  /\ NoDup (rc_c <$> closers h).

(** What holds of the closers at every moment of a [FlushAll] call that has
    not panicked: the [c] lists and the endpoints are as they were, the
    count of a closer is the number of entries that hold it and have not
    run [pf.done()], and its endpoint has been closed once when that number
    has come down to zero. *)
Definition closers_inv (reg : list pendingFlush) (h0 : Heap) (c : config) : Prop :=
  is_panic (c_main c) = false ->
  length (c_gs c) = length (c_pfs c)
  /\ pf_c <$> c_pfs c = pf_c <$> reg
  /\ rc_c <$> closers (c_heap c) = rc_c <$> closers h0
  /\ NoDup (rc_c <$> closers h0)
  /\ forall a o, closers (c_heap c) !! a = Some o ->
       refs o = Z.of_nat (holders a (c_gs c) (c_pfs c)) /\ (refs o < 2 ^ 31)%Z
       /\ closes (rc_c o) (closed (c_heap c))
            + (if decide (holders a (c_gs c) (c_pfs c) = 0) then 0 else 1)
          = closes (rc_c o) (closed h0) + (if decide (held a reg = 0) then 0 else 1).





(** A stage that only sets up the State: it returns nil, it adds no entry,
    and it leaves [s.Stdin], [s.Stderr], the closers and the pipes alone. *)
Definition plain_stage (p : Pipe) : Prop :=
  forall s h, exists s' h',
    p s h = (s', h', None)
    /\ pendingFlushes s' = pendingFlushes s
    /\ Stdin s' = Stdin s /\ Stderr s' = Stderr s
    /\ closers h' = closers h /\ pipes h' = pipes h /\ closed h' = closed h.

(** * Examples *)

(** A runtime for the examples: capacities double, paths are joined with a
    slash, and [os.Mkdir] always fails. *)
Definition example_runtime : GoRuntime := {|
  growslice := fun old n => Nat.max n (2 * old);
  filepath_IsAbs := fun p => HasPrefix p "/";
  filepath_Join := fun l => String.concat "/" l;
  os_Environ := ["HOME=/root"; "PATH=/bin"];
  os_Mkdir := fun _ _ => Some "mkdir: file exists"
|}.

(** A state whose environment is a slice of length 2 and capacity 3. *)
Definition example_heap : Heap :=
  mkHeap [["A=1"; "B=2"; EmptyString]] [] 0 [].
Definition example_state : State :=
  mkState EmptyReader (Buffer 0) (Buffer 1) "/tmp" (mkSlice (Some 0) 2 3) [].

(** A heap that holds one closer: the read end of a pipe with count [n]. *)
Definition closer_heap (n : Z) : Heap := mkHeap [] [mkRefCloser (PipeReader 0) n] 1 [].

(** Stages for the examples: the environment and the directory are changed,
    a flusher is added, and the last stage fails. *)
Definition example_stages : list Pipe :=
  [SetEnvVar (H:=example_runtime) "A" "x";
   ChDir (H:=example_runtime) "sub";
   FlushFunc (H:=example_runtime) 0;
   SetEnvVar (H:=example_runtime) "C" "y";
   MkDir (H:=example_runtime) "d" 493].

(** Three flushers chained by [Script], and a schedule of their [FlushAll] in
    which the first one fails, the Kill loop runs while the second one is in
    [Flush], and the third one fails later. *)
Definition example_pre : list Pipe :=
  [FlushFunc (H:=example_runtime) 0; FlushFunc (H:=example_runtime) 1].

Definition example_script : State * Heap * option error :=
  Eval vm_compute in
    Script (H:=example_runtime) (example_pre ++ [FlushFunc (H:=example_runtime) 2])
      example_state example_heap.

Definition example_registry : list pendingFlush := pendingFlushes example_script.1.1.

Definition example_schedule : list action :=
  [Start 0; Return 0 (Some "boom"); Done 0; Send 0; Main; Start 1; Main; Main;
   Return 1 None; Main; Main; Done 1; Send 1; Start 2; Return 2 (Some "late");
   Done 2; Send 2; Main; Main; Main].

(** The state in which that schedule ends. *)
Definition example_final : config :=
  Eval vm_compute in
    default (FlushAll_init [] example_heap)
      (run example_schedule (FlushAll_init example_registry example_script.1.2)).



(** A line of three stages whose second stage fails. *)
Definition failing_line : list Pipe :=
  [FlushFunc (H:=example_runtime) 0; MkDir (H:=example_runtime) "d" 493;
   FlushFunc (H:=example_runtime) 1].

(** The two tests of the package for [Filter]: the lines out1, out2, out3,
    the last one with and without its terminator, and a predicate that
    rejects out2. *)
Fixpoint bytes_eqb (a b : list Byte.byte) : bool :=
  match a, b with
  | [], [] => true
  | x :: a', y :: b' => Byte.eqb x y && bytes_eqb a' b'
  | _, _ => false
  end.

Definition not_out2 (line : list Byte.byte) : bool :=
  negb (bytes_eqb line (String.list_byte_of_string "out2")).

Definition three_lines (last : list Byte.byte) : list Byte.byte :=
  String.list_byte_of_string "out1" ++ [Byte.x0a]
  ++ String.list_byte_of_string "out2" ++ [Byte.x0d; Byte.x0a]
  ++ String.list_byte_of_string "out3" ++ last.

(** The state of that [FlushAll] call after the first eight steps of the
    schedule: the first goroutine has ended, the second one is in [Flush],
    and the third one waits for it. *)
Definition example_midway : config :=
  Eval vm_compute in
    default (FlushAll_init [] example_heap)
      (run (take 8 example_schedule) (FlushAll_init example_registry example_script.1.2)).

(** A predicate that differs from [not_out2] only on strings that [Filter]
    never passes. *)
Definition not_out2_clean (line : list Byte.byte) : bool :=
  if clean line then not_out2 line else false.

(** A writer that takes [n] more bytes and then fails: what is written so
    far, and the room that is left. *)
Definition limited_Write (w : list Byte.byte * nat) (b : list Byte.byte)
  : list Byte.byte * nat * option error :=
  if decide (length b <= w.2) then ((w.1 ++ b, w.2 - length b), None)
  else (w, Some "short write").

(** The script of the test of the package for [SetEnvVar]: a variable is
    set, a flusher is registered, and the variable is set again. *)
Definition setenv_script : list Pipe :=
  [SetEnvVar (H:=example_runtime) "NEW" "old"]
  ++ stage_of (H:=example_runtime) (flushFunc 0)
     :: [SetEnvVar (H:=example_runtime) "NEW" "new"].

(** The state in which the flusher of that script is registered. *)
Definition setenv_before : State * Heap * option error :=
  Eval vm_compute in
    Script_loop 0 [SetEnvVar (H:=example_runtime) "NEW" "old"]
      (enter_scope (H:=example_runtime) example_state example_heap).1
      (enter_scope (H:=example_runtime) example_state example_heap).2.

(** A pipeline of three flushers. *)
Definition example_flushers : list Flusher := [flushFunc 0; flushFunc 1; flushFunc 2].

Definition example_line : State * Heap * option error :=
  Eval vm_compute in
    Line (H:=example_runtime) (stage_of (H:=example_runtime) <$> example_flushers)
      example_state example_heap.

(** A moment of the [FlushAll] call on that pipeline: the first flusher has
    finished and the second one is in [Flush]. *)
Definition line_schedule : list action :=
  [Start 1; Start 0; Return 0 None; Done 0; Send 0; Main].

Definition line_midway : config :=
  Eval vm_compute in
    default (FlushAll_init [] example_heap)
      (run line_schedule (FlushAll_init (pendingFlushes example_line.1.1) example_line.1.2)).

(** * Properties *)

(** ** Strings *)

Local Arguments Ascii.eqb : simpl never.

Lemma HasPrefix_app (p v : string) : HasPrefix (p +:+ v) p = true.
Proof.
  induction p as [|c p IH]; simpl; [done|].
  by rewrite Ascii.eqb_refl.
Qed.


(** ** Slices *)

Section slices.
Context `{GoRuntime}.

Lemma elems_length m sl : slice_ok m sl -> length (elems m sl) = slen sl.
Proof.
  intros [Hle Hp]. unfold elems, backing. destruct (sptr sl) as [a|].
  - destruct Hp as (arr & -> & Hlen). simpl. rewrite length_take. lia.
  - rewrite length_take. simpl. lia.
Qed.

Lemma append_length m sl xs m' sl' :
  append m sl xs = (m', sl') -> length m <= length m'.
Proof.
  unfold append. destruct xs as [|x xs]; [intros [= <- <-]; lia|].
  case_decide.
  - destruct (sptr sl); intros [= <- <-]; rewrite ?length_alter; lia.
  - intros [= <- <-]. rewrite length_app. simpl. lia.
Qed.

(** [append] leaves every array alone except the one the slice points to. *)
Lemma append_frame m sl xs m' sl' a :
  append m sl xs = (m', sl') -> a < length m -> sptr sl <> Some a ->
  m' !! a = m !! a.
Proof.
  unfold append. destruct xs as [|x xs]; [by intros [= <- <-]|].
  case_decide.
  - destruct (sptr sl) as [b|]; intros [= <- <-] Ha Hne; [|done].
    apply list_lookup_alter_ne. congruence.
  - intros [= <- <-] Ha _. by apply lookup_app_l.
Qed.

(** The array of the result is the one of the argument, or a new one. *)
Lemma append_ptr m sl xs m' sl' :
  append m sl xs = (m', sl') ->
  sptr sl' = sptr sl \/ sptr sl' = Some (length m).
Proof.
  unfold append. destruct xs as [|x xs]; [intros [= <- <-]; by left|].
  case_decide.
  - destruct (sptr sl) as [b|] eqn:E; intros [= <- <-]; left; simpl; congruence.
  - intros [= <- <-]. by right.
Qed.

Lemma append_elems m sl xs m' sl' :
  slice_ok m sl -> append m sl xs = (m', sl') -> elems m' sl' = elems m sl ++ xs.
Proof.
  intros [Hle Hp]. unfold append.
  destruct xs as [|x xs]; [intros [= <- <-]; by rewrite app_nil_r|].
  set (ys := x :: xs). case_decide as Hfit.
  - destruct (sptr sl) as [a|] eqn:E.
    + destruct Hp as (arr & Harr & Hlen). intros [= <- <-].
      unfold elems, backing. simpl. rewrite E.
      rewrite list_lookup_alter_eq, Harr. simpl.
      rewrite take_app_ge by (rewrite length_take; lia).
      rewrite length_take_le by lia. f_equal.
      replace (slen sl + S (length xs) - slen sl) with (length ys) by (simpl; lia).
      apply (take_app_length ys).
    + simpl in Hfit. lia.
  - intros [= <- <-]. unfold elems at 1, backing. simpl.
    rewrite list_lookup_middle by done. simpl.
    assert (length (elems m sl) = slen sl) as Hl.
    { apply elems_length. by split. }
    rewrite take_app_ge by lia. rewrite Hl. f_equal.
    replace (slen sl + S (length xs) - slen sl) with (length ys) by (simpl; lia).
    apply (take_app_length ys).
Qed.

Lemma append_ok m sl xs m' sl' :
  slice_ok m sl -> append m sl xs = (m', sl') -> slice_ok m' sl'.
Proof.
  intros Hok. pose proof Hok as [Hle Hp]. unfold append.
  destruct xs as [|x xs]; [by intros [= <- <-]|].
  case_decide as Hfit; simpl in Hfit.
  - destruct (sptr sl) as [a|] eqn:E; [|lia].
    destruct Hp as (arr & Harr & Hlen). intros [= <- <-].
    split; simpl; [lia|]. rewrite list_lookup_alter_eq, Harr. simpl.
    eexists; split; [done|].
    rewrite length_app, length_take. simpl.
    rewrite length_app, length_drop. lia.
  - intros [= <- <-]. split; simpl; [lia|].
    rewrite list_lookup_middle by done. eexists; split; [done|].
    rewrite length_app, elems_length by done. simpl.
    rewrite length_app, length_replicate. lia.
Qed.

Lemma slice_store_elems m sl i x :
  slice_ok m sl -> elems (slice_store m sl i x) sl = <[i:=x]> (elems m sl).
Proof.
  intros [Hle Hp]. unfold elems, backing, slice_store.
  destruct (sptr sl) as [a|]; [|by rewrite take_nil].
  destruct Hp as (arr & Harr & Hlen).
  rewrite list_lookup_alter_eq, Harr. simpl.
  rewrite take_insert. case_decide; [done|].
  rewrite list_insert_ge; [done|]. rewrite length_take. lia.
Qed.

Lemma slice_store_frame m sl i x a :
  sptr sl <> Some a -> slice_store m sl i x !! a = m !! a.
Proof.
  unfold slice_store. destruct (sptr sl) as [b|]; [|done].
  intros Hne. apply list_lookup_alter_ne. congruence.
Qed.

Lemma slice_store_length m sl i x : length (slice_store m sl i x) = length m.
Proof. unfold slice_store. destruct (sptr sl); by rewrite ?length_alter. Qed.

Lemma arrays_ext_refl m : arrays_ext m m.
Proof. intros a arr ?. eauto. Qed.

Lemma arrays_ext_trans m1 m2 m3 :
  arrays_ext m1 m2 -> arrays_ext m2 m3 -> arrays_ext m1 m3.
Proof.
  intros H12 H23 a arr Ha. destruct (H12 _ _ Ha) as (arr2 & Ha2 & Hl2).
  destruct (H23 _ _ Ha2) as (arr3 & Ha3 & Hl3). exists arr3. split; [done|lia].
Qed.

Lemma arrays_ext_length m m' : arrays_ext m m' -> length m <= length m'.
Proof.
  intros Hext. destruct (decide (length m <= length m')) as [|Hn]; [done|].
  destruct (lookup_lt_is_Some_2 m (length m')) as [arr Harr]; [lia|].
  destruct (Hext _ _ Harr) as (arr' & Harr' & _).
  apply lookup_lt_Some in Harr'. lia.
Qed.

Lemma slice_ok_ext m m' sl : arrays_ext m m' -> slice_ok m sl -> slice_ok m' sl.
Proof.
  intros Hext [Hle Hp]. split; [done|]. destruct (sptr sl) as [a|]; [|done].
  destruct Hp as (arr & Harr & Hlen). destruct (Hext _ _ Harr) as (arr' & ? & ?).
  exists arr'. split; [done|lia].
Qed.

Lemma append_ext m sl xs m' sl' :
  slice_ok m sl -> append m sl xs = (m', sl') -> arrays_ext m m'.
Proof.
  intros [Hle Hp]. unfold append.
  destruct xs as [|x xs]; [intros [= <- <-]; apply arrays_ext_refl|].
  case_decide as Hfit; simpl in Hfit.
  - destruct (sptr sl) as [b|] eqn:E; intros [= <- <-]; [|apply arrays_ext_refl].
    destruct Hp as (arr0 & Harr0 & Hlen0).
    intros a arr Ha. rewrite list_lookup_alter. case_decide as Hab.
    + subst b. rewrite Ha. eexists; split; [done|].
      assert (arr0 = arr) as -> by congruence.
      rewrite length_app, length_take. simpl.
      rewrite length_app, length_drop. lia.
    + eauto.
  - intros [= <- <-] a arr Ha. exists arr. split; [|done].
    rewrite lookup_app_l; [done|]. by eapply lookup_lt_Some.
Qed.

Lemma slice_store_ext m sl i x : arrays_ext m (slice_store m sl i x).
Proof.
  unfold slice_store. destruct (sptr sl) as [b|]; [|apply arrays_ext_refl].
  intros a arr Ha. rewrite list_lookup_alter. case_decide.
  - subst b. rewrite Ha. simpl. eexists; split; [done|]. by rewrite length_insert.
  - eauto.
Qed.
End slices.

(** ** EnvVar and SetEnvVar *)

Lemma prefix_name_inj (n n' kv : string) :
  is_name n = true -> is_name n' = true ->
  HasPrefix kv (n +:+ "=") = true -> HasPrefix kv (n' +:+ "=") = true -> n = n'.
Proof.
  revert n' kv.
  induction n as [|c n IH]; intros [|c' n'] [|d kv]; simpl; try done.
  - intros _ Hn' [Hd%Ascii.eqb_eq _]%andb_true_iff [Hc%Ascii.eqb_eq _]%andb_true_iff.
    subst. by rewrite Ascii.eqb_refl in Hn'.
  - intros Hn _ [Hc%Ascii.eqb_eq _]%andb_true_iff [Hd%Ascii.eqb_eq _]%andb_true_iff.
    subst. by rewrite Ascii.eqb_refl in Hn.
  - intros [_ Hn]%andb_true_iff [_ Hn']%andb_true_iff
           [Hc%Ascii.eqb_eq H1]%andb_true_iff [Hd%Ascii.eqb_eq H2]%andb_true_iff.
    subst. f_equal. by eapply IH.
Qed.

Lemma EnvVar_loop_absent prefix kvs :
  (forall kv, kv ∈ kvs -> HasPrefix kv prefix = false) ->
  EnvVar_loop prefix kvs = EmptyString.
Proof.
  induction kvs as [|kv kvs IH]; intros Hno; simpl; [done|].
  rewrite (Hno kv) by apply list_elem_of_here.
  apply IH. intros kv' ?. apply Hno. by apply list_elem_of_further.
Qed.



Lemma SetEnvVar_find_spec prefix x kvs k :
  match SetEnvVar_find prefix kvs k with
  | Some i => k <= i /\ <[i - k := prefix +:+ x]> kvs = setenv_spec prefix x kvs
  | None => kvs ++ [prefix +:+ x] = setenv_spec prefix x kvs
  end.
Proof.
  revert k. induction kvs as [|kv kvs IH]; intros k; simpl; [done|].
  destruct (HasPrefix kv prefix).
  - split; [lia|]. by rewrite Nat.sub_diag.
  - specialize (IH (S k)). destruct (SetEnvVar_find prefix kvs (S k)) as [i|].
    + destruct IH as [Hle IH]. split; [lia|].
      replace (i - k) with (S (i - S k)) by lia. simpl. by rewrite IH.
    + by rewrite IH.
Qed.

Section env.
Context `{GoRuntime}.

(** [SetEnvVar] on the slice does to the elements what the specification
    says, and leaves the slice valid. *)
Lemma SetEnvVar_method_elems {R} name v (s s' : StateOf R) h h' :
  slice_ok (arrays h) (Env s) ->
  SetEnvVar_method name v s h = (s', h') ->
  elems (arrays h') (Env s') = setenv_spec (name +:+ "=") v (elems (arrays h) (Env s))
  /\ slice_ok (arrays h') (Env s').
Proof.
  intros Hok. unfold SetEnvVar_method.
  pose proof (SetEnvVar_find_spec (name +:+ "=") v (elems (arrays h) (Env s)) 0) as Hf.
  destruct (SetEnvVar_find _ _ 0) as [i|].
  - intros [= <- <-]. simpl. destruct Hf as [_ Hf]. rewrite Nat.sub_0_r in Hf.
    split; [by rewrite slice_store_elems, Hf|].
    eapply slice_ok_ext; [apply slice_store_ext|done].
  - destruct (append _ _ _) as [m e] eqn:Ha. intros [= <- <-]. simpl.
    split; [by rewrite (append_elems _ _ _ _ _ Hok Ha), Hf|].
    by eapply append_ok.
Qed.

Lemma SetEnvVars_snoc {R} ws w (s : StateOf R) h :
  SetEnvVars (ws ++ [w]) s h
  = SetEnvVar_method (fst w) (snd w) (fst (SetEnvVars ws s h)) (snd (SetEnvVars ws s h)).
Proof. unfold SetEnvVars. by rewrite foldl_app. Qed.

Lemma SetEnvVars_ok {R} ws (s : StateOf R) h :
  slice_ok (arrays h) (Env s) ->
  slice_ok (arrays (snd (SetEnvVars ws s h))) (Env (fst (SetEnvVars ws s h))).
Proof.
  intros Hok. induction ws as [|w ws IH] using rev_ind; [done|].
  rewrite SetEnvVars_snoc.
  destruct (SetEnvVar_method _ _ _ _) as [s' h'] eqn:E.
  by destruct (SetEnvVar_method_elems _ _ _ _ _ _ IH E).
Qed.

Lemma last_written_snoc name ws w :
  last_written name (ws ++ [w])
  = if decide (fst w = name) then Some (snd w) else last_written name ws.
Proof.
  induction ws as [|w' ws IH]; simpl; [done|]. rewrite IH.
  case_decide; [done|]. done.
Qed.
End env.

Lemma example_state_ok : slice_ok (arrays example_heap) (Env example_state).
Proof. split; [simpl; lia|]. simpl. eexists. split; reflexivity. Defined.



(** ** refCloser *)

Lemma wrap32_pred (x : Z) : wrap32 (wrap32 x - 1) = wrap32 (x - 1).
Proof.
  unfold wrap32. f_equal.
  replace ((x + 2 ^ 31) mod 2 ^ 32 - 2 ^ 31 - 1 + 2 ^ 31)%Z
    with ((x + 2 ^ 31) mod 2 ^ 32 - 1)%Z by lia.
  rewrite Zminus_mod_idemp_l. f_equal. lia.
Qed.

Lemma wrap32_small (x : Z) : (- 2 ^ 31 <= x < 2 ^ 31)%Z -> wrap32 x = x.
Proof. intros Hx. unfold wrap32. rewrite Z.mod_small; lia. Qed.

Lemma wrap32_zero (x : Z) : wrap32 x = 0%Z <-> (x mod 2 ^ 32 = 0)%Z.
Proof. unfold wrap32. split; intros Hx; Z.div_mod_to_equations; lia. Qed.

Lemma zero_crossings_succ (n : Z) (k : N) :
  (1 <= n < 2 ^ 31)%Z ->
  zero_crossings n (N.succ k)
  = zero_crossings n k + (if decide (wrap32 (n - Z.of_N (N.succ k)) = 0%Z) then 1 else 0).
Proof.
  intros Hn. unfold zero_crossings. rewrite N2Z.inj_succ.
  case_decide as Hz; rewrite wrap32_zero in Hz.
  - replace (Z.succ (Z.of_N k) - n + 2 ^ 32)%Z
      with ((Z.of_N k - n + 2 ^ 32) + 1)%Z by lia.
    rewrite <- (Z2Nat.inj_add _ 1) by (try apply Z.div_pos; lia). f_equal.
    Z.div_mod_to_equations. lia.
  - rewrite Nat.add_0_r. f_equal. Z.div_mod_to_equations. lia.
Qed.

(** The state of the heap after [k] calls of [Close] on a closer that held
    the endpoint [c] with count [n]. *)
Lemma Close_times_spec (a : nat) (c : stream) (n : Z) (h : Heap) (k : N) :
  closers h !! a = Some (mkRefCloser c n) -> (1 <= n < 2 ^ 31)%Z ->
  Close_times k (Some a) h
  = mkHeap (arrays h) (<[a := mkRefCloser c (wrap32 (n - Z.of_N k))]> (closers h))
      (pipes h) (closed h ++ replicate (zero_crossings n k) c).
Proof.
  intros Ha Hn. unfold Close_times. induction k as [|k IH] using N.peano_ind.
  - simpl. rewrite Z.sub_0_r, wrap32_small by lia.
    rewrite list_insert_id by done. unfold zero_crossings.
    replace ((Z.of_N 0 - n + 2 ^ 32) / 2 ^ 32)%Z with 0%Z
      by (Z.div_mod_to_equations; lia).
    simpl. rewrite app_nil_r. by destruct h.
  - rewrite N.iter_succ, IH. unfold Close. simpl.
    rewrite list_lookup_insert_eq by (by eapply lookup_lt_Some). simpl.
    rewrite wrap32_pred, list_insert_insert_eq, zero_crossings_succ by done.
    replace (n - Z.of_N k - 1)%Z with (n - Z.of_N (N.succ k))%Z by lia.
    case_decide; unfold close_endpoint, set_closers; simpl.
    + by rewrite replicate_add, app_assoc.
    + by rewrite Nat.add_0_r.
Qed.

(** C4 (as amended).  For a refCloser whose count starts at [n], with
    [1 <= n < 2^31], and any run of fewer than [2^32 + n] calls of [Close],
    the endpoint is closed exactly once, by call number [n]: after [k] calls
    the log of closed endpoints has grown by the endpoint when [n <= k] and
    by nothing otherwise; and every further call within that bound returns
    nil and leaves the log as it is. *)
Theorem refCloser_closes_once (a : nat) (c : stream) (n : Z) (h : Heap) (k : N) :
  closers h !! a = Some (mkRefCloser c n) ->
  (1 <= n < 2 ^ 31)%Z ->
  (Z.of_N k < 2 ^ 32 + n)%Z ->
  closed (Close_times k (Some a) h)
  = closed h ++ (if decide (n <= Z.of_N k)%Z then [c] else [])
  /\ ((n <= Z.of_N k)%Z -> (Z.of_N k + 1 < 2 ^ 32 + n)%Z ->
      (Close (Some a) (Close_times k (Some a) h)).2 = None
      /\ closed (Close (Some a) (Close_times k (Some a) h)).1
         = closed (Close_times k (Some a) h)).
Proof.
  intros Ha Hn Hk.
  assert (forall j : N, (Z.of_N j < 2 ^ 32 + n)%Z ->
            zero_crossings n j = if decide (n <= Z.of_N j)%Z then 1 else 0) as Hz.
  { intros j Hj. unfold zero_crossings. case_decide.
    - replace ((Z.of_N j - n + 2 ^ 32) / 2 ^ 32)%Z with 1%Z; [done|].
      Z.div_mod_to_equations. lia.
    - replace ((Z.of_N j - n + 2 ^ 32) / 2 ^ 32)%Z with 0%Z; [done|].
      Z.div_mod_to_equations. lia. }
  split.
  - rewrite (Close_times_spec a c n) by done. simpl. rewrite Hz by done.
    by case_decide.
  - intros Hge Hk'.
    pose proof (Close_times_spec a c n h (N.succ k) Ha Hn) as Hs.
    unfold Close_times in Hs. rewrite N.iter_succ in Hs. fold (Close_times k (Some a) h) in Hs.
    split.
    + unfold Close. destruct (closers (Close_times k (Some a) h) !! a); [|done].
      by case_decide.
    + rewrite Hs, (Close_times_spec a c n) by done. simpl.
      rewrite !Hz by lia. repeat case_decide; try done; lia.
Qed.

Lemma refCloser_closes_once_witness :
  closed (Close_times 5 (Some 0) (closer_heap 2)) = [PipeReader 0]
  /\ (Close (Some 0) (Close_times 5 (Some 0) (closer_heap 2))).2 = None.
Proof.
  destruct (refCloser_closes_once 0 (PipeReader 0) 2 (closer_heap 2) 5) as [Hc Hn];
    [reflexivity | lia | lia |].
  split; [exact Hc|]. apply Hn; lia.
Defined.

(** The claim C4 as it is written fails for long runs: the count is an
    [int32], so [2^32] calls after the close it is zero again, and the
    endpoint of a closer that started at 1 is closed a second time by call
    number [2^32 + 1]. *)
Lemma refCloser_closes_twice :
  closed (Close_times (2 ^ 32 + 1) (Some 0) (closer_heap 1)) = [PipeReader 0; PipeReader 0].
Proof.
  rewrite (Close_times_spec 0 (PipeReader 0) 1); [reflexivity | reflexivity | lia].
Qed.

Lemma Line_attach_nil (sh : State * Heap) (fi : nat) : Line_attach None None sh fi = sh.
Proof.
  destruct sh as [s h]. unfold Line_attach.
  destruct (pendingFlushes s !! fi) as [pf|] eqn:E; [|done]. simpl.
  rewrite list_insert_id by done. by destruct s.
Qed.

Lemma foldl_Line_attach_nil (sh : State * Heap) (l : list nat) :
  foldl (Line_attach None None) sh l = sh.
Proof.
  induction l as [|fi l IH]; [done|]. cbn [foldl]. by rewrite Line_attach_nil.
Qed.

(** C10.  On a nil refCloser [uses] returns false and [Close] returns nil
    and leaves the heap (so every endpoint) as it is; and a [Line] of a
    single stage, which is both the first stage (nil [closeIn]) and the last
    one (nil [closeOut]), runs through both [Close] calls and does exactly
    what the stage does with [s.Stdout] kept. *)
Theorem refCloser_nil_safe (c : stream) (h : Heap) :
  uses None c h = false
  /\ Close None h = (h, None)
  /\ (forall (p : Pipe) (s : State),
        Line_loop (Stdout s) None [p] s h = p s h).
Proof.
  split; [done|]. split; [done|]. intros p s. simpl.
  replace (set_Stdout (Stdout s) s) with s by (by destruct s).
  destruct (p s h) as [[s3 h3] [e|]]; [done|].
  by rewrite foldl_Line_attach_nil.
Qed.

(** ** AddFlusher: the captured environment *)

Lemma elems_frame m m' cs :
  (forall a, sptr cs = Some a -> m' !! a = m !! a) -> elems m' cs = elems m cs.
Proof.
  intros Hsame. unfold elems, backing. destruct (sptr cs) as [a|]; [|done].
  by rewrite Hsame.
Qed.

Section separation.
Context `{GoRuntime}.

Lemma append_separate m ls xs m' ls' cs :
  slice_ok m ls -> slice_ok m cs -> separate cs ls ->
  append m ls xs = (m', ls') ->
  elems m' cs = elems m cs /\ slice_ok m' cs /\ separate cs ls'.
Proof.
  intros Hls Hcs Hsep Ha.
  assert (forall a, sptr cs = Some a -> a < length m) as Hlt.
  { intros a Ea. destruct Hcs as [_ Hp]. rewrite Ea in Hp.
    destruct Hp as (arr & Harr & _). by eapply lookup_lt_Some. }
  split; [|split].
  - apply elems_frame. intros a Ea. eapply append_frame; [done|by apply Hlt|].
    destruct Hsep as [Hn|Hne]; congruence.
  - eapply slice_ok_ext; [|done]. exact (append_ext _ _ _ _ _ Hls Ha).
  - unfold separate in *. destruct (append_ptr _ _ _ _ _ Ha) as [Hp|Hp]; rewrite Hp.
    + exact Hsep.
    + destruct (sptr cs) as [a|] eqn:Ea; [|by left]. right.
      intros [= ->]. specialize (Hlt _ eq_refl). lia.
Qed.

Lemma SetEnvVar_method_separate {R} name v (s s' : StateOf R) h h' cs :
  slice_ok (arrays h) (Env s) -> slice_ok (arrays h) cs -> separate cs (Env s) ->
  SetEnvVar_method name v s h = (s', h') ->
  elems (arrays h') cs = elems (arrays h) cs
  /\ slice_ok (arrays h') cs /\ separate cs (Env s').
Proof.
  intros Hls Hcs Hsep. unfold SetEnvVar_method.
  destruct (SetEnvVar_find _ _ 0) as [i|].
  - intros [= <- <-]. simpl. split; [|split; [|done]].
    + apply elems_frame. intros a Ea. apply slice_store_frame.
      destruct Hsep as [Hn|Hne]; congruence.
    + eapply slice_ok_ext; [apply slice_store_ext|done].
  - destruct (append _ _ _) as [m e] eqn:Ha. intros [= <- <-]. simpl.
    exact (append_separate _ _ _ _ _ _ Hls Hcs Hsep Ha).
Qed.

Lemma SetEnvVars_separate {R} ws (s : StateOf R) h cs :
  slice_ok (arrays h) (Env s) -> slice_ok (arrays h) cs -> separate cs (Env s) ->
  elems (arrays (SetEnvVars ws s h).2) cs = elems (arrays h) cs.
Proof.
  intros Hls Hcs Hsep.
  cut (elems (arrays (SetEnvVars ws s h).2) cs = elems (arrays h) cs
       /\ slice_ok (arrays (SetEnvVars ws s h).2) cs
       /\ separate cs (Env (SetEnvVars ws s h).1)); [by intros [? _]|].
  induction ws as [|w ws IH] using rev_ind; [done|].
  destruct IH as (IH1 & IH2 & IH3). rewrite SetEnvVars_snoc.
  pose proof (SetEnvVars_ok ws s h Hls) as Hok.
  destruct (SetEnvVar_method _ _ _ _) as [s' h'] eqn:E.
  destruct (SetEnvVar_method_separate _ _ _ _ _ _ cs Hok IH2 IH3 E) as (? & ? & ?).
  simpl. split; [congruence|done].
Qed.

Lemma SetEnvVar_method_registry {R} name v (s s' : StateOf R) h h' :
  SetEnvVar_method name v s h = (s', h') -> pendingFlushes s' = pendingFlushes s.
Proof.
  unfold SetEnvVar_method. destruct (SetEnvVar_find _ _ 0); [by intros [= <- <-]|].
  destruct (append _ _ _). by intros [= <- <-].
Qed.

Lemma SetEnvVars_registry {R} ws (s : StateOf R) h :
  pendingFlushes (SetEnvVars ws s h).1 = pendingFlushes s.
Proof.
  induction ws as [|w ws IH] using rev_ind; [done|]. rewrite SetEnvVars_snoc.
  destruct (SetEnvVar_method _ _ _ _) as [s' h'] eqn:E.
  apply SetEnvVar_method_registry in E. simpl. congruence.
Qed.

(** The copy [append([]string(nil), sl...)] has the elements of [sl], is
    valid, and shares its array with no valid slice of the old store. *)
Lemma clone_spec m sl m' e :
  slice_ok m sl -> append m nil_slice (elems m sl) = (m', e) ->
  elems m' e = elems m sl /\ slice_ok m' e /\ arrays_ext m m'
  /\ (forall a, a < length m -> m' !! a = m !! a)
  /\ (sptr e = None \/ sptr e = Some (length m)).
Proof.
  intros Hok Ha. assert (slice_ok m nil_slice) as Hnil by (by split).
  split; [|split; [|split; [|split]]].
  - by rewrite (append_elems _ _ _ _ _ Hnil Ha).
  - exact (append_ok _ _ _ _ _ Hnil Ha).
  - exact (append_ext _ _ _ _ _ Hnil Ha).
  - intros a Hlt. by eapply append_frame.
  - destruct (append_ptr _ _ _ _ _ Ha) as [->| ->]; [by left|by right].
Qed.
End separation.

(** C7.  [AddFlusher(f)] returns nil and appends one entry that holds [f],
    the streams and the directory of [s], and an environment with the
    elements of [s.Env]; and after any run of [SetEnvVar] calls on the live
    State the entry is still in the registry and the elements of its
    environment are the ones [s.Env] had when the flusher was added. *)
Theorem AddFlusher_captures_env `{GoRuntime} (f : Flusher) (s s1 : State) (h h1 : Heap)
    (err : option error) (ws : list (string * string)) :
  slice_ok (arrays h) (Env s) ->
  AddFlusher f s h = (s1, h1, err) ->
  exists pf,
    err = None
    /\ pendingFlushes s1 = pendingFlushes s ++ [pf]
    /\ pf_f pf = f
    /\ Stdin (pf_s pf) = Stdin s /\ Stdout (pf_s pf) = Stdout s
    /\ Stderr (pf_s pf) = Stderr s /\ Dir (pf_s pf) = Dir s
    /\ elems (arrays h1) (Env (pf_s pf)) = elems (arrays h) (Env s)
    /\ pendingFlushes (SetEnvVars ws s1 h1).1 = pendingFlushes s ++ [pf]
    /\ elems (arrays (SetEnvVars ws s1 h1).2) (Env (pf_s pf)) = elems (arrays h) (Env s).
Proof.
  intros Hok. unfold AddFlusher.
  destruct (append _ _ _) as [m e] eqn:Ha. intros [= <- <- <-].
  destruct (clone_spec _ _ _ _ Hok Ha) as (Hel & Hoke & Hext & Hsame & Hptr).
  eexists. repeat (split; [reflexivity|]). simpl. split; [done|].
  split; [by rewrite SetEnvVars_registry|].
  rewrite SetEnvVars_separate; simpl; [done| |done|].
  - by eapply slice_ok_ext.
  - destruct Hptr as [Hn|Hf]; [by left|]. right. rewrite Hf.
    destruct Hok as [_ Hp]. destruct (sptr (Env s)) as [a|]; [|done].
    destruct Hp as (arr & Harr%lookup_lt_Some & _). intros [= Heq]. lia.
Qed.

Lemma AddFlusher_captures_env_witness :
  exists pf,
    pendingFlushes (AddFlusher (H:=example_runtime) (flushFunc 0)
                      example_state example_heap).1.1 = [pf]
    /\ elems (arrays
                (SetEnvVars (H:=example_runtime) [("A", "9"); ("Z", "0")]
                   (AddFlusher (H:=example_runtime) (flushFunc 0)
                      example_state example_heap).1.1
                   (AddFlusher (H:=example_runtime) (flushFunc 0)
                      example_state example_heap).1.2).2)
             (Env (pf_s pf)) = ["A=1"; "B=2"].
Proof.
  destruct (AddFlusher_captures_env (H:=example_runtime) (flushFunc 0)
              example_state _ example_heap _ _ [("A", "9"); ("Z", "0")]
              example_state_ok eq_refl)
    as (pf & _ & Hreg & _ & _ & _ & _ & _ & _ & _ & Hel).
  exists pf. split; [exact Hreg | exact Hel].
Defined.

(** ** Script and Line: the scope *)

Lemma env_local_in_scope (p : Pipe) m0 s h s' h' r :
  env_local p -> p s h = (s', h', r) ->
  in_scope m0 (Env s) (arrays h) -> in_scope m0 (Env s') (arrays h').
Proof.
  intros Hp E (Hok & Hext & Hsame & Hptr).
  destruct (Hp _ _ _ _ _ E Hok) as (Hok' & Hext' & Hframe & Hptr').
  pose proof (arrays_ext_length _ _ Hext) as Hlen.
  split; [done|]. split; [by eapply arrays_ext_trans|]. split.
  - intros a Ha. rewrite Hframe; [by apply Hsame|lia|].
    destruct Hptr as [->|(b & -> & Hb)]; [done|]. intros [= ->]. lia.
  - destruct Hptr' as [->|[->|(b & -> & Hb)]]; [done|by left|].
    right. exists b. split; [done|lia].
Qed.

Lemma in_scope_restore m0 e m env :
  in_scope m0 e m -> slice_ok m0 env ->
  elems m env = elems m0 env /\ slice_ok m env.
Proof.
  intros (_ & Hext & Hsame & _) Hok. split; [|by eapply slice_ok_ext].
  apply elems_frame. intros a Ea. apply Hsame.
  destruct Hok as [_ Hp]. rewrite Ea in Hp. destruct Hp as (arr & Harr & _).
  by eapply lookup_lt_Some.
Qed.

Lemma Script_loop_in_scope m0 startLen ps s h s' h' r :
  Forall env_local ps -> Script_loop startLen ps s h = (s', h', r) ->
  in_scope m0 (Env s) (arrays h) -> in_scope m0 (Env s') (arrays h').
Proof.
  intros Hps. revert s h. induction Hps as [|p ps Hp Hps IH]; intros s h; simpl.
  - by intros [= <- <- <-].
  - destruct (p s h) as [[s1 h1] [e|]] eqn:E.
    + intros [= <- <- <-]. by eapply env_local_in_scope.
    + intros Hloop Hin. eapply IH; [exact Hloop|]. simpl.
      by eapply env_local_in_scope.
Qed.

Lemma Close_arrays rc h : arrays (Close rc h).1 = arrays h.
Proof.
  unfold Close. destruct rc as [a|]; [|done].
  destruct (closers h !! a); [|done]. by case_decide.
Qed.

Lemma Line_attach1_arrays rc x pf h :
  arrays (Line_attach1 rc x (pf, h)).2 = arrays h.
Proof.
  unfold Line_attach1. destruct rc; [|done]. by destruct (is_Closer x && _).
Qed.

Lemma Line_attach_env ci co sh fi :
  Env (Line_attach ci co sh fi).1 = Env sh.1
  /\ arrays (Line_attach ci co sh fi).2 = arrays sh.2.
Proof.
  destruct sh as [s h]. unfold Line_attach.
  destruct (pendingFlushes s !! fi) as [pf|]; [|done].
  destruct (Line_attach1 co _ _) as [pf' h'] eqn:E. simpl. split; [done|].
  change h' with (pf', h').2. rewrite <- E.
  destruct (Line_attach1 co (Stdout (pf_s pf)) _) as [pf2 h2] eqn:E2.
  rewrite Line_attach1_arrays. change h2 with (pf2, h2).2. rewrite <- E2.
  destruct (Line_attach1 ci _ _) as [pf1 h1] eqn:E1.
  rewrite Line_attach1_arrays. change h1 with (pf1, h1).2. rewrite <- E1.
  apply Line_attach1_arrays.
Qed.

Lemma foldl_Line_attach_env ci co sh l :
  Env (foldl (Line_attach ci co) sh l).1 = Env sh.1
  /\ arrays (foldl (Line_attach ci co) sh l).2 = arrays sh.2.
Proof.
  revert sh. induction l as [|fi l IH]; intros sh; [done|]. cbn [foldl].
  destruct (IH (Line_attach ci co sh fi)) as [-> ->]. apply Line_attach_env.
Qed.

Lemma Line_closeIn_arrays r h : arrays (Line_closeIn r h).2 = arrays h.
Proof. by destruct r. Qed.

Lemma Line_junction_env last o s h :
  Env (Line_junction last o s h).1.2 = Env s
  /\ arrays (Line_junction last o s h).2 = arrays h.
Proof. by destruct last. Qed.

Lemma Line_loop_in_scope m0 o r ps s h s' h' res :
  Forall env_local ps -> Line_loop o r ps s h = (s', h', res) ->
  in_scope m0 (Env s) (arrays h) -> in_scope m0 (Env s') (arrays h').
Proof.
  intros Hps. revert r s h. induction Hps as [|p ps Hp Hps IH]; intros r s h.
  - by intros [= <- <- <-].
  - cbn [Line_loop].
    pose proof (Line_closeIn_arrays r h) as Hci.
    destruct (Line_closeIn r h) as [closeIn h1].
    pose proof (Line_junction_env (match ps with [] => true | _ => false end) o s h1)
      as [Hje Hja].
    destruct (Line_junction _ o s h1) as [[[r' closeOut] s2] h2].
    simpl in Hci, Hje, Hja.
    destruct (p s2 h2) as [[s3 h3] err] eqn:E. intros Hloop Hin.
    assert (in_scope m0 (Env s3) (arrays h3)) as Hin3.
    { eapply env_local_in_scope; [done..|]. by rewrite Hje, Hja, Hci. }
    destruct err as [e|].
    + pose proof (Close_arrays closeIn h3) as Hc.
      destruct (Close closeIn h3) as [h4 ?]. simpl in Hc.
      injection Hloop as <- <- <-. by rewrite Hc.
    + pose proof (foldl_Line_attach_env closeIn closeOut (s3, h3)
                    (seq (length (pendingFlushes s2))
                         (length (pendingFlushes s3) - length (pendingFlushes s2))))
        as [Hfe Hfa].
      destruct (foldl _ _ _) as [s4 h4]. simpl in Hfe, Hfa.
      pose proof (Close_arrays closeIn h4) as Hc5.
      destruct (Close closeIn h4) as [h5 ?]. simpl in Hc5.
      pose proof (Close_arrays closeOut h5) as Hc6.
      destruct (Close closeOut h5) as [h6 ?]. simpl in Hc6.
      eapply IH; [exact Hloop|].
      replace (Env (Line_next_Stdin r' s4)) with (Env s4) by (by destruct r').
      by rewrite Hc6, Hc5, Hfa, Hfe.
Qed.

Section scopes.
Context `{GoRuntime}.

Lemma env_local_same_env (p : Pipe) :
  (forall s h, Env (p s h).1.1 = Env s /\ arrays (p s h).1.2 = arrays h) ->
  env_local p.
Proof.
  intros Hp s h s' h' r E Hok. destruct (Hp s h) as [He Ha].
  rewrite E in He, Ha. simpl in He, Ha. rewrite He, Ha.
  split; [done|]. split; [apply arrays_ext_refl|]. split; [done|by left].
Qed.

Lemma ChDir_env_local dir : env_local (ChDir dir).
Proof. by apply env_local_same_env. Qed.

Lemma MkDir_env_local dir perm : env_local (MkDir dir perm).
Proof. by apply env_local_same_env. Qed.

Lemma CombineToErr_env_local : env_local CombineToErr.
Proof. by apply env_local_same_env. Qed.

Lemma CombineToOut_env_local : env_local CombineToOut.
Proof. by apply env_local_same_env. Qed.

Lemma SetEnvVar_env_local name value : env_local (SetEnvVar name value).
Proof.
  intros s h s' h' r. unfold SetEnvVar.
  destruct (SetEnvVar_method name value s h) as [s1 h1] eqn:E.
  intros [= <- <- <-] Hok.
  destruct (SetEnvVar_method_elems _ _ _ _ _ _ Hok E) as [_ Hok'].
  split; [done|]. revert E. unfold SetEnvVar_method.
  destruct (SetEnvVar_find _ _ 0) as [i|].
  - intros [= <- <-]. simpl. split; [apply slice_store_ext|].
    split; [|by left]. intros a _ Hne. by apply slice_store_frame.
  - destruct (append _ _ _) as [m e] eqn:Ha. intros [= <- <-]. simpl.
    split; [exact (append_ext _ _ _ _ _ Hok Ha)|]. split.
    + intros a Hlt Hne. by eapply append_frame.
    + destruct (append_ptr _ _ _ _ _ Ha) as [->|Hp]; [by left|].
      right; right. eexists. split; [done|lia].
Qed.

Lemma AddFlusher_env_local f :
  env_local (fun s h => AddFlusher f s h).
Proof.
  intros s h s' h' r. unfold AddFlusher.
  destruct (append _ _ _) as [m e] eqn:Ha. intros [= <- <- <-] Hok. simpl.
  destruct (clone_spec _ _ _ _ Hok Ha) as (_ & _ & Hext & Hsame & _).
  split; [by eapply slice_ok_ext|]. split; [done|].
  split; [|by left]. intros a Hlt _. by apply Hsame.
Qed.

Lemma Exec_env_local name args : env_local (Exec name args).
Proof.
  intros s h s' h' r E. apply (AddFlusher_env_local (execFlusher name args) s h s' h' None).
  unfold Exec in E. destruct (AddFlusher _ s h) as [[s1 h1] r1] eqn:E1.
  injection E as <- <- <-. unfold AddFlusher in *.
  destruct (append _ _ _). by injection E1 as <- <- <-.
Qed.

Lemma FlushFunc_env_local f : env_local (FlushFunc f).
Proof.
  intros s h s' h' r E. apply (AddFlusher_env_local (flushFunc f) s h s' h' None).
  unfold FlushFunc in E. destruct (AddFlusher _ s h) as [[s1 h1] r1] eqn:E1.
  injection E as <- <- <-. unfold AddFlusher in *.
  destruct (append _ _ _). by injection E1 as <- <- <-.
Qed.

(** What a scope ([Script] or [Line]) built around a loop that stays in
    scope guarantees: the saved header is put back, its elements are the
    ones it had, and no array that existed at the entry has changed. *)
Lemma scope_restore (loop : State -> Heap -> State * Heap * option error)
    (s : State) (h : Heap) :
  (forall s0 h0 s' h' r, loop s0 h0 = (s', h', r) ->
     in_scope (arrays h) (Env s0) (arrays h0) ->
     in_scope (arrays h) (Env s') (arrays h')) ->
  slice_ok (arrays h) (Env s) ->
  forall m e s1 h1 r,
    append (arrays h) nil_slice (elems (arrays h) (Env s)) = (m, e) ->
    loop (set_Env e s) (set_arrays m h) = (s1, h1, r) ->
    elems (arrays h1) (Env s) = elems (arrays h) (Env s)
    /\ slice_ok (arrays h1) (Env s)
    /\ arrays_ext (arrays h) (arrays h1)
    /\ (forall a, a < length (arrays h) -> arrays h1 !! a = arrays h !! a).
Proof.
  intros Hloop Hok m e s1 h1 r Ha E.
  destruct (clone_spec _ _ _ _ Hok Ha) as (_ & Hoke & Hext & Hsame & Hptr).
  assert (in_scope (arrays h) (Env s1) (arrays h1)) as Hin.
  { eapply Hloop; [exact E|]. simpl. split; [done|]. split; [done|].
    split; [done|]. destruct Hptr as [->| ->]; [by left|]. right. eauto. }
  destruct (in_scope_restore _ _ _ _ Hin Hok) as [Hel Hok1].
  destruct Hin as (_ & Hext1 & Hsame1 & _). done.
Qed.

Lemma Script_scope ps s h s' h' r :
  Forall env_local ps -> slice_ok (arrays h) (Env s) ->
  Script ps s h = (s', h', r) ->
  elems (arrays h') (Env s) = elems (arrays h) (Env s)
  /\ slice_ok (arrays h') (Env s)
  /\ arrays_ext (arrays h) (arrays h')
  /\ (forall a, a < length (arrays h) -> arrays h' !! a = arrays h !! a).
Proof.
  intros Hps Hok. unfold Script; unfold enter_scope.
  destruct (append _ _ _) as [m e] eqn:Ha.
  destruct (Script_loop _ ps _ _) as [[s1 h1] r1] eqn:E. intros [= <- <- <-].
  eapply (scope_restore (Script_loop (length (pendingFlushes s)) ps)); [|done..].
  intros. by eapply Script_loop_in_scope.
Qed.

Lemma Line_scope ps s h s' h' r :
  Forall env_local ps -> slice_ok (arrays h) (Env s) ->
  Line ps s h = (s', h', r) ->
  elems (arrays h') (Env s) = elems (arrays h) (Env s)
  /\ slice_ok (arrays h') (Env s)
  /\ arrays_ext (arrays h) (arrays h')
  /\ (forall a, a < length (arrays h) -> arrays h' !! a = arrays h !! a).
Proof.
  intros Hps Hok. unfold Line; unfold enter_scope.
  destruct (append _ _ _) as [m e] eqn:Ha.
  destruct (Line_loop _ None ps _ _) as [[s1 h1] r1] eqn:E. intros [= <- <- <-].
  eapply (scope_restore (Line_loop (Stdout (set_Env e s)) None ps)); [|done..].
  intros. by eapply Line_loop_in_scope.
Qed.

Lemma Script_restores ps s h :
  Dir (Script ps s h).1.1 = Dir s /\ Env (Script ps s h).1.1 = Env s.
Proof.
  unfold Script; unfold enter_scope. destruct (append _ _ _) as [m e].
  by destruct (Script_loop _ ps _ _) as [[s1 h1] r1].
Qed.

Lemma Line_restores ps s h :
  Dir (Line ps s h).1.1 = Dir s /\ Env (Line ps s h).1.1 = Env s.
Proof.
  unfold Line; unfold enter_scope. destruct (append _ _ _) as [m e].
  by destruct (Line_loop _ None ps _ _) as [[s1 h1] r1].
Qed.

(** [Script] and [Line] of stages that keep to their environment keep to
    theirs: they can be nested. *)
Lemma Script_env_local ps : Forall env_local ps -> env_local (Script ps).
Proof.
  intros Hps s h s' h' r E Hok.
  destruct (Script_scope _ _ _ _ _ _ Hps Hok E) as (_ & Hok' & Hext & Hsame).
  destruct (Script_restores ps s h) as [_ He]. rewrite E in He. simpl in He.
  rewrite He. split; [done|]. split; [done|]. split; [|by left].
  intros a Hlt _. by apply Hsame.
Qed.

Lemma Line_env_local ps : Forall env_local ps -> env_local (Line ps).
Proof.
  intros Hps s h s' h' r E Hok.
  destruct (Line_scope _ _ _ _ _ _ Hps Hok E) as (_ & Hok' & Hext & Hsame).
  destruct (Line_restores ps s h) as [_ He]. rewrite E in He. simpl in He.
  rewrite He. split; [done|]. split; [done|]. split; [|by left].
  intros a Hlt _. by apply Hsame.
Qed.
End scopes.

Lemma example_stages_env_local : Forall env_local example_stages.
Proof.
  unfold example_stages.
  apply Forall_cons_2; [apply SetEnvVar_env_local|].
  apply Forall_cons_2; [apply ChDir_env_local|].
  apply Forall_cons_2; [apply FlushFunc_env_local|].
  apply Forall_cons_2; [apply SetEnvVar_env_local|].
  apply Forall_cons_2; [apply MkDir_env_local|].
  apply Forall_nil_2.
Qed.

(** C5.  After [Script(...)] or [Line(...)] has returned, with nil or with an
    error, [s.Dir] and the slice header [s.Env] are the ones of the entry,
    whatever the stages are; and when the stages reach the environment only
    through the State they are given, the elements of [s.Env] are the ones
    of the entry too. *)
Theorem Script_Line_restore_scope `{GoRuntime} (ps : list Pipe) (s : State) (h : Heap) :
  (Dir (Script ps s h).1.1 = Dir s /\ Env (Script ps s h).1.1 = Env s
   /\ Dir (Line ps s h).1.1 = Dir s /\ Env (Line ps s h).1.1 = Env s)
  /\ (Forall env_local ps -> slice_ok (arrays h) (Env s) ->
      elems (arrays (Script ps s h).1.2) (Env (Script ps s h).1.1)
      = elems (arrays h) (Env s)
      /\ elems (arrays (Line ps s h).1.2) (Env (Line ps s h).1.1)
         = elems (arrays h) (Env s)).
Proof.
  destruct (Script_restores ps s h) as [Hsd Hse].
  destruct (Line_restores ps s h) as [Hld Hle].
  split; [done|]. intros Hps Hok. rewrite Hse, Hle. split.
  - destruct (Script ps s h) as [[s' h'] r] eqn:E.
    by destruct (Script_scope _ _ _ _ _ _ Hps Hok E) as [? _].
  - destruct (Line ps s h) as [[s' h'] r] eqn:E.
    by destruct (Line_scope _ _ _ _ _ _ Hps Hok E) as [? _].
Qed.

Lemma Script_Line_restore_scope_witness :
  (Script (H:=example_runtime) example_stages example_state example_heap).2
  = Some "mkdir: file exists"
  /\ elems (arrays (Script (H:=example_runtime) example_stages
                      example_state example_heap).1.2)
           (Env (Script (H:=example_runtime) example_stages
                   example_state example_heap).1.1) = ["A=1"; "B=2"]
  /\ elems (arrays (Line (H:=example_runtime) example_stages
                      example_state example_heap).1.2)
           (Env (Line (H:=example_runtime) example_stages
                   example_state example_heap).1.1) = ["A=1"; "B=2"].
Proof.
  split; [reflexivity|].
  exact (proj2 (Script_Line_restore_scope (H:=example_runtime) example_stages
                  example_state example_heap)
               example_stages_env_local example_state_ok).
Defined.

(** ** FlushAll: Kill and the first error *)

Lemma exit_errs_insert_other gs i g g' :
  gs !! i = Some g -> is_exit g = false -> is_exit g' = false ->
  exit_errs (<[i := g']> gs) = exit_errs gs.
Proof.
  revert i. induction gs as [|g0 gs IH]; intros [|i]; simpl; try done.
  - intros [= ->] Hg Hg'. by destruct g, g'.
  - intros Hi Hg Hg'. by rewrite (IH i Hi Hg Hg').
Qed.

Lemma exit_errs_insert_exit gs i g err :
  gs !! i = Some g -> is_exit g = false ->
  exit_errs (<[i := GExit err]> gs) ≡ₚ err :: exit_errs gs.
Proof.
  revert i. induction gs as [|g0 gs IH]; intros [|i]; simpl; try done.
  - intros [= ->] Hg. by destruct g.
  - intros Hi Hg. specialize (IH i Hi Hg). destruct g0; try done.
    rewrite IH. apply Permutation_swap.
Qed.

Lemma exit_errs_replicate n : exit_errs (replicate n GWait) = [].
Proof. induction n as [|n IH]; simpl; [done|]. exact IH. Qed.

Lemma exit_errs_length gs : length (exit_errs gs) <= length gs.
Proof. induction gs as [|g gs IH]; simpl; [done|]. destruct g; simpl; lia. Qed.

Lemma exit_errs_all gs i :
  length (exit_errs gs) = length gs -> i < length gs ->
  exists err, gs !! i = Some (GExit err).
Proof.
  revert i. induction gs as [|g gs IH]; intros i; simpl; [lia|].
  pose proof (exit_errs_length gs) as Hle.
  destruct g; simpl; intros Hlen Hi; try lia.
  destruct i as [|i]; [by eexists|]. simpl. apply IH; lia.
Qed.

Lemma exit_errs_lookup gs i err :
  gs !! i = Some (GExit err) -> err ∈ exit_errs gs.
Proof.
  revert i. induction gs as [|g gs IH]; intros [|i]; simpl; try done.
  - intros [= ->]. apply list_elem_of_here.
  - intros Hi. specialize (IH i Hi). destruct g; try done.
    by apply list_elem_of_further.
Qed.

Lemma first_error_app errs errs' :
  first_error (errs ++ errs')
  = match first_error errs with Some e => Some e | None => first_error errs' end.
Proof. induction errs as [|[e|] errs IH]; simpl; done. Qed.

Lemma first_error_None errs :
  first_error errs = None <-> (forall err, err ∈ errs -> err = None).
Proof.
  induction errs as [|[e|] errs IH]; simpl.
  - split; [|done]. intros _ err Hin. by apply elem_of_nil in Hin.
  - split; [done|]. intros Hall. by apply (Hall (Some e)), list_elem_of_here.
  - rewrite IH. split.
    + intros Hall err [->|Hin]%elem_of_cons; [done|by apply Hall].
    + intros Hall err Hin. by apply Hall, list_elem_of_further.
Qed.

Lemma first_error_elem errs e : first_error errs = Some e -> Some e ∈ errs.
Proof.
  induction errs as [|[e'|] errs IH]; simpl; [done| |].
  - intros [= ->]. apply list_elem_of_here.
  - intros He. by apply list_elem_of_further, IH.
Qed.

Lemma flush_inv_init reg h : flush_inv (length reg) (FlushAll_init reg h).
Proof.
  split; [simpl; by rewrite length_replicate|]. split; [done|]. split.
  - simpl. by rewrite exit_errs_replicate.
  - exists 0. split; [lia|done].
Qed.

Lemma step_main_inv n c c' : step_main c = Some c' -> flush_inv n c -> flush_inv n c'.
Proof.
  unfold step_main. intros Hstep (Hlen & Hmain & Hchan & j & Hj & Hkills).
  unfold main_ok in Hmain. destruct (c_main c) as [[|m] first|m first k|first|] eqn:Em;
    try done.
  - injection Hstep as <-. destruct Hmain as (Hm & Hf & Hreg & Hk).
    split; [done|]. split; [|split; [done|by exists j]].
    unfold main_ok. simpl. split; [lia|done].
  - destruct (c_chan c) as [|err chan] eqn:Ec; [done|]. injection Hstep as <-.
    destruct Hmain as (Hm & Hf & Hreg & Hk).
    split; [done|]. split; [|split; [|by exists j]].
    + unfold main_ok. simpl. rewrite length_app, first_error_app. simpl.
      destruct err as [e|], first as [e'|]; simpl; rewrite <- Hf; simpl;
        repeat split; try done; try lia; eauto.
    + simpl. by rewrite <- app_assoc.
  - destruct Hmain as (Hm & Hf & Hsome & Hreg & Hk & Hle).
    destruct (c_registry c !! k) as [pf|] eqn:Er; injection Hstep as <-.
    + rewrite Hreg in Er. apply lookup_seq in Er as [-> Hlt]. simpl in *.
      split; [done|]. split; [|split; [done|]].
      * unfold main_ok. cbn [c_main c_recv c_registry c_kills].
        rewrite Hk, seq_S. repeat split; try done; lia.
      * exists (S k). split; [lia|]. cbn [c_kills]. by rewrite Hk, seq_S.
    + rewrite Hreg in Er. apply lookup_ge_None in Er. rewrite length_seq in Er.
      assert (k = n) as -> by lia.
      split; [done|]. split; [|split; [done|by exists j]].
      unfold main_ok. simpl. destruct Hsome as [e ->]. done.
Qed.

Lemma flush_inv_set_gs n c gs :
  flush_inv n c -> length gs = length (c_gs c) -> exit_errs gs = exit_errs (c_gs c) ->
  flush_inv n (set_gs gs c).
Proof.
  intros (Hlen & Hmain & Hchan & Hk) Hl He.
  split; [simpl; lia|]. split; [done|]. split; [|done]. simpl. by rewrite He.
Qed.

Lemma step_inv n a c c' : step a c = Some c' -> flush_inv n c -> flush_inv n c'.
Proof.
  unfold step. destruct (is_panic (c_main c)) eqn:Epanic; [done|].
  destruct a as [i|i err|i|i|]; [| | | |apply step_main_inv].
  - destruct (c_gs c !! i) as [[| | | |]|] eqn:Eg; try done.
    destruct (c_pfs c !! i) as [pf|]; [|done]. case_decide; [|done].
    intros [= <-] Hinv. apply flush_inv_set_gs; [done|by rewrite length_insert|].
    by eapply exit_errs_insert_other.
  - destruct (c_gs c !! i) as [[| | | |]|] eqn:Eg; try done.
    intros [= <-] Hinv. apply flush_inv_set_gs; [done|by rewrite length_insert|].
    by eapply exit_errs_insert_other.
  - destruct (c_gs c !! i) as [[| |err| |]|] eqn:Eg; try done.
    destruct (c_pfs c !! i) as [pf|]; [|done].
    destruct (pf_done pf (c_pfs c) (c_heap c)) as [[pfs|] h'];
      intros [= <-] (Hlen & Hmain & Hchan & Hk).
    + split; [simpl; by rewrite length_insert|]. split; [done|]. split; [|done].
      simpl. by erewrite exit_errs_insert_other.
    + split; [done|]. split; [done|]. split; done.
  - destruct (c_gs c !! i) as [[| | |err|]|] eqn:Eg; try done.
    intros [= <-] (Hlen & Hmain & Hchan & Hk).
    split; [simpl; by rewrite length_insert|]. split; [done|]. split; [|done].
    simpl. rewrite exit_errs_insert_exit by done.
    by rewrite app_assoc, <- Permutation_cons_append, Hchan.
Qed.

Lemma run_inv n acts c c' : run acts c = Some c' -> flush_inv n c -> flush_inv n c'.
Proof.
  revert c. induction acts as [|a acts IH]; intros c; simpl.
  - by intros [= <-].
  - destruct (step a c) as [c1|] eqn:E; [|done]. intros Hrun Hinv.
    eapply IH; [done|]. by eapply step_inv.
Qed.

(** C1.  At every moment of a [FlushAll] call no entry has had [Kill] called
    twice; and when [FlushAll] has returned, the goroutine of every entry has
    ended (its [Flush] has returned, [done] has run and its result is sent),
    [Kill] has been called exactly once on every entry, in registry order,
    if some [Flush] returned a non-nil error, and on no entry otherwise. *)
Theorem FlushAll_kills_every_entry_once (reg : list pendingFlush) (h : Heap)
    (acts : list action) (c : config) :
  run acts (FlushAll_init reg h) = Some c ->
  NoDup (c_kills c)
  /\ forall first, c_main c = MReturn first ->
       (forall i, i < length reg -> exists err, c_gs c !! i = Some (GExit err))
       /\ ((exists i e, c_gs c !! i = Some (GExit (Some e))) ->
           c_kills c = seq 0 (length reg))
       /\ ((forall i e, c_gs c !! i <> Some (GExit (Some e))) -> c_kills c = []).
Proof.
  intros Hrun.
  destruct (run_inv _ _ _ _ Hrun (flush_inv_init reg h))
    as (Hlen & Hmain & Hchan & j & Hj & Hkills).
  split; [rewrite Hkills; apply NoDup_seq|].
  intros first Em. unfold main_ok in Hmain. rewrite Em in Hmain.
  destruct Hmain as (Hrecv & Hfirst & Hreg & Hk).
  assert (length (exit_errs (c_gs c)) = length (c_gs c)) as Hall.
  { pose proof (exit_errs_length (c_gs c)) as Hle.
    apply Permutation_length in Hchan. rewrite length_app in Hchan. lia. }
  assert (c_chan c = []) as Hnil.
  { apply Permutation_length in Hchan. rewrite length_app in Hchan.
    apply length_zero_iff_nil. lia. }
  rewrite Hnil, app_nil_r in Hchan.
  split; [|split].
  - intros i Hi. apply exit_errs_all; [done|lia].
  - intros (i & e & Hi). apply exit_errs_lookup in Hi. rewrite <- Hchan in Hi.
    destruct first as [e'|]; [done|]. symmetry in Hfirst.
    rewrite first_error_None in Hfirst. by specialize (Hfirst _ Hi).
  - intros Hnone. destruct first as [e|]; [|done]. symmetry in Hfirst.
    apply first_error_elem in Hfirst. rewrite Hchan in Hfirst.
    clear -Hfirst Hnone. exfalso. induction (c_gs c) as [|g gs IH]; simpl in *.
    + by apply elem_of_nil in Hfirst.
    + assert (forall i e0, gs !! i <> Some (GExit (Some e0))) as Hgs.
      { intros i e0. apply (Hnone (S i) e0). }
      destruct g; try by apply IH.
      apply elem_of_cons in Hfirst as [<-|Hin]; [|by apply IH].
      by apply (Hnone 0 e).
Qed.

Lemma FlushAll_kills_every_entry_once_witness :
  c_main example_final = MReturn (Some "boom") /\ c_kills example_final = [0; 1; 2].
Proof.
  split; [reflexivity|].
  refine (proj1 (proj2 (proj2 (FlushAll_kills_every_entry_once example_registry
                   example_script.1.2 example_schedule example_final _) _ eq_refl)) _).
  - vm_compute. reflexivity.
  - exists 0, "boom". reflexivity.
Defined.

(** ** FlushAll: wait dependencies *)

Lemma count_app i l l' : count i (l ++ l') = count i l + count i l'.
Proof. induction l as [|x l IH]; simpl; [done|]. rewrite IH. lia. Qed.

Lemma count_0 i l : i ∉ l -> count i l = 0.
Proof.
  induction l as [|x l IH]; simpl; [done|]. intros Hn.
  apply not_elem_of_cons in Hn as [Hne Hn]. rewrite (IH Hn).
  case_decide; [congruence|done].
Qed.

Lemma count_pos i l : i ∈ l -> 0 < count i l.
Proof.
  induction l as [|x l IH]; simpl.
  - intros Hin. by apply elem_of_nil in Hin.
  - intros [->|Hin]%elem_of_cons; [case_decide; [lia|done]|].
    specialize (IH Hin). lia.
Qed.

Lemma owed_replicate i pfs : owed i (replicate (length pfs) GWait) pfs = waits i pfs.
Proof. induction pfs as [|pf pfs IH]; simpl; [done|]. by rewrite IH. Qed.

Lemma owed_insert_same i gs pfs j g g' :
  gs !! j = Some g -> signalled g' = signalled g ->
  owed i (<[j := g']> gs) pfs = owed i gs pfs.
Proof.
  revert j pfs. induction gs as [|g0 gs IH]; intros [|j] [|pf pfs]; simpl; try done.
  - intros [= ->] ->. done.
  - intros Hj Hs. by rewrite (IH j pfs Hj Hs).
Qed.

Lemma owed_insert_signal i gs pfs j g g' pf :
  gs !! j = Some g -> pfs !! j = Some pf ->
  signalled g = false -> signalled g' = true ->
  owed i (<[j := g']> gs) pfs + count i (pf_wf pf) = owed i gs pfs.
Proof.
  revert j pfs. induction gs as [|g0 gs IH]; intros [|j] [|pf0 pfs]; simpl; try done.
  - intros [= ->] [= ->] -> ->. lia.
  - intros Hj Hp Hs Hs'. specialize (IH j pfs Hj Hp Hs Hs'). lia.
Qed.

Lemma owed_wf i gs pfs pfs' :
  pf_wf <$> pfs' = pf_wf <$> pfs -> owed i gs pfs' = owed i gs pfs.
Proof.
  revert pfs pfs'. induction gs as [|g gs IH]; intros [|pf pfs] [|pf' pfs'];
    simpl; try done.
  intros [= Hwf Hrest]. by rewrite Hwf, (IH _ _ Hrest).
Qed.

(** The signals [pf.done()] sends: when no counter is exhausted by them,
    [Done] does not panic, every counter goes down by the number of
    occurrences of its entry, and nothing else changes. *)
Lemma wg_Done_fold (l : list nat) (pfs : list pendingFlush) :
  (forall i pf, pfs !! i = Some pf -> count i l <= pf_wg pf) ->
  exists pfs',
    foldl wg_Done (Some pfs) l = Some pfs'
    /\ pf_wf <$> pfs' = pf_wf <$> pfs
    /\ length pfs' = length pfs
    /\ forall i pf, pfs !! i = Some pf ->
         exists pf', pfs' !! i = Some pf' /\ pf_wg pf' + count i l = pf_wg pf.
Proof.
  revert pfs. induction l as [|x l IH]; intros pfs Hle.
  - exists pfs. repeat split; try done. intros i pf Hi. exists pf. simpl. split; [done|lia].
  - cbn [foldl]. unfold wg_Done at 2.
    destruct (pfs !! x) as [pfx|] eqn:Ex.
    + pose proof (Hle x pfx Ex) as Hx. cbn [count] in Hx. rewrite decide_True in Hx by done.
      destruct (pf_wg pfx) as [|n] eqn:En; [lia|].
      set (pfx' := mkPendingFlush (pf_s pfx) (pf_f pfx) (pf_c pfx) n (pf_wf pfx)).
      destruct (IH (<[x := pfx']> pfs)) as (pfs' & Hf & Hwf & Hlen & Hwg).
      { intros i pf. rewrite list_lookup_insert by (by eapply lookup_lt_Some).
        case_decide as Hxi.
        - destruct Hxi as [-> _]. intros [= <-]. unfold pfx'. cbn [pf_wg]. lia.
        - intros Hi. specialize (Hle i pf Hi). cbn [count] in Hle.
          destruct (decide (x = i)) as [->|Hne].
          + apply lookup_lt_Some in Ex. lia.
          + lia. }
      exists pfs'. split; [done|]. split.
      { rewrite Hwf, list_fmap_insert. apply list_insert_id.
        by rewrite list_lookup_fmap, Ex. }
      split; [by rewrite Hlen, length_insert|].
      intros i pf Hi. destruct (decide (x = i)) as [->|Hne].
      * destruct (Hwg i pfx') as (pf' & Hpf' & Hc).
        { apply list_lookup_insert_eq. by eapply lookup_lt_Some. }
        exists pf'. split; [done|]. cbn [count]. rewrite decide_True by done.
        assert (pf = pfx) as -> by congruence. unfold pfx' in Hc. cbn [pf_wg] in Hc. lia.
      * destruct (Hwg i pf) as (pf' & Hpf' & Hc).
        { by rewrite list_lookup_insert_ne. }
        exists pf'. split; [done|]. cbn [count]. rewrite decide_False by done. lia.
    + destruct (IH pfs) as (pfs' & Hf & Hwf & Hlen & Hwg).
      { intros i pf Hi. specialize (Hle i pf Hi). cbn [count] in Hle. lia. }
      exists pfs'. repeat split; try done.
      intros i pf Hi. destruct (Hwg i pf Hi) as (pf' & Hpf' & Hc).
      exists pf'. split; [done|]. cbn [count].
      rewrite decide_False; [lia|]. intros ->. congruence.
Qed.

Lemma owed_bound i gs pfs j g pf :
  gs !! j = Some g -> pfs !! j = Some pf -> signalled g = false ->
  count i (pf_wf pf) <= owed i gs pfs.
Proof.
  revert j pfs. induction gs as [|g0 gs IH]; intros [|j] [|pf0 pfs]; simpl; try done.
  - intros [= ->] [= ->] ->. lia.
  - intros Hj Hp Hs. specialize (IH j pfs Hj Hp Hs). lia.
Qed.

Lemma wait_inv_init reg h :
  (forall i pf, reg !! i = Some pf -> waits i reg <= pf_wg pf) ->
  wait_inv reg (FlushAll_init reg h).
Proof.
  intros Hle. split; [done|]. split; [simpl; by rewrite length_replicate|].
  split; [done|]. split.
  - simpl. intros i pf Hi. rewrite owed_replicate. by apply Hle.
  - simpl. intros i j g pf [-> _]%lookup_replicate. done.
Qed.

Lemma step_main_wait reg c c' : step_main c = Some c' -> wait_inv reg c -> wait_inv reg c'.
Proof.
  unfold step_main. intros Hstep (Hp & Hlen & Hwf & Hw & Hd).
  destruct (c_main c) as [[|m] first|m first k|first|]; try done.
  - by injection Hstep as <-.
  - destruct (c_chan c) as [|err chan]; [done|]. injection Hstep as <-.
    split; [|done]. simpl. by destruct err, first.
  - by destruct (c_registry c !! k); injection Hstep as <-.
Qed.

(** A goroutine moves on without running [pf.done()] and without leaving
    [pf.wait()]. *)
Lemma wait_inv_set_gs reg c i g g' :
  wait_inv reg c -> c_gs c !! i = Some g ->
  signalled g' = signalled g -> g <> GWait ->
  wait_inv reg (set_gs (<[i := g']> (c_gs c)) c).
Proof.
  intros (Hp & Hlen & Hwf & Hw & Hd) Hi Hs Hg.
  split; [done|]. split; [simpl; by rewrite length_insert|]. split; [done|]. split.
  - simpl. intros i' pf Hi'. erewrite owed_insert_same by done. by apply Hw.
  - simpl. intros i' j g0 pf Hi' Hg0 Hj Hin.
    assert (exists g1, c_gs c !! i' = Some g1 /\ g1 <> GWait) as (g1 & Hg1 & Hne).
    { destruct (decide (i = i')) as [<-|Hne]; [by exists g|].
      rewrite list_lookup_insert_ne in Hi' by done. by exists g0. }
    destruct (Hd i' j g1 pf Hg1 Hne Hj Hin) as (g2 & Hg2 & Hs2).
    destruct (decide (i = j)) as [<-|Hne'].
    + exists g'. split; [|congruence].
      apply list_lookup_insert_eq. by eapply lookup_lt_Some.
    + exists g2. by rewrite list_lookup_insert_ne.
Qed.

Lemma step_wait reg a c c' : step a c = Some c' -> wait_inv reg c -> wait_inv reg c'.
Proof.
  unfold step. destruct (is_panic (c_main c)) eqn:Epanic; [done|].
  destruct a as [i|i err|i|i|]; [| | | |apply step_main_wait].
  - destruct (c_gs c !! i) as [[| | | |]|] eqn:Eg; try done.
    destruct (c_pfs c !! i) as [pfi|] eqn:Ep; [|done]. case_decide as Hz; [|done].
    intros [= <-] (Hp & Hlen & Hwf & Hw & Hd).
    split; [done|]. split; [simpl; by rewrite length_insert|]. split; [done|]. split.
    + simpl. intros i' pf Hi'. erewrite owed_insert_same by done. by apply Hw.
    + simpl. intros i' j g0 pf Hi' Hg0 Hj Hin.
      assert (exists g2, c_gs c !! j = Some g2 /\ signalled g2 = true) as (g2 & Hg2 & Hs2).
      { destruct (decide (i = i')) as [<-|Hne].
        - destruct (lookup_lt_is_Some_2 (c_gs c) j) as [g2 Hg2].
          { rewrite Hlen. by eapply lookup_lt_Some. }
          exists g2. split; [done|]. destruct (signalled g2) eqn:Hs2; [done|].
          pose proof (owed_bound i _ _ _ _ _ Hg2 Hj Hs2) as Hb.
          pose proof (Hw i pfi Ep) as Hw'. pose proof (count_pos _ _ Hin). lia.
        - rewrite list_lookup_insert_ne in Hi' by done. by eapply Hd. }
      exists g2. split; [|done]. rewrite list_lookup_insert_ne; [done|].
      intros <-. rewrite Eg in Hg2. by injection Hg2 as <-.
  - destruct (c_gs c !! i) as [[| | | |]|] eqn:Eg; try done.
    intros [= <-] Hinv. by eapply wait_inv_set_gs.
  - destruct (c_gs c !! i) as [[| |err| |]|] eqn:Eg; try done.
    destruct (c_pfs c !! i) as [pfi|] eqn:Ep; [|done].
    intros Hstep (Hp & Hlen & Hwf & Hw & Hd). unfold pf_done in Hstep.
    destruct (wg_Done_fold (pf_wf pfi) (c_pfs c)) as (pfs' & Hf & Hwf' & Hlen' & Hwg).
    { intros i' pf Hi'. etransitivity; [|by apply Hw]. by eapply owed_bound. }
    rewrite Hf in Hstep. injection Hstep as <-.
    split; [done|]. split; [simpl; rewrite length_insert; lia|].
    split; [simpl; congruence|]. split.
    + simpl. intros i' pf' Hi'.
      destruct (lookup_lt_is_Some_2 (c_pfs c) i') as [pf Hpf].
      { rewrite <- Hlen'. by eapply lookup_lt_Some. }
      destruct (Hwg i' pf Hpf) as (pf'' & Hpf'' & Hc).
      assert (pf'' = pf') as -> by congruence.
      rewrite (owed_wf _ _ _ _ Hwf').
      pose proof (owed_insert_signal i' _ _ _ _ (GSend err) _ Eg Ep eq_refl eq_refl).
      specialize (Hw i' pf Hpf). lia.
    + simpl. intros i' j g0 pf' Hi' Hg0 Hj Hin.
      destruct (lookup_lt_is_Some_2 (c_pfs c) j) as [pf Hpf].
      { rewrite <- Hlen'. by eapply lookup_lt_Some. }
      assert (pf_wf pf' = pf_wf pf) as Hsame.
      { apply (f_equal (fun l => l !! j)) in Hwf'.
        rewrite !list_lookup_fmap, Hj, Hpf in Hwf'. by injection Hwf'. }
      rewrite Hsame in Hin.
      destruct (decide (i = j)) as [<-|Hne].
      { exists (GSend err). split; [|done].
        apply list_lookup_insert_eq. by eapply lookup_lt_Some. }
      assert (exists g1, c_gs c !! i' = Some g1 /\ g1 <> GWait) as (g1 & Hg1 & Hne1).
      { destruct (decide (i = i')) as [<-|Hne']; [by eexists|].
        rewrite list_lookup_insert_ne in Hi' by done. by exists g0. }
      destruct (Hd i' j g1 pf Hg1 Hne1 Hpf Hin) as (g2 & Hg2 & Hs2).
      exists g2. by rewrite list_lookup_insert_ne.
  - destruct (c_gs c !! i) as [[| | |err|]|] eqn:Eg; try done.
    intros [= <-] Hinv.
    change (wait_inv reg (mkConfig (c_registry c) (c_pfs c) (c_heap c)
              (c_gs (set_gs (<[i:=GExit err]> (c_gs c)) c)) (c_chan c ++ [err])
              (c_main c) (c_kills c) (c_recv c))).
    by pose proof (wait_inv_set_gs reg c i (GSend err) (GExit err) Hinv Eg eq_refl ltac:(done)).
Qed.

Lemma run_wait reg acts c c' : run acts c = Some c' -> wait_inv reg c -> wait_inv reg c'.
Proof.
  revert c. induction acts as [|a acts IH]; intros c; simpl.
  - by intros [= <-].
  - destruct (step a c) as [c1|] eqn:E; [|done]. intros Hrun Hinv.
    eapply IH; [done|]. by eapply step_wait.
Qed.

(** ** FlushAll: a schedule in which it returns *)

Lemma run_app acts acts' c :
  run (acts ++ acts') c = match run acts c with Some c' => run acts' c' | None => None end.
Proof.
  revert c. induction acts as [|a acts IH]; intros c; simpl; [done|].
  by destruct (step a c).
Qed.

Lemma goroutine_runs c i err pf pfs' :
  is_panic (c_main c) = false ->
  c_gs c !! i = Some GWait -> c_pfs c !! i = Some pf -> pf_wg pf = 0 ->
  foldl wg_Done (Some (c_pfs c)) (pf_wf pf) = Some pfs' ->
  run (goroutine_steps i err) c
  = Some (mkConfig (c_registry c) pfs' (pf_done pf (c_pfs c) (c_heap c)).2
            (<[i := GExit err]> (c_gs c)) (c_chan c ++ [err]) (c_main c)
            (c_kills c) (c_recv c)).
Proof.
  intros Hp Hg Hpf Hz Hdone. pose proof (lookup_lt_Some _ _ _ Hg) as Hlt.
  unfold goroutine_steps, run, step. simpl.
  rewrite Hp, Hg, Hpf. rewrite decide_True by done. simpl.
  rewrite Hp, list_lookup_insert_eq by done. simpl.
  rewrite Hp, list_lookup_insert_eq, Hpf by (by rewrite length_insert).
  unfold pf_done. rewrite Hdone. simpl.
  rewrite Hp, list_lookup_insert_eq by (by rewrite !length_insert).
  by rewrite !list_insert_insert_eq.
Qed.

Lemma owed_0 i gs pfs :
  (forall j g pf, gs !! j = Some g -> pfs !! j = Some pf -> signalled g = false ->
     i ∉ pf_wf pf) ->
  owed i gs pfs = 0.
Proof.
  revert pfs. induction gs as [|g gs IH]; intros [|pf pfs] Hno; simpl; try done.
  rewrite IH by (intros j; apply (Hno (S j))).
  destruct (signalled g) eqn:Hs; [done|].
  rewrite count_0; [done|]. by apply (Hno 0 g pf).
Qed.

(** The goroutines run one after the other, in registry order, when the
    entries before [k] have all run [pf.done()], every counter is exactly
    what its entry is still to receive, and [wf] lists point forward. *)
Lemma goroutines_run (errs : list (option error)) :
  forall (k : nat) (gdone : list gstate) (c : config),
    c_gs c = gdone ++ replicate (length errs) GWait ->
    length gdone = k ->
    Forall (fun g => signalled g = true) gdone ->
    is_panic (c_main c) = false ->
    length (c_pfs c) = k + length errs ->
    (forall i pf, c_pfs c !! i = Some pf -> pf_wg pf = owed i (c_gs c) (c_pfs c)) ->
    (forall j pf i, c_pfs c !! j = Some pf -> i ∈ pf_wf pf -> j < i) ->
    exists c',
      run (goroutines_from k errs) c = Some c'
      /\ c_gs c' = gdone ++ (GExit <$> errs)
      /\ c_chan c' = c_chan c ++ errs
      /\ c_main c' = c_main c /\ c_recv c' = c_recv c
      /\ c_registry c' = c_registry c /\ c_kills c' = c_kills c.
Proof.
  induction errs as [|err errs IH]; intros k gdone c Hgs Hk Hsig Hp Hlen Hw Hfwd.
  - exists c. simpl in *. rewrite !app_nil_r in *. done.
  - cbn [goroutines_from]. rewrite run_app.
    assert (c_gs c !! k = Some GWait) as Hgk.
    { rewrite Hgs, lookup_app_r by lia. by rewrite Hk, Nat.sub_diag. }
    destruct (lookup_lt_is_Some_2 (c_pfs c) k) as [pfk Hpk]; [simpl in Hlen; lia|].
    assert (pf_wg pfk = 0) as Hz.
    { rewrite (Hw _ _ Hpk). apply owed_0. intros j g pf Hj Hpj Hs Hin.
      specialize (Hfwd _ _ _ Hpj Hin).
      rewrite Hgs in Hj. rewrite lookup_app_l in Hj by lia.
      rewrite Forall_lookup in Hsig. specialize (Hsig _ _ Hj). congruence. }
    destruct (wg_Done_fold (pf_wf pfk) (c_pfs c)) as (pfs' & Hf & Hwf' & Hlen' & Hwg).
    { intros i pf Hi. rewrite (Hw _ _ Hi). by eapply owed_bound. }
    rewrite (goroutine_runs c k err pfk pfs' Hp Hgk Hpk Hz Hf).
    edestruct (IH (S k) (gdone ++ [GExit err])) as (c' & Hrun & Hgs' & Hchan' & Hrest);
      [| | | | | | |exists c'; split; [exact Hrun|]].
    + simpl. rewrite Hgs, <- Hk. rewrite insert_app_r_alt by lia.
      rewrite Nat.sub_diag. simpl. by rewrite <- app_assoc.
    + rewrite length_app. simpl. lia.
    + apply Forall_app. split; [done|]. by apply Forall_singleton.
    + done.
    + simpl in *. lia.
    + simpl. intros i pf' Hi.
      destruct (lookup_lt_is_Some_2 (c_pfs c) i) as [pf Hpf].
      { rewrite <- Hlen'. by eapply lookup_lt_Some. }
      destruct (Hwg i pf Hpf) as (pf'' & Hpf'' & Hc).
      assert (pf'' = pf') as -> by congruence.
      rewrite (owed_wf _ _ _ _ Hwf').
      pose proof (owed_insert_signal i _ _ _ _ (GExit err) _ Hgk Hpk eq_refl eq_refl).
      pose proof (Hw i pf Hpf). lia.
    + simpl. intros j pf' i Hj Hin.
      destruct (lookup_lt_is_Some_2 (c_pfs c) j) as [pf Hpf].
      { rewrite <- Hlen'. by eapply lookup_lt_Some. }
      assert (pf_wf pf' = pf_wf pf) as Hsame.
      { apply (f_equal (fun l => l !! j)) in Hwf'.
        rewrite !list_lookup_fmap, Hj, Hpf in Hwf'. by injection Hwf'. }
      rewrite Hsame in Hin. by eapply Hfwd.
    + destruct Hrest as (Hm & Hr & Hreg & Hkl). simpl in *.
      rewrite Hgs', Hchan', <- !app_assoc. done.
Qed.

(** The Kill loop runs to its end. *)
Lemma kill_loop_runs (n d : nat) :
  forall (c : config) (m : nat) (first : option error) (j : nat),
    c_main c = MKill m first j -> c_registry c = seq 0 n -> j + d = n ->
    run (replicate (S d) Main) c
    = Some (mkConfig (c_registry c) (c_pfs c) (c_heap c) (c_gs c) (c_chan c)
              (MRecv m first) (c_kills c ++ seq j d) (c_recv c)).
Proof.
  induction d as [|d IH]; intros c m first j Hm Hreg Hj.
  - simpl. unfold step, step_main. rewrite Hm. simpl.
    rewrite Hreg, lookup_seq_ge by lia. by rewrite app_nil_r.
  - change (replicate (S (S d)) Main) with (Main :: replicate (S d) Main).
    cbn [run]. unfold step at 1, step_main. rewrite Hm. cbn [is_panic].
    rewrite Hreg, lookup_seq_lt by lia. cbn [Nat.add].
    rewrite (IH _ m first (S j)); [|done|by simpl|lia]. cbn -[seq].
    by rewrite <- app_assoc.
Qed.

(** The receive loop takes every value of a full channel and returns. *)
Lemma receive_loop_runs (n : nat) (chan : list (option error)) :
  forall (c : config) (first : option error),
    c_main c = MRecv (length chan) first -> c_chan c = chan ->
    c_registry c = seq 0 n ->
    exists acts c',
      run acts c = Some c'
      /\ c_main c' = MReturn (match first with
                              | Some e => Some e
                              | None => first_error chan
                              end)
      /\ c_gs c' = c_gs c /\ c_registry c' = [].
Proof.
  induction chan as [|err chan IH]; intros c first Hm Hc Hreg.
  - exists [Main]. eexists. split; [|split; [|split]].
    + simpl. unfold step, step_main. rewrite Hm. simpl. reflexivity.
    + simpl. by destruct first.
    + done.
    + done.
  - simpl in Hm.
    destruct err as [e|]; [destruct first as [e'|]|].
    + edestruct (IH (mkConfig (c_registry c) (c_pfs c) (c_heap c) (c_gs c) chan
                       (MRecv (length chan) (Some e')) (c_kills c)
                       (c_recv c ++ [Some e])) (Some e'))
        as (acts & c' & Hrun & Hret & Hgs & Hr); [done..|].
      exists (Main :: acts), c'. split; [|done].
      simpl. unfold step, step_main. by rewrite Hm, Hc.
    + edestruct (IH (mkConfig (c_registry c) (c_pfs c) (c_heap c) (c_gs c) chan
                       (MRecv (length chan) (Some e)) (c_kills c ++ seq 0 n)
                       (c_recv c ++ [Some e])) (Some e))
        as (acts & c' & Hrun & Hret & Hgs & Hr); [done..|].
      exists (Main :: replicate (S n) Main ++ acts), c'. split; [|done].
      cbn [run]. unfold step at 1, step_main. rewrite Hm, Hc. cbn [is_panic].
      rewrite run_app.
      by rewrite (kill_loop_runs n n _ (length chan) (Some e) 0).
    + edestruct (IH (mkConfig (c_registry c) (c_pfs c) (c_heap c) (c_gs c) chan
                       (MRecv (length chan) first) (c_kills c)
                       (c_recv c ++ [None])) first)
        as (acts & c' & Hrun & Hret & Hgs & Hr); [done..|].
      exists (Main :: acts), c'. split; [|done].
      simpl. unfold step, step_main. rewrite Hm, Hc. by destruct first.
Qed.

(** Whatever the [Flush] calls return, there is a schedule in which
    [FlushAll] returns, for a registry whose wait dependencies are in order. *)
Lemma FlushAll_returns (reg : list pendingFlush) (h : Heap) (errs : list (option error)) :
  wait_ok reg -> length errs = length reg ->
  exists acts c,
    run acts (FlushAll_init reg h) = Some c
    /\ c_main c = MReturn (first_error errs)
    /\ c_gs c = GExit <$> errs
    /\ c_registry c = [].
Proof.
  intros [Hwg Hfwd] Hlen.
  destruct (goroutines_run errs 0 [] (FlushAll_init reg h))
    as (c1 & Hrun1 & Hgs1 & Hchan1 & Hm1 & _ & Hreg1 & _).
  - simpl. by rewrite Hlen.
  - done.
  - done.
  - done.
  - simpl. lia.
  - simpl. intros i pf Hi. rewrite <- Hlen, Hlen, owed_replicate. by apply Hwg.
  - simpl. intros j pf i Hj Hin. by destruct (Hfwd _ _ _ Hj Hin).
  - destruct (receive_loop_runs (length reg) errs c1 None)
      as (acts & c2 & Hrun2 & Hret & Hgs2 & Hreg2).
    + rewrite Hm1. simpl. by rewrite Hlen.
    + by rewrite Hchan1.
    + by rewrite Hreg1.
    + exists (goroutines_from 0 errs ++ acts), c2.
      rewrite run_app, Hrun1. split; [done|]. split; [done|].
      split; [by rewrite Hgs2, Hgs1|done].
Qed.

(** ** Script: the wait dependencies between stages *)

Lemma waitFor_lookup fi wi reg i :
  waitFor fi wi reg !! i = waitFor_entry fi wi i <$> reg !! i.
Proof.
  unfold waitFor, waitFor_entry. rewrite list_lookup_alter.
  destruct (decide (wi = i)) as [->|Hw]; rewrite list_lookup_alter;
    destruct (decide (fi = i)) as [->|Hf]; by destruct (reg !! i).
Qed.

Lemma foldl_lookup {X} (G : X -> list pendingFlush -> list pendingFlush)
    (g : X -> nat -> pendingFlush -> pendingFlush) xs reg i :
  (forall x reg, G x reg !! i = g x i <$> reg !! i) ->
  foldl (fun reg x => G x reg) reg xs !! i
  = (fun pf => foldl (fun pf x => g x i pf) pf xs) <$> reg !! i.
Proof.
  intros HG. revert reg. induction xs as [|x xs IH]; intros reg; simpl.
  - by destruct (reg !! i).
  - rewrite IH, HG. by destruct (reg !! i).
Qed.

Lemma Script_chain_lookup a b c reg i :
  Script_chain a b c reg !! i
  = chain_entry (seq b (c - b)) (seq a (b - a)) i <$> reg !! i.
Proof.
  unfold Script_chain, chain_entry.
  apply (foldl_lookup
           (fun fi reg => foldl (fun reg wi => waitFor fi wi reg) reg (seq a (b - a)))
           (fun fi i pf => foldl (fun pf wi => waitFor_entry fi wi i pf) pf (seq a (b - a)))).
  intros fi reg'.
  apply (foldl_lookup (fun wi reg => waitFor fi wi reg)
                      (fun wi i pf => waitFor_entry fi wi i pf)).
  intros wi reg''. apply waitFor_lookup.
Qed.

Lemma Script_chain_length a b c reg : length (Script_chain a b c reg) = length reg.
Proof.
  unfold Script_chain. generalize (seq b (c - b)). intros fis. revert reg.
  induction fis as [|fi fis IH]; intros reg; simpl; [done|]. rewrite IH.
  generalize (seq a (b - a)). intros wis. revert reg.
  induction wis as [|wi wis IH']; intros reg; simpl; [done|]. rewrite IH'.
  unfold waitFor. by rewrite !length_alter.
Qed.

(** The fields of an entry after the loops. *)
Lemma chain_entry_fields fis wis i pf :
  pf_s (chain_entry fis wis i pf) = pf_s pf
  /\ pf_f (chain_entry fis wis i pf) = pf_f pf
  /\ pf_c (chain_entry fis wis i pf) = pf_c pf
  /\ pf_wg (chain_entry fis wis i pf) = pf_wg pf + count i fis * length wis
  /\ pf_wf (chain_entry fis wis i pf)
     = pf_wf pf ++ flat_map (fun fi => replicate (count i wis) fi) fis.
Proof.
  unfold chain_entry. revert pf. induction fis as [|fi fis IH]; intros pf.
  - simpl. by rewrite app_nil_r, Nat.add_0_r.
  - cbn [foldl].
    set (pf1 := foldl (fun pf wi => waitFor_entry fi wi i pf) pf wis).
    assert (pf_s pf1 = pf_s pf /\ pf_f pf1 = pf_f pf /\ pf_c pf1 = pf_c pf
            /\ pf_wg pf1 = pf_wg pf + (if decide (fi = i) then length wis else 0)
            /\ pf_wf pf1 = pf_wf pf ++ replicate (count i wis) fi)
      as (H1 & H2 & H3 & H4 & H5).
    { unfold pf1. clear. revert pf. induction wis as [|wi wis IH]; intros pf.
      - simpl. rewrite app_nil_r. by case_decide; rewrite ?Nat.add_0_r.
      - cbn [foldl]. destruct (IH (waitFor_entry fi wi i pf)) as (-> & -> & -> & -> & ->).
        unfold waitFor_entry. cbn [count length].
        repeat case_decide; simpl; repeat split; try done; try lia;
          by rewrite <- app_assoc. }
    destruct (IH pf1) as (-> & -> & -> & -> & ->).
    rewrite H1, H2, H3, H4, H5. cbn [count flat_map].
    repeat split; try done; [|by rewrite <- app_assoc].
    case_decide; lia.
Qed.

Lemma count_seq i a n : count i (seq a n) = if decide (a <= i < a + n) then 1 else 0.
Proof.
  revert a. induction n as [|n IH]; intros a; simpl.
  - case_decide; [lia|done].
  - rewrite IH. repeat case_decide; lia.
Qed.

Lemma flat_map_replicate_0 (l : list nat) : flat_map (fun x => replicate 0 x) l = [].
Proof. induction l as [|x l IH]; simpl; [done|exact IH]. Qed.

(** An entry outside both ranges is not touched. *)
Lemma chain_entry_other a b c i pf :
  a <= b -> i < a \/ c <= i ->
  chain_entry (seq b (c - b)) (seq a (b - a)) i pf = pf.
Proof.
  intros Hab Hi.
  destruct (chain_entry_fields (seq b (c - b)) (seq a (b - a)) i pf)
    as (H1 & H2 & H3 & H4 & H5).
  rewrite count_seq, decide_False in H4 by lia.
  assert (flat_map (fun fi => replicate (count i (seq a (b - a))) fi) (seq b (c - b)) = [])
    as Hnil.
  { destruct (decide (c <= b)) as [Hcb|Hcb].
    - by replace (c - b) with 0 by lia.
    - rewrite count_seq, decide_False by lia. apply flat_map_replicate_0. }
  rewrite Hnil, app_nil_r in H5. simpl in H4. rewrite Nat.add_0_r in H4.
  destruct (chain_entry _ _ i pf), pf. simpl in *. congruence.
Qed.


Lemma chain_entry_wf fis wis i pf x :
  x ∈ pf_wf pf -> x ∈ pf_wf (chain_entry fis wis i pf).
Proof.
  intros Hin. destruct (chain_entry_fields fis wis i pf) as (_ & _ & _ & _ & ->).
  apply elem_of_app. by left.
Qed.

Lemma waits_alter_wg i fi reg : waits i (alter wg_Add fi reg) = waits i reg.
Proof.
  revert fi. induction reg as [|pf reg IH]; intros [|fi]; simpl; try done.
  f_equal. apply IH.
Qed.

Lemma waits_alter_wf i fi wi reg :
  wi < length reg ->
  waits i (alter (wf_append fi) wi reg)
  = waits i reg + (if decide (fi = i) then 1 else 0).
Proof.
  revert wi. induction reg as [|pf reg IH]; intros [|wi]; simpl; try lia.
  - intros _. rewrite count_app. simpl. lia.
  - intros Hlt. specialize (IH wi ltac:(lia)). unfold alter in IH. lia.
Qed.

Lemma waitFor_wait_ok fi wi reg :
  wait_ok reg -> wi < fi < length reg -> wait_ok (waitFor fi wi reg).
Proof.
  intros [Hwg Hfwd] Hlt.
  assert (length (waitFor fi wi reg) = length reg) as Hlen.
  { unfold waitFor. by rewrite !length_alter. }
  split.
  - intros i pf'. rewrite waitFor_lookup.
    destruct (reg !! i) as [pf|] eqn:Ei; [|done]. intros [= <-].
    unfold waitFor. rewrite waits_alter_wf by (rewrite length_alter; lia).
    rewrite waits_alter_wg, <- (Hwg i pf Ei).
    unfold waitFor_entry. by repeat case_decide; simpl; lia.
  - intros j pf' x. rewrite waitFor_lookup, Hlen.
    destruct (reg !! j) as [pf|] eqn:Ej; [|done]. intros [= <-].
    unfold waitFor_entry.
    assert (forall q, x ∈ pf_wf ((if decide (fi = j) then wg_Add else id) q) ->
                      x ∈ pf_wf q) as Hq.
    { intros q. by case_decide. }
    destruct (decide (wi = j)) as [Hw|Hw]; simpl.
    + intros [Hin| ->%list_elem_of_singleton]%elem_of_app; [|lia].
      by apply (Hfwd j pf), Hq.
    + intros Hin. by apply (Hfwd j pf), Hq.
Qed.

Lemma Script_chain_wait_ok a b c reg :
  a <= b -> c <= length reg -> wait_ok reg -> wait_ok (Script_chain a b c reg).
Proof.
  intros Hab Hc Hok. unfold Script_chain.
  cut (forall fis reg, Forall (fun fi => b <= fi < c) fis -> c <= length reg ->
         wait_ok reg ->
         wait_ok (foldl (fun reg fi =>
                    foldl (fun reg wi => waitFor fi wi reg) reg (seq a (b - a))) reg fis)
         ).
  { intros Hcut. apply Hcut; [|done..]. apply Forall_forall. intros fi Hin.
    apply list_elem_of_In, in_seq in Hin. lia. }
  clear reg Hc Hok. intros fis. induction fis as [|fi fis IH]; intros reg Hfis Hc Hok.
  - done.
  - cbn [foldl]. apply Forall_cons in Hfis as [Hfi Hfis].
    cut (forall wis reg, Forall (fun wi => a <= wi < b) wis -> c <= length reg ->
           wait_ok reg ->
           wait_ok (foldl (fun reg wi => waitFor fi wi reg) reg wis)
           /\ c <= length (foldl (fun reg wi => waitFor fi wi reg) reg wis)).
    { intros Hcut. destruct (Hcut (seq a (b - a)) reg) as [Hok' Hc']; [|done..|].
      - apply Forall_forall. intros wi Hin. apply list_elem_of_In, in_seq in Hin. lia.
      - by apply IH. }
    clear reg Hc Hok IH. intros wis.
    induction wis as [|wi wis IH]; intros reg Hwis Hc Hok; [done|].
    cbn [foldl]. apply Forall_cons in Hwis as [Hwi Hwis].
    apply IH; [done| |].
    + unfold waitFor. by rewrite !length_alter.
    + apply waitFor_wait_ok; [done|lia].
Qed.

Lemma wf_grows_refl reg : wf_grows reg reg.
Proof. intros i pf Hi. by exists pf. Qed.

Lemma wf_grows_trans reg1 reg2 reg3 :
  wf_grows reg1 reg2 -> wf_grows reg2 reg3 -> wf_grows reg1 reg3.
Proof.
  intros H12 H23 i pf Hi. destruct (H12 i pf Hi) as (pf2 & Hi2 & Hsub2).
  destruct (H23 i pf2 Hi2) as (pf3 & Hi3 & Hsub3). exists pf3. split; [done|].
  intros x Hx. by apply Hsub3, Hsub2.
Qed.

Lemma wf_grows_app reg new : wf_grows reg (reg ++ new).
Proof.
  intros i pf Hi. exists pf. split; [|done]. by apply lookup_app_l_Some.
Qed.

Lemma Script_chain_wf_grows a b c reg : wf_grows reg (Script_chain a b c reg).
Proof.
  intros i pf Hi. rewrite Script_chain_lookup, Hi. simpl. eexists. split; [done|].
  intros x Hx. by apply chain_entry_wf.
Qed.

Lemma Script_chain_take a b c reg :
  a <= b -> take a (Script_chain a b c reg) = take a reg.
Proof.
  intros Hab. apply list_eq. intros i. rewrite !lookup_take.
  case_decide as Hi; [|done].
  rewrite Script_chain_lookup. destruct (reg !! i) as [pf|]; [|done]. simpl.
  rewrite chain_entry_other; [done|done|lia].
Qed.

(** The loop of [Script] over stages that only add entries: the entries
    that were there before the scope are untouched, no entry is lost, [wf]
    lists only grow, and the wait dependencies stay in order. *)
Lemma Script_loop_registry startLen ps s h :
  Forall registry_local ps -> startLen <= length (pendingFlushes s) ->
  take startLen (pendingFlushes (Script_loop startLen ps s h).1.1)
  = take startLen (pendingFlushes s)
  /\ length (pendingFlushes s) <= length (pendingFlushes (Script_loop startLen ps s h).1.1)
  /\ wf_grows (pendingFlushes s) (pendingFlushes (Script_loop startLen ps s h).1.1)
  /\ (wait_ok (pendingFlushes s) ->
      wait_ok (pendingFlushes (Script_loop startLen ps s h).1.1)).
Proof.
  intros Hps. revert s h. induction Hps as [|p ps Hp Hps IH]; intros s h Hstart.
  - simpl. split; [done|]. split; [done|]. split; [apply wf_grows_refl|done].
  - cbn [Script_loop]. destruct (Hp s h) as (new & Hnew & Hok).
    destruct (p s h) as [[s1 h1] [e|]] eqn:E; simpl in Hnew.
    + simpl. rewrite Hnew. split; [by rewrite take_app_le|].
      split; [rewrite length_app; lia|]. split; [apply wf_grows_app|done].
    + set (s2 := set_pendingFlushes _ s1).
      assert (pendingFlushes s2
              = Script_chain startLen (length (pendingFlushes s))
                  (length (pendingFlushes s1)) (pendingFlushes s1)) as Hs2 by done.
      destruct (IH s2 h1) as (Htake & Hlen & Hgrow & Hwait).
      { rewrite Hs2, Script_chain_length, Hnew, length_app. lia. }
      rewrite Hs2, Script_chain_length in Hlen. rewrite Hs2 in Htake, Hgrow, Hwait.
      split; [|split; [|split]].
      * rewrite Htake, Script_chain_take, Hnew by done. by rewrite take_app_le.
      * rewrite Hnew, length_app in Hlen. lia.
      * eapply wf_grows_trans; [|exact Hgrow].
        eapply wf_grows_trans; [|apply Script_chain_wf_grows].
        rewrite Hnew. apply wf_grows_app.
      * intros Hw. apply Hwait. apply Script_chain_wait_ok; [done|done|].
        rewrite Hnew. by apply Hok.
Qed.

Lemma Script_loop_app startLen pre post s h :
  Script_loop startLen (pre ++ post) s h
  = match Script_loop startLen pre s h with
    | (s1, h1, None) => Script_loop startLen post s1 h1
    | (s1, h1, Some e) => (s1, h1, Some e)
    end.
Proof.
  revert s h. induction pre as [|p pre IH]; intros s h; simpl; [done|].
  destruct (p s h) as [[s1 h1] [e|]]; [done|]. apply IH.
Qed.

Lemma waits_app i reg reg' : waits i (reg ++ reg') = waits i reg + waits i reg'.
Proof. induction reg as [|pf reg IH]; simpl; [done|]. rewrite IH. lia. Qed.

Lemma waits_0 i reg :
  (forall j pf, reg !! j = Some pf -> i ∉ pf_wf pf) -> waits i reg = 0.
Proof.
  induction reg as [|pf reg IH]; intros Hno; simpl; [done|].
  rewrite IH by (intros j; apply (Hno (S j))).
  rewrite count_0; [done|]. by apply (Hno 0 pf).
Qed.

(** A new entry, as [AddFlusher] makes it, keeps the wait dependencies in
    order. *)
Lemma wait_ok_snoc reg pf :
  pf_wg pf = 0 -> pf_wf pf = [] -> wait_ok reg -> wait_ok (reg ++ [pf]).
Proof.
  intros Hwg Hwf [Hw Hfwd]. split.
  - intros i pf' Hi. rewrite waits_app. simpl. rewrite Hwf. simpl.
    apply lookup_app_Some in Hi as [Hi|[Hge Hi]].
    + rewrite (Hw i pf' Hi). lia.
    + apply list_lookup_singleton_Some in Hi as [Hi <-]. rewrite Hwg.
      rewrite waits_0; [done|]. intros j pfj Hj Hin.
      destruct (Hfwd j pfj i Hj Hin). lia.
  - intros j pf' x Hj Hin. rewrite length_app. simpl.
    apply lookup_app_Some in Hj as [Hj|[Hge Hj]].
    + destruct (Hfwd j pf' x Hj Hin). lia.
    + apply list_lookup_singleton_Some in Hj as [_ <-]. rewrite Hwf in Hin.
      by apply elem_of_nil in Hin.
Qed.

Lemma registry_local_same (p : Pipe) :
  (forall s h, pendingFlushes (p s h).1.1 = pendingFlushes s) -> registry_local p.
Proof. intros Hp s h. exists []. by rewrite app_nil_r, Hp. Qed.

Section registry.
Context `{GoRuntime}.

Lemma AddFlusher_registry f s h :
  exists pf, pendingFlushes (AddFlusher f s h).1.1 = pendingFlushes s ++ [pf]
    /\ pf_wg pf = 0 /\ pf_wf pf = [] /\ pf_c pf = [] /\ pf_f pf = f.
Proof. unfold AddFlusher. destruct (append _ _ _) as [m e]. by eexists. Qed.


Lemma FlushFunc_registry_local f : registry_local (FlushFunc f).
Proof.
  intros s h. destruct (AddFlusher_registry (flushFunc f) s h)
    as (pf & Hreg & Hwg & Hwf & _).
  exists [pf]. split; [|by apply wait_ok_snoc].
  unfold FlushFunc. by destruct (AddFlusher _ s h) as [[s1 h1] r1].
Qed.

Lemma SetEnvVar_registry_local name value : registry_local (SetEnvVar name value).
Proof.
  apply registry_local_same. intros s h. unfold SetEnvVar.
  destruct (SetEnvVar_method name value s h) as [s1 h1] eqn:E.
  by apply SetEnvVar_method_registry in E.
Qed.

Lemma ChDir_registry_local dir : registry_local (ChDir dir).
Proof. by apply registry_local_same. Qed.

Lemma MkDir_registry_local dir perm : registry_local (MkDir dir perm).
Proof. by apply registry_local_same. Qed.

Lemma CombineToErr_registry_local : registry_local CombineToErr.
Proof. by apply registry_local_same. Qed.

Lemma CombineToOut_registry_local : registry_local CombineToOut.
Proof. by apply registry_local_same. Qed.

Lemma enter_scope_registry s h : pendingFlushes (enter_scope s h).1 = pendingFlushes s.
Proof. unfold enter_scope. by destruct (append _ _ _). Qed.

Lemma Script_registry ps s h :
  pendingFlushes (Script ps s h).1.1
  = pendingFlushes (Script_loop (length (pendingFlushes s)) ps
                      (enter_scope s h).1 (enter_scope s h).2).1.1.
Proof.
  unfold Script. destruct (enter_scope s h) as [s0 h0]. simpl.
  by destruct (Script_loop _ ps s0 h0) as [[s1 h1] r1].
Qed.

(** [Script] of stages that only add entries only adds entries: scripts can
    be nested. *)
Lemma Script_registry_local ps : Forall registry_local ps -> registry_local (Script ps).
Proof.
  intros Hps s h. rewrite Script_registry.
  destruct (Script_loop_registry (length (pendingFlushes s)) ps
              (enter_scope s h).1 (enter_scope s h).2 Hps)
    as (Htake & Hlen & _ & Hwait); [by rewrite enter_scope_registry|].
  rewrite enter_scope_registry in *.
  set (reg' := pendingFlushes (Script_loop _ ps _ _).1.1) in *.
  exists (drop (length (pendingFlushes s)) reg').
  assert (reg' = pendingFlushes s ++ drop (length (pendingFlushes s)) reg') as Heq.
  { rewrite <- (take_drop (length (pendingFlushes s)) reg') at 1.
    rewrite Htake. by rewrite take_ge. }
  split; [done|]. by rewrite <- Heq.
Qed.
End registry.




Lemma wait_ok_nil : wait_ok [].
Proof. split; intros ? ? ; by rewrite lookup_nil. Qed.

Lemma example_script_registry_local :
  Forall registry_local (example_pre ++ [FlushFunc (H:=example_runtime) 2]).
Proof.
  apply Forall_app. split; [|apply Forall_singleton, FlushFunc_registry_local].
  apply Forall_cons_2; [apply FlushFunc_registry_local|].
  apply Forall_singleton, FlushFunc_registry_local.
Qed.


Lemma example_registry_wait_ok : wait_ok example_registry.
Proof.
  destruct (Script_registry_local (H:=example_runtime) _ example_script_registry_local
              example_state example_heap) as (new & Hnew & Hwait).
  specialize (Hwait wait_ok_nil). rewrite <- Hnew in Hwait. exact Hwait.
Qed.

(** C2.  When [FlushAll] has returned, the registry is empty, every entry's
    [Flush] result has been received, and the value returned is the first
    non-nil error in the order of arrival: nil when every [Flush] returned
    nil, and otherwise one of the errors the [Flush] calls returned, whatever
    the others returned later.  And [FlushAll] can return: whatever the
    [Flush] calls return, a registry whose wait dependencies are in order
    has a schedule in which it does. *)
Theorem FlushAll_first_error (reg : list pendingFlush) (h : Heap) :
  (forall acts c first,
     run acts (FlushAll_init reg h) = Some c -> c_main c = MReturn first ->
     c_registry c = []
     /\ first = first_error (c_recv c)
     /\ c_recv c ≡ₚ exit_errs (c_gs c)
     /\ length (c_recv c) = length reg
     /\ ((forall err, err ∈ exit_errs (c_gs c) -> err = None) -> first = None)
     /\ ((exists e, Some e ∈ exit_errs (c_gs c)) ->
         exists e, first = Some e /\ Some e ∈ exit_errs (c_gs c)))
  /\ (wait_ok reg ->
      forall errs, length errs = length reg ->
        exists acts c,
          run acts (FlushAll_init reg h) = Some c
          /\ c_main c = MReturn (first_error errs)
          /\ c_gs c = GExit <$> errs
          /\ c_registry c = []).
Proof.
  split; [|intros Hok errs Hlen; by apply FlushAll_returns].
  intros acts c first Hrun Em.
  destruct (run_inv _ _ _ _ Hrun (flush_inv_init reg h))
    as (Hlen & Hmain & Hchan & _).
  unfold main_ok in Hmain. rewrite Em in Hmain.
  destruct Hmain as (Hrecv & Hfirst & Hreg & _).
  assert (c_chan c = []) as Hnil.
  { pose proof (exit_errs_length (c_gs c)) as Hle.
    apply Permutation_length in Hchan. rewrite length_app in Hchan.
    apply length_zero_iff_nil. lia. }
  rewrite Hnil, app_nil_r in Hchan.
  split; [done|]. split; [done|]. split; [done|]. split; [done|]. split.
  - intros Hall. rewrite Hfirst. apply first_error_None.
    intros err Hin. apply Hall. by rewrite <- Hchan.
  - intros (e & He). rewrite <- Hchan in He.
    destruct first as [e'|].
    + exists e'. split; [done|]. rewrite <- Hchan. by apply first_error_elem.
    + symmetry in Hfirst. rewrite first_error_None in Hfirst.
      by specialize (Hfirst _ He).
Qed.

Lemma FlushAll_first_error_witness :
  c_registry example_final = []
  /\ c_recv example_final = [Some "boom"; None; Some "late"]
  /\ c_main example_final = MReturn (Some "boom")
  /\ exists acts c,
       run acts (FlushAll_init example_registry example_script.1.2) = Some c
       /\ c_main c = MReturn None.
Proof.
  destruct (FlushAll_first_error example_registry example_script.1.2) as [Hsafe Hlive].
  destruct (Hsafe example_schedule example_final (Some "boom"))
    as (Hreg & Hfirst & _); [vm_compute; reflexivity|reflexivity|].
  split; [exact Hreg|]. split; [reflexivity|]. split; [reflexivity|].
  destruct (Hlive example_registry_wait_ok [None; None; None] eq_refl)
    as (acts & c & Hrun & Hm & _).
  exists acts, c. split; [exact Hrun|exact Hm].
Defined.

(** ** Line: a stage that fails *)

(** C6, at the failing line.  [Line] returns the error of the second stage
    and does not configure the third one (one entry is registered, by the
    first stage), and it closes the read end that feeds the second stage;
    but the write end made for the output of the second stage is not
    released: its closer still has count 1 and the endpoint is not closed. *)
Theorem Line_error_leaves_writer_open :
  (Line (H:=example_runtime) failing_line example_state example_heap).2
  = Some "mkdir: file exists"
  /\ length (pendingFlushes
               (Line (H:=example_runtime) failing_line example_state example_heap).1.1) = 1
  /\ closed (Line (H:=example_runtime) failing_line example_state example_heap).1.2
     = [PipeReader 0]
  /\ closers (Line (H:=example_runtime) failing_line example_state example_heap).1.2 !! 2
     = Some (mkRefCloser (PipeWriter 1) 1)
  /\ PipeWriter 1
     ∉ closed (Line (H:=example_runtime) failing_line example_state example_heap).1.2.
Proof.
  vm_compute. repeat split; try reflexivity.
  intros Hin. apply list_elem_of_In in Hin. destruct Hin as [Heq|[]]. discriminate.
Qed.

(** ** Filter *)

Lemma ReadBytes_scan_spec (input : list Byte.byte) :
  match ReadBytes_scan Byte.x0a input with
  | (line, rest, true) =>
    lines_of input = line :: lines_of rest /\ length rest < length input
  | (line, rest, false) =>
    line = input /\ rest = []
    /\ lines_of input = match input with [] => [] | _ => [input] end
  end.
Proof.
  induction input as [|b input IH]; simpl; [done|].
  destruct (Byte.eqb b Byte.x0a); [split; [done|lia]|].
  destruct (ReadBytes_scan Byte.x0a input) as [[line rest] [|]].
  - destruct IH as [-> Hlt]. split; [done|lia].
  - destruct IH as (-> & -> & ->). by destruct input.
Qed.

Lemma drop_crlf_snoc (xs : list Byte.byte) (b : Byte.byte) :
  drop_crlf (xs ++ [b])
  = match drop_crlf xs with
    | [] => if is_crlf b then [] else [b]
    | t => t ++ [b]
    end.
Proof.
  induction xs as [|x xs IH]; simpl; [done|].
  destruct (is_crlf x); [exact IH|done].
Qed.

(** [bytes.TrimRight(line, CR LF)] strips the trailing CR and LF bytes. *)
Lemma TrimRight_strip (line : list Byte.byte) :
  TrimRight line [Byte.x0d; Byte.x0a] = strip_crlf line.
Proof.
  unfold strip_crlf. induction line as [|b line IH]; [done|].
  cbn [TrimRight rev]. rewrite IH, drop_crlf_snoc.
  destruct (drop_crlf (rev line)) as [|x t] eqn:E.
  - cbn [rev existsb]. unfold is_crlf. rewrite orb_false_r.
    by destruct (Byte.eqb b Byte.x0d || Byte.eqb b Byte.x0a).
  - rewrite rev_app_distr. cbn [rev app].
    destruct (rev t ++ [x]) as [|y u] eqn:E'; [|done].
    by apply app_eq_nil in E' as [_ ?].
Qed.

Lemma filter_spec_cons f line lines :
  concat (List.filter (fun l => f (strip_crlf l)) (line :: lines))
  = (if f (strip_crlf line) then line else [])
    ++ concat (List.filter (fun l => f (strip_crlf l)) lines).
Proof. simpl. by destruct (f (strip_crlf line)). Qed.

Lemma Filter_loop_spec (f : list Byte.byte -> bool) (fuel : nat) :
  forall (input out : list Byte.byte),
    length input < fuel ->
    Filter_loop OutputBuffer_Write f fuel (mkReader input None) out
    = Some (out ++ filter_spec f input, None).
Proof.
  induction fuel as [|fuel IH]; intros input out Hlt; [lia|].
  cbn [Filter_loop]. unfold ReadBytes. cbn [rd_data rd_err].
  pose proof (ReadBytes_scan_spec input) as Hscan. unfold filter_spec.
  destruct (ReadBytes_scan Byte.x0a input) as [[line rest] [|]].
  - destruct Hscan as [-> Hrest]. rewrite filter_spec_cons, TrimRight_strip.
    assert (forall o, Filter_loop OutputBuffer_Write f fuel (mkReader rest None) o
                      = Some (o ++ filter_spec f rest, None)) as Hnext.
    { intros o. apply IH. lia. }
    unfold filter_spec in Hnext.
    destruct line as [|b line];
      (destruct (f (strip_crlf _)); unfold OutputBuffer_Write;
       rewrite Hnext; by rewrite <- ?app_assoc).
  - destruct Hscan as (-> & -> & ->). destruct input as [|b input].
    + by rewrite app_nil_r.
    + rewrite filter_spec_cons, TrimRight_strip. simpl. rewrite app_nil_r.
      destruct (f (strip_crlf (b :: input))); unfold OutputBuffer_Write;
        by rewrite ?app_nil_r.
Qed.

Lemma lines_of_concat (input : list Byte.byte) : concat (lines_of input) = input.
Proof.
  induction input as [|b input IH]; simpl; [done|].
  destruct (Byte.eqb b Byte.x0a); simpl; [by rewrite IH|].
  destruct (lines_of input) as [|l ls]; simpl in *; by rewrite <- IH.
Qed.

(** C9.  The flusher of [Filter], reading a stream that yields [input] and
    then ends, and writing to an output buffer, returns nil and leaves in the
    buffer, behind what was there, exactly the lines of the input that [f]
    accepts when it is given the line without its trailing CR and LF bytes:
    in the order of the input and as they are in the input, the last line
    too when the input does not end in a line terminator; the lines that [f]
    rejects are left out.  The lines are the pieces of the input: put
    together again they are the input; and what [f] is given,
    [bytes.TrimRight] of the line, is the line without its trailing CR and LF
    bytes. *)
Theorem Filter_writes_accepted_lines (f : list Byte.byte -> bool)
    (input out : list Byte.byte) :
  Filter_flush OutputBuffer_Write f (mkReader input None) out
  = Some (out ++ concat (List.filter (fun line => f (strip_crlf line)) (lines_of input)),
          None)
  /\ concat (lines_of input) = input
  /\ (forall line, TrimRight line [Byte.x0d; Byte.x0a] = strip_crlf line).
Proof.
  split; [|split].
  - unfold Filter_flush. cbn [rd_data]. apply (Filter_loop_spec f); lia.
  - apply lines_of_concat.
  - apply TrimRight_strip.
Qed.

(** ** Line keeps the wait dependencies *)



Lemma Line_attach1_fields rc x pf h :
  pf_wg (Line_attach1 rc x (pf, h)).1 = pf_wg pf
  /\ pf_wf (Line_attach1 rc x (pf, h)).1 = pf_wf pf.
Proof.
  unfold Line_attach1. destruct rc; [|done]. by destruct (is_Closer x && _).
Qed.




Section line_registry.
Context `{GoRuntime}.

End line_registry.

Example Filter_test :
  Filter_flush OutputBuffer_Write not_out2 (mkReader (three_lines [Byte.x0a]) None) []
  = Some (String.list_byte_of_string "out1" ++ [Byte.x0a]
          ++ String.list_byte_of_string "out3" ++ [Byte.x0a], None).
Proof. vm_compute. reflexivity. Qed.

Example Filter_test_no_newline :
  Filter_flush OutputBuffer_Write not_out2 (mkReader (three_lines []) None) []
  = Some (String.list_byte_of_string "out1" ++ [Byte.x0a]
          ++ String.list_byte_of_string "out3", None).
Proof. vm_compute. reflexivity. Qed.

(** ** FlushAll: no panic, no deadlock, and a bound on the steps *)

Lemma wait_exact_init reg h : wait_ok reg -> wait_exact (FlushAll_init reg h).
Proof.
  intros [Hwg Hfwd]. split; [done|]. split; [simpl; by rewrite length_replicate|]. split.
  - simpl. intros i pf Hi. rewrite owed_replicate. by apply Hwg.
  - simpl. intros j pf i Hj Hin. by destruct (Hfwd _ _ _ Hj Hin).
Qed.

Lemma step_main_exact c c' : step_main c = Some c' -> wait_exact c -> wait_exact c'.
Proof.
  unfold step_main. intros Hstep (Hp & Hlen & Hw & Hfwd).
  destruct (c_main c) as [[|m] first|m first k|first|]; try done.
  - by injection Hstep as <-.
  - destruct (c_chan c) as [|err chan]; [done|]. injection Hstep as <-.
    split; [|done]. simpl. by destruct err, first.
  - by destruct (c_registry c !! k); injection Hstep as <-.
Qed.

Lemma wait_exact_set_gs c i g g' :
  wait_exact c -> c_gs c !! i = Some g -> signalled g' = signalled g ->
  wait_exact (set_gs (<[i := g']> (c_gs c)) c).
Proof.
  intros (Hp & Hlen & Hw & Hfwd) Hi Hs.
  split; [done|]. split; [simpl; by rewrite length_insert|]. split; [|done].
  simpl. intros i' pf Hi'. erewrite owed_insert_same by done. by apply Hw.
Qed.

Lemma step_exact a c c' : step a c = Some c' -> wait_exact c -> wait_exact c'.
Proof.
  unfold step. destruct (is_panic (c_main c)) eqn:Epanic; [done|].
  destruct a as [i|i err|i|i|]; [| | | |apply step_main_exact].
  - destruct (c_gs c !! i) as [[| | | |]|] eqn:Eg; try done.
    destruct (c_pfs c !! i) as [pfi|] eqn:Ep; [|done]. case_decide as Hz; [|done].
    intros [= <-] Hinv. by eapply wait_exact_set_gs.
  - destruct (c_gs c !! i) as [[| | | |]|] eqn:Eg; try done.
    intros [= <-] Hinv. by eapply wait_exact_set_gs.
  - destruct (c_gs c !! i) as [[| |err| |]|] eqn:Eg; try done.
    destruct (c_pfs c !! i) as [pfi|] eqn:Ep; [|done].
    intros Hstep (Hp & Hlen & Hw & Hfwd). unfold pf_done in Hstep.
    destruct (wg_Done_fold (pf_wf pfi) (c_pfs c)) as (pfs' & Hf & Hwf' & Hlen' & Hwg).
    { intros i' pf Hi'. rewrite (Hw _ _ Hi'). by eapply owed_bound. }
    rewrite Hf in Hstep. injection Hstep as <-.
    split; [done|]. split; [simpl; rewrite length_insert; lia|]. split.
    + simpl. intros i' pf' Hi'.
      destruct (lookup_lt_is_Some_2 (c_pfs c) i') as [pf Hpf].
      { rewrite <- Hlen'. by eapply lookup_lt_Some. }
      destruct (Hwg i' pf Hpf) as (pf'' & Hpf'' & Hc).
      assert (pf'' = pf') as -> by congruence.
      rewrite (owed_wf _ _ _ _ Hwf').
      pose proof (owed_insert_signal i' _ _ _ _ (GSend err) _ Eg Ep eq_refl eq_refl).
      specialize (Hw i' pf Hpf). lia.
    + simpl. intros j pf' i' Hj Hin.
      destruct (lookup_lt_is_Some_2 (c_pfs c) j) as [pf Hpf].
      { rewrite <- Hlen'. by eapply lookup_lt_Some. }
      assert (pf_wf pf' = pf_wf pf) as Hsame.
      { apply (f_equal (fun l => l !! j)) in Hwf'.
        rewrite !list_lookup_fmap, Hj, Hpf in Hwf'. by injection Hwf'. }
      rewrite Hsame in Hin. by eapply Hfwd.
  - destruct (c_gs c !! i) as [[| | |err|]|] eqn:Eg; try done.
    intros [= <-] Hinv.
    change (wait_exact (mkConfig (c_registry c) (c_pfs c) (c_heap c)
              (c_gs (set_gs (<[i:=GExit err]> (c_gs c)) c)) (c_chan c ++ [err])
              (c_main c) (c_kills c) (c_recv c))).
    by pose proof (wait_exact_set_gs c i (GSend err) (GExit err) Hinv Eg eq_refl).
Qed.

Lemma run_exact acts c c' : run acts c = Some c' -> wait_exact c -> wait_exact c'.
Proof.
  revert c. induction acts as [|a acts IH]; intros c; simpl.
  - by intros [= <-].
  - destruct (step a c) as [c1|] eqn:E; [|done]. intros Hrun Hinv.
    eapply IH; [done|]. by eapply step_exact.
Qed.

(** Goroutines that are all waiting or ended, and not all ended: the first
    one that waits has only ended ones before it. *)
Lemma first_waiting (gs : list gstate) :
  Forall (fun g => running g = false) gs -> length (exit_errs gs) < length gs ->
  exists i, gs !! i = Some GWait
    /\ forall j g, gs !! j = Some g -> j < i -> signalled g = true.
Proof.
  induction gs as [|g gs IH]; simpl; [lia|].
  intros [Hg Hgs]%Forall_cons Hlt. destruct g; try done.
  - exists 0. split; [done|]. intros j g _ Hj. lia.
  - simpl in Hlt. destruct IH as (i & Hi & Hbefore); [done|lia|].
    exists (S i). split; [done|]. intros [|j] g; simpl.
    + by intros [= <-].
    + intros Hj Hlt'. apply (Hbefore j g Hj). lia.
Qed.

(** X1 (FlushAll, pendingFlush.done): when the WaitGroup counter of every
    entry is at least the number of its occurrences in the [wf] lists of the
    registry, no schedule of the goroutines makes a [wg.Done()] bring a
    counter below zero: [FlushAll] never panics. *)
Theorem FlushAll_never_panics (reg : list pendingFlush) (h : Heap)
    (acts : list action) (c : config) :
  (forall i pf, reg !! i = Some pf -> waits i reg <= pf_wg pf) ->
  run acts (FlushAll_init reg h) = Some c ->
  c_main c <> MPanic.
Proof.
  intros Hle Hrun.
  destruct (run_wait reg _ _ _ Hrun (wait_inv_init reg h Hle)) as (Hp & _).
  intros E. by rewrite E in Hp.
Qed.

Lemma FlushAll_never_panics_witness : c_main example_final <> MPanic.
Proof.
  apply (FlushAll_never_panics example_registry example_script.1.2 example_schedule).
  - intros i pf Hi. destruct i as [|[|[|i]]]; vm_compute in Hi; [| | |done];
      injection Hi as <-; vm_compute; lia.
  - vm_compute. reflexivity.
Defined.

(** X2 (FlushAll, pendingFlush.wait, pendingFlush.done): on a registry whose
    wait dependencies are in order, [FlushAll] cannot get stuck.  Whatever
    the goroutines have done so far, either [FlushAll] has returned, or some
    thread can take a step, and that step is not a panic: the goroutine of
    the first entry that still waits has a counter of zero when no other
    thread can move. *)
Theorem FlushAll_no_deadlock (reg : list pendingFlush) (h : Heap)
    (acts : list action) (c : config) :
  wait_ok reg ->
  run acts (FlushAll_init reg h) = Some c ->
  (exists first, c_main c = MReturn first)
  \/ (exists a c', step a c = Some c' /\ c_main c' <> MPanic).
Proof.
  intros Hok Hrun.
  pose proof (run_inv _ _ _ _ Hrun (flush_inv_init reg h)) as (Hlen & Hmain & Hperm & _).
  pose proof (run_exact _ _ _ Hrun (wait_exact_init reg h Hok)) as Hex.
  assert (forall a, is_Some (step a c) ->
            exists a c', step a c = Some c' /\ c_main c' <> MPanic) as Hnp.
  { intros a [c' Hc']. exists a, c'. split; [done|].
    destruct (step_exact _ _ _ Hc' Hex) as (Hp' & _). intros E. by rewrite E in Hp'. }
  destruct Hex as (Hp & Hl & Hw & Hfwd).
  destruct (decide (Exists (fun g => running g = true) (c_gs c))) as [Hrunning|Hnone].
  - right. apply Exists_exists in Hrunning as (g & Hin & Hr).
    apply list_elem_of_lookup in Hin as [i Hi].
    destruct g as [| |err|err|err]; try done.
    + apply (Hnp (Return i None)). unfold step. by rewrite Hp, Hi.
    + apply (Hnp (Done i)). unfold step. rewrite Hp, Hi.
      destruct (lookup_lt_is_Some_2 (c_pfs c) i) as [pf Hpf].
      { rewrite <- Hl. by eapply lookup_lt_Some. }
      rewrite Hpf. by destruct (pf_done pf (c_pfs c) (c_heap c)) as [[pfs|] h'].
    + apply (Hnp (Send i)). unfold step. by rewrite Hp, Hi.
  - apply not_Exists_Forall in Hnone; [|apply _].
    assert (Forall (fun g => running g = false) (c_gs c)) as Hidle.
    { eapply Forall_impl; [exact Hnone|]. simpl. intros g Hg. by destruct (running g). }
    unfold main_ok in Hmain.
    destruct (c_main c) as [[|m] first|m first k|first|] eqn:Em; [| | | |done].
    + right. apply (Hnp Main). unfold step, step_main. by rewrite Em.
    + right. destruct (c_chan c) as [|err chan] eqn:Ec.
      * destruct Hmain as (Hm & _). rewrite app_nil_r in Hperm.
        apply Permutation_length in Hperm.
        destruct (first_waiting (c_gs c) Hidle) as (i & Hi & Hbefore); [lia|].
        destruct (lookup_lt_is_Some_2 (c_pfs c) i) as [pf Hpf].
        { rewrite <- Hl. by eapply lookup_lt_Some. }
        apply (Hnp (Start i)). unfold step. rewrite Em, Hi, Hpf. simpl.
        rewrite decide_True; [done|]. rewrite (Hw _ _ Hpf). apply owed_0.
        intros j g pfj Hj Hpj Hs Hin. specialize (Hfwd _ _ _ Hpj Hin).
        specialize (Hbefore _ _ Hj Hfwd). congruence.
      * apply (Hnp Main). unfold step, step_main. by rewrite Em, Ec.
    + right. apply (Hnp Main). unfold step, step_main. rewrite Em. simpl.
      by destruct (c_registry c !! k).
    + left. by exists first.
Qed.

Lemma FlushAll_no_deadlock_witness :
  (exists first, c_main example_midway = MReturn first)
  \/ (exists a c', step a example_midway = Some c' /\ c_main c' <> MPanic).
Proof.
  apply (FlushAll_no_deadlock example_registry example_script.1.2 (take 8 example_schedule)).
  - exact example_registry_wait_ok.
  - vm_compute. reflexivity.
Defined.

Lemma g_steps_insert (gs : list gstate) i g g' :
  gs !! i = Some g ->
  sum_list_with g_steps (<[i := g']> gs) + g_steps g
  = sum_list_with g_steps gs + g_steps g'.
Proof.
  revert i. induction gs as [|g0 gs IH]; intros [|i]; simpl; try done.
  - intros [= ->]. lia.
  - intros Hi. specialize (IH i Hi). lia.
Qed.

Lemma g_steps_replicate n : sum_list_with g_steps (replicate n GWait) = 4 * n.
Proof. induction n as [|n IH]; simpl; [done|]. rewrite IH. lia. Qed.

(** Every step uses up one of the steps that are left. *)
Lemma step_decreases n a c c' :
  step a c = Some c' -> flush_inv n c -> steps_left c' < steps_left c.
Proof.
  unfold step, steps_left. destruct (is_panic (c_main c)) eqn:Epanic; [done|].
  intros Hstep (Hlen & Hmain & _ & _).
  destruct a as [i|i err|i|i|].
  - destruct (c_gs c !! i) as [[| | | |]|] eqn:Eg; try done.
    destruct (c_pfs c !! i) as [pfi|] eqn:Ep; [|done]. case_decide as Hz; [|done].
    injection Hstep as <-. simpl. rewrite Epanic, length_insert.
    pose proof (g_steps_insert _ _ _ GFlush Eg). simpl in *. lia.
  - destruct (c_gs c !! i) as [[| | | |]|] eqn:Eg; try done.
    injection Hstep as <-. simpl. rewrite Epanic, length_insert.
    pose proof (g_steps_insert _ _ _ (GFlushed err) Eg). simpl in *. lia.
  - destruct (c_gs c !! i) as [[| |err| |]|] eqn:Eg; try done.
    destruct (c_pfs c !! i) as [pfi|] eqn:Ep; [|done].
    pose proof (g_steps_insert _ _ _ (GSend err) Eg) as Hs.
    destruct (pf_done pfi (c_pfs c) (c_heap c)) as [[pfs|] h']; injection Hstep as <-; simpl.
    + rewrite Epanic, length_insert. simpl in *. lia.
    + simpl in *. lia.
  - destruct (c_gs c !! i) as [[| | |err|]|] eqn:Eg; try done.
    injection Hstep as <-. simpl. rewrite Epanic, length_insert.
    pose proof (g_steps_insert _ _ _ (GExit err) Eg). simpl in *. lia.
  - unfold step_main, main_ok in *.
    destruct (c_main c) as [[|m] first|m first k|first|]; try done.
    + injection Hstep as <-. simpl. destruct first; lia.
    + destruct (c_chan c) as [|err chan]; [done|]. injection Hstep as <-. simpl.
      destruct err, first; simpl; lia.
    + destruct Hmain as (_ & _ & [e ->] & Hreg & _ & Hk).
      destruct (c_registry c !! k) eqn:Ek; injection Hstep as <-; simpl.
      * apply lookup_lt_Some in Ek. rewrite Hreg, length_seq in Ek. lia.
      * lia.
Qed.

Lemma run_decreases n acts c c' :
  run acts c = Some c' -> flush_inv n c -> length acts + steps_left c' <= steps_left c.
Proof.
  revert c. induction acts as [|a acts IH]; intros c; simpl.
  - intros [= <-]. lia.
  - destruct (step a c) as [c1|] eqn:E; [|done]. intros Hrun Hinv.
    pose proof (step_decreases _ _ _ _ E Hinv).
    specialize (IH c1 Hrun (step_inv _ _ _ _ E Hinv)). lia.
Qed.

(** X3 (FlushAll): a [FlushAll] call on [n] entries takes at most [6 n + 2]
    steps, whatever the schedule and the registry: four per goroutine (wait,
    Flush, done, send), one per value received, at most [n + 1] for the Kill
    loop, which runs at most once, and one for the return.  So every
    schedule comes to an end. *)
Theorem FlushAll_steps_bounded (reg : list pendingFlush) (h : Heap)
    (acts : list action) (c : config) :
  run acts (FlushAll_init reg h) = Some c ->
  length acts + steps_left c <= 6 * length reg + 2.
Proof.
  intros Hrun.
  pose proof (run_decreases _ _ _ _ Hrun (flush_inv_init reg h)) as Hle.
  etransitivity; [exact Hle|]. unfold steps_left, FlushAll_init. simpl.
  rewrite g_steps_replicate, length_replicate. lia.
Qed.

Lemma FlushAll_steps_bounded_witness :
  length example_schedule + steps_left example_final <= 6 * length example_registry + 2.
Proof.
  apply (FlushAll_steps_bounded example_registry example_script.1.2).
  vm_compute. reflexivity.
Defined.

(** ** Filter: any writer, any end of the stream *)

Lemma ReadBytes_scan_terminated (input : list Byte.byte) :
  terminated (ReadBytes_scan Byte.x0a input).1.1 = (ReadBytes_scan Byte.x0a input).2.
Proof.
  induction input as [|b input IH]; simpl; [done|].
  destruct (Byte.eqb b Byte.x0a) eqn:Eb; [unfold terminated; simpl; by rewrite Eb|].
  destruct (ReadBytes_scan Byte.x0a input) as [[line rest] found]. simpl in *.
  rewrite <- IH. unfold terminated. destruct line as [|c line]; simpl; [by rewrite Eb|done].
Qed.

Lemma Filter_loop_result {W : Type} (write : W -> list Byte.byte -> W * option error)
    (f : list Byte.byte -> bool) (rerr : option error) (fuel : nat) :
  forall (input : list Byte.byte) (w : W),
    length input < fuel ->
    Filter_loop write f fuel (mkReader input rerr) w
    = Some (filter_result write f (mkReader input rerr) w).
Proof.
  induction fuel as [|fuel IH]; intros input w Hlt; [lia|].
  cbn [Filter_loop]. unfold ReadBytes, filter_result, lines_read. cbn [rd_data rd_err].
  pose proof (ReadBytes_scan_spec input) as Hscan.
  pose proof (ReadBytes_scan_terminated input) as Hterm.
  destruct (ReadBytes_scan Byte.x0a input) as [[line rest] [|]]; cbn [fst snd] in Hterm.
  - destruct Hscan as [Hlines Hrest]. rewrite TrimRight_strip.
    assert (List.filter (fun l => f (strip_crlf l))
              (match rerr with
               | None => lines_of input
               | Some _ => List.filter terminated (lines_of input)
               end)
            = (if f (strip_crlf line) then [line] else [])
              ++ List.filter (fun l => f (strip_crlf l))
                   (match rerr with
                    | None => lines_of rest
                    | Some _ => List.filter terminated (lines_of rest)
                    end)) as ->.
    { rewrite Hlines. destruct rerr; simpl; rewrite ?Hterm; simpl;
        by destruct (f (strip_crlf line)). }
    specialize (IH rest). unfold filter_result, lines_read in IH. cbn [rd_data rd_err] in IH.
    assert ((let '(w', werr) := if f (strip_crlf line) then write w line else (w, None) in
             match werr with
             | Some e => Some (w', Some e)
             | None => Filter_loop write f fuel (mkReader rest rerr) w'
             end)
            = Some (let '(w', werr) :=
              write_lines write w ((if f (strip_crlf line) then [line] else []) ++
                List.filter (fun l => f (strip_crlf l))
                   (match rerr with
                    | None => lines_of rest
                    | Some _ => List.filter terminated (lines_of rest)
                    end)) in
             (w', match werr with Some e => Some e | None => rerr end))) as Hgoal.
    { destruct (f (strip_crlf line)); simpl.
      - destruct (write w line) as [w' [e|]]; [done|]. by rewrite IH by lia.
      - by rewrite IH by lia. }
    destruct line; exact Hgoal.
  - destruct Hscan as (-> & -> & Hlines). rewrite TrimRight_strip, Hlines.
    destruct rerr as [e|].
    + destruct input as [|b input]; simpl; [done|]. by rewrite Hterm.
    + destruct input as [|b input]; simpl; [done|].
      destruct (f (strip_crlf (b :: input))); simpl; [|done].
      by destruct (write w (b :: input)) as [w' [e|]].
Qed.

Lemma write_lines_buffer (out : list Byte.byte) (lines : list (list Byte.byte)) :
  write_lines OutputBuffer_Write out lines = (out ++ concat lines, None).
Proof.
  revert out. induction lines as [|l ls IH]; intros out; simpl.
  - by rewrite app_nil_r.
  - by rewrite IH, app_assoc.
Qed.

Lemma lines_of_wf (input : list Byte.byte) : lines_wf (lines_of input).
Proof.
  induction input as [|b input IH]; simpl; [constructor|].
  destruct (Byte.eqb b Byte.x0a) eqn:Eb.
  - apply Byte.byte_dec_bl in Eb as ->. by apply (lines_wf_cons []).
  - inversion IH as [|body Hbody Hne|body ls Hbody Hls].
    + apply lines_wf_last; [|done]. simpl. by rewrite Eb.
    + apply lines_wf_last; [|done]. simpl. by rewrite Eb.
    + apply (lines_wf_cons (b :: body)); [|done]. simpl. by rewrite Eb.
Qed.

Lemma lines_wf_filter (P : list Byte.byte -> bool) (ls : list (list Byte.byte)) :
  lines_wf ls -> lines_wf (List.filter P ls).
Proof.
  induction 1 as [|body Hbody Hne|body ls Hbody Hls IH]; simpl.
  - constructor.
  - destruct (P body); by constructor.
  - destruct (P (body ++ [Byte.x0a])); [by constructor|done].
Qed.

Lemma lines_of_body (body rest : list Byte.byte) :
  no_LF body = true ->
  lines_of (body ++ Byte.x0a :: rest) = (body ++ [Byte.x0a]) :: lines_of rest.
Proof.
  induction body as [|b body IH]; simpl; [done|].
  intros [Hb Hbody]%andb_prop. apply negb_true_iff in Hb. rewrite Hb.
  by rewrite (IH Hbody).
Qed.

Lemma lines_of_last (body : list Byte.byte) :
  no_LF body = true -> body <> [] -> lines_of body = [body].
Proof.
  induction body as [|b body IH]; simpl; [done|].
  intros [Hb Hbody]%andb_prop _. apply negb_true_iff in Hb. rewrite Hb.
  destruct body as [|c body]; [done|]. by rewrite (IH Hbody).
Qed.

(** Lines that are put together are cut into the same lines again. *)
Lemma lines_of_concat_wf (ls : list (list Byte.byte)) :
  lines_wf ls -> lines_of (concat ls) = ls.
Proof.
  induction 1 as [|body Hbody Hne|body ls Hbody Hls IH]; simpl.
  - done.
  - rewrite app_nil_r. by apply lines_of_last.
  - rewrite <- app_assoc. simpl. by rewrite lines_of_body, IH.
Qed.

Lemma filter_twice {A : Type} (P Q : A -> bool) (l : list A) :
  List.filter Q (List.filter P l) = List.filter (fun x => P x && Q x) l.
Proof.
  induction l as [|x l IH]; simpl; [done|].
  destruct (P x); simpl; [|done]. destruct (Q x); by rewrite IH.
Qed.

(** What [bytes.TrimRight] leaves of a string without LF. *)
Lemma TrimRight_clean (body : list Byte.byte) :
  no_LF body = true -> clean (TrimRight body [Byte.x0d; Byte.x0a]) = true.
Proof.
  induction body as [|b body IH]; [done|].
  cbn [TrimRight no_LF forallb]. intros [Hb Hbody]%andb_prop. specialize (IH Hbody).
  destruct (TrimRight body [Byte.x0d; Byte.x0a]) as [|x t].
  - cbn [existsb]. destruct (Byte.eqb b Byte.x0d) eqn:Ed; [done|].
    destruct (Byte.eqb b Byte.x0a) eqn:Ea; [done|]. unfold clean. simpl.
    by rewrite Ed, Ea.
  - unfold clean in *. cbn [forallb]. rewrite Hb. exact IH.
Qed.

Lemma TrimRight_LF (body : list Byte.byte) :
  TrimRight (body ++ [Byte.x0a]) [Byte.x0d; Byte.x0a]
  = TrimRight body [Byte.x0d; Byte.x0a].
Proof.
  rewrite !TrimRight_strip. unfold strip_crlf. by rewrite rev_app_distr.
Qed.

Lemma lines_wf_clean (ls : list (list Byte.byte)) :
  lines_wf ls -> Forall (fun line => clean (strip_crlf line) = true) ls.
Proof.
  induction 1 as [|body Hbody Hne|body ls Hbody Hls IH].
  - constructor.
  - apply Forall_singleton. rewrite <- TrimRight_strip. by apply TrimRight_clean.
  - apply Forall_cons. split; [|done].
    rewrite <- TrimRight_strip, TrimRight_LF. by apply TrimRight_clean.
Qed.

Lemma lines_read_clean (r : Reader) :
  Forall (fun line => clean (strip_crlf line) = true) (lines_read r).
Proof.
  pose proof (lines_wf_clean _ (lines_of_wf (rd_data r))) as Hall.
  unfold lines_read. destruct (rd_err r); [|done].
  rewrite List.Forall_forall in *. intros line [Hin _]%List.filter_In. by apply Hall.
Qed.

(** X4 (Filter): the flusher of [Filter] comes to an end on every finite
    stream and with every writer.  It calls [Write] once for each accepted
    line, in the order of the input; the first [Write] that fails ends it
    with the error of that [Write]; and when the stream ends in an error
    that is not io.EOF it returns that error, and the bytes behind the last
    line terminator are neither given to the predicate nor written. *)
Theorem Filter_any_writer {W : Type} (write : W -> list Byte.byte -> W * option error)
    (f : list Byte.byte -> bool) (r : Reader) (w : W) :
  Filter_flush write f r w = Some (filter_result write f r w).
Proof.
  unfold Filter_flush. destruct r as [input rerr]. cbn [rd_data].
  apply Filter_loop_result. lia.
Qed.

(** X5 (Filter): the predicate is only ever called on strings without LF
    that end neither in CR nor in LF, so two predicates that agree on those
    strings give the same run, for every stream and every writer. *)
Theorem Filter_predicate_on_clean_lines {W : Type}
    (write : W -> list Byte.byte -> W * option error)
    (f g : list Byte.byte -> bool) (r : Reader) (w : W) :
  (forall s, clean s = true -> f s = g s) ->
  Filter_flush write f r w = Filter_flush write g r w.
Proof.
  intros Hfg. unfold Filter_flush. destruct r as [input rerr]. cbn [rd_data].
  rewrite !Filter_loop_result by lia. unfold filter_result.
  replace (List.filter (fun line => f (strip_crlf line)) (lines_read (mkReader input rerr)))
    with (List.filter (fun line => g (strip_crlf line)) (lines_read (mkReader input rerr)));
    [done|].
  apply List.filter_ext_in. intros line Hin. symmetry. apply Hfg.
  pose proof (lines_read_clean (mkReader input rerr)) as Hall.
  rewrite List.Forall_forall in Hall. by apply Hall.
Qed.

Lemma Filter_predicate_on_clean_lines_witness :
  Filter_flush OutputBuffer_Write not_out2 (mkReader (three_lines []) None) []
  = Filter_flush OutputBuffer_Write not_out2_clean (mkReader (three_lines []) None) [].
Proof.
  apply (Filter_predicate_on_clean_lines OutputBuffer_Write not_out2 not_out2_clean).
  intros s Hs. unfold not_out2_clean. rewrite Hs. reflexivity.
Defined.

(** X6 (Filter): a predicate that accepts every line makes [Filter] copy its
    input byte for byte, whatever the line terminators are and whether the
    input ends in one or not. *)
Theorem Filter_accept_all_copies (f : list Byte.byte -> bool)
    (input out : list Byte.byte) :
  (forall s, clean s = true -> f s = true) ->
  Filter_flush OutputBuffer_Write f (mkReader input None) out = Some (out ++ input, None).
Proof.
  intros Hf. unfold Filter_flush. cbn [rd_data].
  rewrite Filter_loop_result by lia. unfold filter_result, lines_read. cbn [rd_data rd_err].
  rewrite write_lines_buffer.
  replace (List.filter (fun line => f (strip_crlf line)) (lines_of input))
    with (lines_of input); [by rewrite lines_of_concat|].
  pose proof (lines_wf_clean _ (lines_of_wf input)) as Hall.
  induction Hall as [|line ls Hline Hls IH]; simpl; [done|].
  by rewrite (Hf _ Hline), <- IH.
Qed.

Lemma Filter_accept_all_copies_witness :
  Filter_flush OutputBuffer_Write (fun _ => true) (mkReader (three_lines []) None) []
  = Some ([] ++ three_lines [], None).
Proof. apply (Filter_accept_all_copies (fun _ => true)). reflexivity. Defined.

(** X7 (Filter): two filters one behind the other let through what one
    filter with both predicates lets through: [Filter(g)] reading the output
    of [Filter(f)] writes what [Filter] of the conjunction writes. *)
Theorem Filter_compose (f g : list Byte.byte -> bool) (input mid out : list Byte.byte) :
  Filter_flush OutputBuffer_Write f (mkReader input None) [] = Some (mid, None) ->
  Filter_flush OutputBuffer_Write g (mkReader mid None) out
  = Filter_flush OutputBuffer_Write (fun s => f s && g s) (mkReader input None) out.
Proof.
  unfold Filter_flush. cbn [rd_data]. rewrite !Filter_loop_result by lia.
  unfold filter_result, lines_read. cbn [rd_data rd_err]. rewrite !write_lines_buffer.
  intros [= <-]. cbn [app].
  rewrite lines_of_concat_wf by apply lines_wf_filter, lines_of_wf.
  by rewrite (filter_twice (fun l => f (strip_crlf l)) (fun l => g (strip_crlf l))).
Qed.

Lemma Filter_compose_witness :
  Filter_flush OutputBuffer_Write clean
    (mkReader (String.list_byte_of_string "out1" ++ [Byte.x0a]
               ++ String.list_byte_of_string "out3") None) []
  = Filter_flush OutputBuffer_Write (fun s => not_out2 s && clean s)
      (mkReader (three_lines []) None) [].
Proof. apply (Filter_compose not_out2 clean). vm_compute. reflexivity. Defined.

Example Filter_short_write :
  Filter_flush limited_Write (fun _ => true) (mkReader (three_lines []) None) ([], 8)
  = Some ((String.list_byte_of_string "out1" ++ [Byte.x0a], 3), Some "short write").
Proof. vm_compute. reflexivity. Qed.

Example Filter_read_error :
  Filter_flush OutputBuffer_Write (fun _ => true)
    (mkReader (three_lines []) (Some "connection reset")) []
  = Some (String.list_byte_of_string "out1" ++ [Byte.x0a]
          ++ String.list_byte_of_string "out2" ++ [Byte.x0d; Byte.x0a],
          Some "connection reset").
Proof. vm_compute. reflexivity. Qed.

(** ** SetEnvVar: one entry per variable *)

Lemma entries_for_setenv name v kvs :
  entries_for name (setenv_spec (name +:+ "=") v kvs) = Nat.max 1 (entries_for name kvs).
Proof.
  unfold entries_for. induction kvs as [|kv kvs IH]; simpl.
  - by rewrite HasPrefix_app.
  - destruct (HasPrefix kv (name +:+ "=")) eqn:E; simpl.
    + rewrite HasPrefix_app. simpl. lia.
    + by rewrite E.
Qed.

Lemma entries_for_setenv_ne name name' v kvs :
  is_name name = true -> is_name name' = true -> name' <> name ->
  entries_for name (setenv_spec (name' +:+ "=") v kvs) = entries_for name kvs.
Proof.
  intros Hn Hn' Hne.
  assert (forall kv, HasPrefix kv (name' +:+ "=") = true ->
                     HasPrefix kv (name +:+ "=") = false) as Hother.
  { intros kv H1. destruct (HasPrefix kv (name +:+ "=")) eqn:H2; [|done].
    destruct Hne. by eapply prefix_name_inj. }
  unfold entries_for. induction kvs as [|kv kvs IH]; simpl.
  - by rewrite (Hother _ (HasPrefix_app _ _)).
  - destruct (HasPrefix kv (name' +:+ "=")) eqn:E; simpl.
    + by rewrite (Hother _ (HasPrefix_app _ _)), (Hother _ E).
    + destruct (HasPrefix kv (name +:+ "=")); simpl; by rewrite IH.
Qed.

(** X8 (State.SetEnvVar): [SetEnvVar] keeps one entry per variable.  After
    any run of [SetEnvVar] calls on variable names, a variable that was
    written has as many entries as before the run, and one when it had
    none; a variable that was not written has as many as before.  So a
    variable that is set again and again never shows up twice in the
    environment a child process is given. *)
Theorem SetEnvVar_no_duplicates `{GoRuntime} (s : State) (h : Heap) (name : string)
    (ws : list (string * string)) :
  slice_ok (arrays h) (Env s) ->
  is_name name = true ->
  Forall (fun w => is_name w.1 = true) ws ->
  entries_for name (elems (arrays (SetEnvVars ws s h).2) (Env (SetEnvVars ws s h).1))
  = match last_written name ws with
    | Some _ => Nat.max 1 (entries_for name (elems (arrays h) (Env s)))
    | None => entries_for name (elems (arrays h) (Env s))
    end.
Proof.
  intros Hok Hname. induction ws as [|w ws IH] using rev_ind; intros Hws; [done|].
  apply Forall_app in Hws as [Hws Hw]. apply Forall_inv in Hw. specialize (IH Hws).
  rewrite SetEnvVars_snoc, last_written_snoc.
  pose proof (SetEnvVars_ok ws s h Hok) as Hok'.
  destruct (SetEnvVars ws s h) as [s1 h1]. cbn [fst snd] in *.
  destruct (SetEnvVar_method w.1 w.2 s1 h1) as [s2 h2] eqn:E.
  destruct (SetEnvVar_method_elems _ _ _ _ _ _ Hok' E) as [Hel _]. cbn [fst snd].
  rewrite Hel. case_decide as Hw1.
  - rewrite Hw1, entries_for_setenv, IH. destruct (last_written name ws); lia.
  - by rewrite entries_for_setenv_ne, IH.
Qed.

Lemma SetEnvVar_no_duplicates_witness :
  entries_for "NEW"
    (elems (arrays (SetEnvVars (H:=example_runtime) [("NEW", "old"); ("A", "3"); ("NEW", "new")]
                      example_state example_heap).2)
           (Env (SetEnvVars (H:=example_runtime) [("NEW", "old"); ("A", "3"); ("NEW", "new")]
                      example_state example_heap).1))
  = 1.
Proof.
  apply (SetEnvVar_no_duplicates (H:=example_runtime) example_state example_heap "NEW"
           [("NEW", "old"); ("A", "3"); ("NEW", "new")]).
  - exact example_state_ok.
  - reflexivity.
  - repeat (apply Forall_cons; split; [reflexivity|]). apply Forall_nil_2.
Defined.

(** ** Script: the first error, and the environment a flusher is given *)

Section script_entries.
Context `{GoRuntime}.

Lemma stage_of_AddFlusher f s h : stage_of f s h = AddFlusher f s h.
Proof.
  destruct f; unfold stage_of, Exec, FlushFunc, AddFlusher;
    by destruct (append _ _ _) as [m e].
Qed.

Lemma stage_of_env_local f : env_local (stage_of f).
Proof. destruct f; [apply Exec_env_local|apply FlushFunc_env_local]. Qed.


Lemma same_entries_refl reg : same_entries reg reg.
Proof. intros i pf Hi. by exists pf. Qed.

Lemma same_entries_trans reg1 reg2 reg3 :
  same_entries reg1 reg2 -> same_entries reg2 reg3 -> same_entries reg1 reg3.
Proof.
  intros H12 H23 i pf Hi. destruct (H12 _ _ Hi) as (pf2 & Hi2 & Hs2 & Hf2 & Hc2).
  destruct (H23 _ _ Hi2) as (pf3 & Hi3 & Hs3 & Hf3 & Hc3).
  exists pf3. split; [done|]. split; [congruence|]. split; congruence.
Qed.

Lemma same_entries_app reg new : same_entries reg (reg ++ new).
Proof.
  intros i pf Hi. exists pf. split; [|done].
  rewrite lookup_app_l; [done|]. by eapply lookup_lt_Some.
Qed.

Lemma Script_chain_same_entries a b c reg : same_entries reg (Script_chain a b c reg).
Proof.
  intros i pf Hi. rewrite Script_chain_lookup, Hi. simpl. eexists. split; [done|].
  by destruct (chain_entry_fields (seq b (c - b)) (seq a (b - a)) i pf) as (? & ? & ? & _).
Qed.

Lemma Script_loop_same_entries startLen ps s h :
  Forall registry_local ps ->
  same_entries (pendingFlushes s) (pendingFlushes (Script_loop startLen ps s h).1.1).
Proof.
  intros Hps. revert s h. induction Hps as [|p ps Hp Hps IH]; intros s h.
  - apply same_entries_refl.
  - cbn [Script_loop]. destruct (Hp s h) as (new & Hnew & _).
    destruct (p s h) as [[s1 h1] [e|]] eqn:E; simpl in Hnew.
    + simpl. rewrite Hnew. apply same_entries_app.
    + eapply same_entries_trans; [|apply IH]. simpl.
      eapply same_entries_trans; [|apply Script_chain_same_entries].
      rewrite Hnew. apply same_entries_app.
Qed.

(** A stage that keeps to its environment leaves a captured one alone. *)
Lemma env_local_kept (p : Pipe) s h s' h' r cs :
  env_local p -> p s h = (s', h', r) -> kept cs (Env s) (arrays h) ->
  kept cs (Env s') (arrays h') /\ elems (arrays h') cs = elems (arrays h) cs.
Proof.
  intros Hp E (Hok & Hcs & Hsep).
  destruct (Hp _ _ _ _ _ E Hok) as (Hok' & Hext & Hframe & Hptr).
  assert (forall a, sptr cs = Some a -> a < length (arrays h) /\ sptr (Env s) <> Some a)
    as Hcs_ptr.
  { intros a Ha. destruct Hcs as [_ Hp']. rewrite Ha in Hp'.
    destruct Hp' as (arr & Harr%lookup_lt_Some & _). split; [done|].
    destruct Hsep as [Hn|Hne]; congruence. }
  split; [split; [done|split; [by eapply slice_ok_ext|]]|].
  - destruct (sptr cs) as [a|] eqn:Ea; [|by left]. right. rewrite Ea.
    destruct (Hcs_ptr a eq_refl) as [Hlt Hne].
    destruct Hptr as [->|[->|(b & -> & Hb)]]; [congruence|done|].
    intros [= ->]. lia.
  - apply elems_frame. intros a Ha. destruct (Hcs_ptr a Ha) as [Hlt Hne].
    by apply Hframe.
Qed.

Lemma Script_loop_kept startLen ps s h s' h' r cs :
  Forall env_local ps -> Script_loop startLen ps s h = (s', h', r) ->
  kept cs (Env s) (arrays h) ->
  kept cs (Env s') (arrays h') /\ elems (arrays h') cs = elems (arrays h) cs.
Proof.
  intros Hps. revert s h. induction Hps as [|p ps Hp Hps IH]; intros s h.
  - simpl. by intros [= <- <- <-].
  - cbn [Script_loop]. destruct (p s h) as [[s1 h1] [e|]] eqn:E.
    + intros [= <- <- <-]. by eapply env_local_kept.
    + intros Hloop Hkept.
      destruct (env_local_kept _ _ _ _ _ _ _ Hp E Hkept) as [Hkept1 Hel1].
      destruct (IH _ _ Hloop Hkept1) as [Hkept2 Hel2].
      split; [done|congruence].
Qed.
End script_entries.

(** X9 (Script): [Script] stops at the first stage that returns an error.
    The error is returned as it is, the stages behind it do not run (the
    result does not depend on them), the entries the failing stage has added
    stay in the registry as the stage left it, without wait dependencies,
    and [s.Dir] and [s.Env] are put back. *)
Theorem Script_stops_at_first_error `{GoRuntime} (pre post : list Pipe) (p : Pipe)
    (s s1 s2 : State) (h h1 h2 : Heap) (e : error) :
  Script_loop (length (pendingFlushes s)) pre (enter_scope s h).1 (enter_scope s h).2
  = (s1, h1, None) ->
  p s1 h1 = (s2, h2, Some e) ->
  Script (pre ++ p :: post) s h = (set_Env (Env s) (set_Dir (Dir s) s2), h2, Some e).
Proof.
  intros Hpre Hp. unfold Script. destruct (enter_scope s h) as [s0 h0]. simpl in Hpre.
  rewrite Script_loop_app, Hpre. cbn [Script_loop]. by rewrite Hp.
Qed.

Lemma Script_stops_at_first_error_witness :
  Script (H:=example_runtime)
    ([SetEnvVar (H:=example_runtime) "A" "x"; FlushFunc (H:=example_runtime) 0]
     ++ MkDir (H:=example_runtime) "d" 493 :: [FlushFunc (H:=example_runtime) 1])
    example_state example_heap
  = Script (H:=example_runtime)
      ([SetEnvVar (H:=example_runtime) "A" "x"; FlushFunc (H:=example_runtime) 0]
       ++ MkDir (H:=example_runtime) "d" 493 :: [])
      example_state example_heap.
Proof.
  rewrite (Script_stops_at_first_error (H:=example_runtime)
             [SetEnvVar (H:=example_runtime) "A" "x"; FlushFunc (H:=example_runtime) 0]
             [FlushFunc (H:=example_runtime) 1] (MkDir (H:=example_runtime) "d" 493)
             example_state _ _ example_heap _ _ "mkdir: file exists" eq_refl eq_refl).
  vm_compute. reflexivity.
Defined.

(** X10 (Script, AddFlusher): a flusher that is registered inside a [Script]
    keeps the scope it was registered in.  Its entry holds the streams, the
    directory and the elements of the environment as the stages before it
    have left them, whatever the stages behind it do and although [Script]
    puts the caller's directory and environment back when it returns. *)
Theorem Script_flusher_keeps_scope `{GoRuntime} (pre post : list Pipe) (f : Flusher)
    (s s1 : State) (h h1 : Heap) :
  Forall env_local pre -> Forall env_local post -> Forall registry_local post ->
  slice_ok (arrays h) (Env s) ->
  Script_loop (length (pendingFlushes s)) pre (enter_scope s h).1 (enter_scope s h).2
  = (s1, h1, None) ->
  exists pf,
    pendingFlushes (Script (pre ++ stage_of f :: post) s h).1.1
      !! length (pendingFlushes s1) = Some pf
    /\ pf_f pf = f
    /\ Stdin (pf_s pf) = Stdin s1 /\ Stdout (pf_s pf) = Stdout s1
    /\ Stderr (pf_s pf) = Stderr s1 /\ Dir (pf_s pf) = Dir s1
    /\ elems (arrays (Script (pre ++ stage_of f :: post) s h).1.2) (Env (pf_s pf))
       = elems (arrays h1) (Env s1)
    /\ elems (arrays (Script (pre ++ stage_of f :: post) s h).1.2)
             (Env (Script (pre ++ stage_of f :: post) s h).1.1)
       = elems (arrays h) (Env s).
Proof.
  intros Hpre Hpost Hreg Hok Hloop.
  destruct (Script (pre ++ stage_of f :: post) s h) as [[s' h'] r] eqn:ES.
  assert (Forall env_local (pre ++ stage_of f :: post)) as Hall.
  { apply Forall_app. split; [done|]. apply Forall_cons. split; [|done].
    apply stage_of_env_local. }
  destruct (Script_scope _ _ _ _ _ _ Hall Hok ES) as (Hcaller & _).
  destruct (Script_restores (pre ++ stage_of f :: post) s h) as [_ Henv].
  rewrite ES in Henv. cbn [fst snd] in *. rewrite Henv.
  revert ES. unfold Script. unfold enter_scope in *.
  destruct (append (arrays h) nil_slice (elems (arrays h) (Env s))) as [m0 e0] eqn:Ha0.
  cbn [fst snd] in Hloop.
  destruct (clone_spec _ _ _ _ Hok Ha0) as (Hel0 & Hok0 & Hext0 & Hsame0 & Hptr0).
  assert (in_scope (arrays h) (Env s1) (arrays h1)) as (Hok1 & _).
  { eapply (Script_loop_in_scope (arrays h)); [exact Hpre|exact Hloop|].
    split; [done|]. split; [done|]. split; [done|].
    simpl. destruct Hptr0 as [-> | ->]; [by left|right; by eexists]. }
  rewrite Script_loop_app, Hloop. cbn [Script_loop].
  rewrite stage_of_AddFlusher. unfold AddFlusher.
  destruct (append (arrays h1) nil_slice (elems (arrays h1) (Env s1))) as [m e] eqn:Ha.
  destruct (clone_spec _ _ _ _ Hok1 Ha) as (Hel & Hoke & Hext & Hsame & Hptr).
  set (pf0 := mkPendingFlush (set_Env e (set_pendingFlushes () s1)) f [] 0 []).
  set (s2 := set_pendingFlushes (Script_chain _ _ _ _) _).
  destruct (Script_loop _ post s2 _) as [[s3 h3] r3] eqn:E3. intros [= <- <- <-].
  pose proof (Script_loop_same_entries (length (pendingFlushes s)) post s2
                (set_arrays m h1) Hreg) as Hsame_entries.
  rewrite E3 in Hsame_entries. cbn [fst snd] in Hsame_entries.
  destruct (Script_chain_same_entries (length (pendingFlushes s))
              (length (pendingFlushes s1))
              (length (pendingFlushes s1 ++ [pf0])) (pendingFlushes s1 ++ [pf0])
              (length (pendingFlushes s1)) pf0) as (pf1 & Hpf1 & Hs1 & Hf1 & _).
  { rewrite lookup_app_r by lia. by rewrite Nat.sub_diag. }
  destruct (Hsame_entries _ _ Hpf1) as (pf & Hpf & Hs & Hf & _).
  exists pf. split; [exact Hpf|]. rewrite Hs, Hf, Hs1, Hf1.
  repeat (split; [reflexivity|]). split; [|done].
  destruct (Script_loop_kept _ _ _ _ _ _ _ e Hpost E3) as [_ Hkeep].
  - split; [by eapply slice_ok_ext|]. split; [done|].
    destruct Hptr as [Hn|Hf0]; [by left|]. right. cbn [Env pf0 set_Env pf_s]. rewrite Hf0.
    destruct Hok1 as [_ Hp1]. simpl. destruct (sptr (Env s1)) as [a|]; [|done].
    destruct Hp1 as (arr & Harr%lookup_lt_Some & _). intros [= Heq]. lia.
  - cbn [pf0 pf_s Env set_Env]. simpl in Hkeep. by rewrite Hkeep.
Qed.

Lemma Script_flusher_keeps_scope_witness :
  exists pf,
    pendingFlushes (Script (H:=example_runtime) setenv_script example_state example_heap).1.1
      !! 0 = Some pf
    /\ elems (arrays (Script (H:=example_runtime) setenv_script
                        example_state example_heap).1.2) (Env (pf_s pf))
       = ["A=1"; "B=2"; "NEW=old"]
    /\ elems (arrays (Script (H:=example_runtime) setenv_script
                        example_state example_heap).1.2)
             (Env (Script (H:=example_runtime) setenv_script
                     example_state example_heap).1.1)
       = ["A=1"; "B=2"].
Proof.
  destruct (Script_flusher_keeps_scope (H:=example_runtime)
              [SetEnvVar (H:=example_runtime) "NEW" "old"]
              [SetEnvVar (H:=example_runtime) "NEW" "new"] (flushFunc 0)
              example_state setenv_before.1.1 example_heap setenv_before.1.2)
    as (pf & Hpf & _ & _ & _ & _ & _ & Hel & Hcaller).
  - apply Forall_cons_2; [apply SetEnvVar_env_local|apply Forall_nil_2].
  - apply Forall_cons_2; [apply SetEnvVar_env_local|apply Forall_nil_2].
  - apply Forall_cons_2; [apply SetEnvVar_registry_local|apply Forall_nil_2].
  - exact example_state_ok.
  - vm_compute. reflexivity.
  - exists pf. split; [exact Hpf|]. split; [exact Hel|exact Hcaller].
Defined.

(** ** FlushAll: the closers *)

Lemma closes_app x log log' : closes x (log ++ log') = closes x log + closes x log'.
Proof. induction log as [|y log IH]; simpl; [done|]. rewrite IH. lia. Qed.

Lemma holders_replicate a pfs : holders a (replicate (length pfs) GWait) pfs = held a pfs.
Proof. induction pfs as [|pf pfs IH]; simpl; [done|]. by rewrite IH. Qed.

Lemma holders_insert_same a gs pfs j g g' :
  gs !! j = Some g -> signalled g' = signalled g ->
  holders a (<[j := g']> gs) pfs = holders a gs pfs.
Proof.
  revert j pfs. induction gs as [|g0 gs IH]; intros [|j] [|pf pfs]; simpl; try done.
  - intros [= ->] ->. done.
  - intros Hj Hs. by rewrite (IH j pfs Hj Hs).
Qed.

Lemma holders_insert_signal a gs pfs j g g' pf :
  gs !! j = Some g -> pfs !! j = Some pf ->
  signalled g = false -> signalled g' = true ->
  holders a (<[j := g']> gs) pfs + count a (pf_c pf) = holders a gs pfs.
Proof.
  revert j pfs. induction gs as [|g0 gs IH]; intros [|j] [|pf0 pfs]; simpl; try done.
  - intros [= ->] [= ->] -> ->. lia.
  - intros Hj Hp Hs Hs'. specialize (IH j pfs Hj Hp Hs Hs'). lia.
Qed.

Lemma holders_c a gs pfs pfs' :
  pf_c <$> pfs' = pf_c <$> pfs -> holders a gs pfs' = holders a gs pfs.
Proof.
  revert pfs pfs'. induction gs as [|g gs IH]; intros [|pf pfs] [|pf' pfs'];
    simpl; try done.
  intros [= Hc Hrest]. by rewrite Hc, (IH _ _ Hrest).
Qed.

Lemma holders_bound a gs pfs j g pf :
  gs !! j = Some g -> pfs !! j = Some pf -> signalled g = false ->
  count a (pf_c pf) <= holders a gs pfs.
Proof.
  revert j pfs. induction gs as [|g0 gs IH]; intros [|j] [|pf0 pfs]; simpl; try done.
  - intros [= ->] [= ->] ->. lia.
  - intros Hj Hp Hs. specialize (IH j pfs Hj Hp Hs). lia.
Qed.

(** The entries that still hold a closer are none exactly when every entry
    that holds it has run [pf.done()]. *)
Lemma holders_0 a gs pfs :
  length gs = length pfs ->
  holders a gs pfs = 0
  <-> (forall i pf g, pfs !! i = Some pf -> a ∈ pf_c pf -> gs !! i = Some g ->
         signalled g = true).
Proof.
  revert pfs. induction gs as [|g gs IH]; intros [|pf pfs]; simpl; try done.
  intros [= Hlen]. specialize (IH pfs Hlen). split.
  - intros Hz [|i] pf' g'; simpl.
    + intros [= <-] Hin [= <-]. destruct (signalled g); [done|].
      pose proof (count_pos _ _ Hin). lia.
    + apply IH. lia.
  - intros Hall. assert (holders a gs pfs = 0) as ->.
    { apply IH. intros i. apply (Hall (S i)). }
    destruct (signalled g) eqn:Hs; [done|].
    rewrite count_0; [done|]. intros Hin. specialize (Hall 0 pf g eq_refl Hin eq_refl).
    congruence.
Qed.

Lemma wg_Done_None l : foldl wg_Done None l = None.
Proof. by induction l. Qed.

(** The signals of [pf.done()] leave the [c] lists alone. *)
Lemma wg_Done_fold_c (l : list nat) (pfs pfs' : list pendingFlush) :
  foldl wg_Done (Some pfs) l = Some pfs' ->
  pf_c <$> pfs' = pf_c <$> pfs /\ length pfs' = length pfs.
Proof.
  revert pfs. induction l as [|x l IH]; intros pfs; cbn [foldl].
  - by intros [= <-].
  - unfold wg_Done at 2. destruct (pfs !! x) as [pfx|] eqn:Ex; [|apply IH].
    destruct (pf_wg pfx) as [|n]; [by rewrite wg_Done_None|].
    intros Hf. destruct (IH _ Hf) as [Hc Hlen]. rewrite Hc, Hlen, length_insert.
    split; [|done]. rewrite list_fmap_insert. apply list_insert_id.
    by rewrite list_lookup_fmap, Ex.
Qed.

(** One [Close] on a closer whose count is a positive [int32]. *)
Lemma Close_one (c : nat) (h : Heap) :
  NoDup (rc_c <$> closers h) ->
  (forall o, closers h !! c = Some o -> (1 <= refs o < 2 ^ 31)%Z) ->
  rc_c <$> closers (Close (Some c) h).1 = rc_c <$> closers h
  /\ forall a o, closers h !! a = Some o ->
       exists o1, closers (Close (Some c) h).1 !! a = Some o1
         /\ rc_c o1 = rc_c o
         /\ refs o1 = (refs o - (if decide (c = a) then 1 else 0))%Z
         /\ closes (rc_c o) (closed (Close (Some c) h).1)
            = closes (rc_c o) (closed h)
              + (if decide (c = a /\ refs o = 1%Z) then 1 else 0).
Proof.
  intros Hnd Hb. unfold Close. destruct (closers h !! c) as [oc|] eqn:Ec.
  - specialize (Hb oc eq_refl). rewrite wrap32_small by lia.
    assert (rc_c <$> <[c := mkRefCloser (rc_c oc) (refs oc - 1)]> (closers h)
            = rc_c <$> closers h) as Hends.
    { rewrite list_fmap_insert. apply list_insert_id. by rewrite list_lookup_fmap, Ec. }
    assert (forall a o, closers h !! a = Some o -> c <> a -> rc_c oc <> rc_c o) as Hother.
    { intros a o Ha Hne Heq. apply Hne.
      apply (NoDup_lookup _ _ _ (rc_c oc) Hnd); rewrite list_lookup_fmap.
      - by rewrite Ec.
      - by rewrite Ha, Heq. }
    pose proof (lookup_lt_Some _ _ _ Ec) as Hlt.
    case_decide as Hz; simpl; (split; [exact Hends|]); intros a o Ha.
    + destruct (decide (c = a)) as [<-|Hne].
      * rewrite list_lookup_insert_eq by done. eexists. split; [done|].
        assert (o = oc) as -> by congruence. simpl. rewrite closes_app. simpl.
        rewrite !decide_True by (done || (split; [done|lia])). repeat split; lia.
      * rewrite list_lookup_insert_ne by done. exists o. split; [done|].
        rewrite closes_app. simpl. rewrite decide_False by (by apply (Hother a o)).
        rewrite decide_False by tauto. repeat split; lia.
    + destruct (decide (c = a)) as [<-|Hne].
      * rewrite list_lookup_insert_eq by done. eexists. split; [done|].
        assert (o = oc) as -> by congruence. simpl.
        rewrite decide_False by (intros [_ ?]; lia). repeat split; lia.
      * rewrite list_lookup_insert_ne by done. exists o. split; [done|].
        rewrite decide_False by tauto. repeat split; lia.
  - simpl. split; [done|]. intros a o Ha. exists o. split; [done|].
    assert (c <> a) by congruence.
    rewrite !decide_False by tauto. repeat split; lia.
Qed.

(** The [Close] calls of [pf.done()]: every count goes down by the number
    of times its closer is in the list, and an endpoint is closed, once,
    exactly when that brings its count to zero. *)
Lemma Close_fold (l : list nat) :
  forall h,
    NoDup (rc_c <$> closers h) ->
    (forall a o, closers h !! a = Some o ->
       (Z.of_nat (count a l) <= refs o < 2 ^ 31)%Z) ->
    rc_c <$> closers (foldl (fun h c => (Close (Some c) h).1) h l) = rc_c <$> closers h
    /\ forall a o, closers h !! a = Some o ->
         exists o', closers (foldl (fun h c => (Close (Some c) h).1) h l) !! a = Some o'
           /\ rc_c o' = rc_c o
           /\ refs o' = (refs o - Z.of_nat (count a l))%Z
           /\ closes (rc_c o) (closed (foldl (fun h c => (Close (Some c) h).1) h l))
              = closes (rc_c o) (closed h)
                + (if decide (0 < count a l /\ refs o = Z.of_nat (count a l)) then 1 else 0).
Proof.
  induction l as [|c l IH]; intros h Hnd Hb; cbn [foldl].
  - split; [done|]. intros a o Ha. exists o. simpl. repeat split; (done || lia).
  - destruct (Close_one c h Hnd) as [Hends1 Hone].
    { intros o Ho. specialize (Hb c o Ho). cbn [count] in Hb.
      rewrite decide_True in Hb by done. lia. }
    destruct (IH (Close (Some c) h).1) as [Hends Hfold].
    { by rewrite Hends1. }
    { intros a o1 Ha1.
      destruct (lookup_lt_is_Some_2 (closers h) a) as [o Ha].
      { apply lookup_lt_Some in Ha1.
        apply (f_equal length) in Hends1. rewrite !length_fmap in Hends1. lia. }
      destruct (Hone a o Ha) as (o1' & Ha1' & _ & Hrefs & _).
      assert (o1' = o1) as -> by congruence.
      specialize (Hb a o Ha). cbn [count] in Hb. case_decide; lia. }
    split; [by rewrite Hends|]. intros a o Ha.
    destruct (Hone a o Ha) as (o1 & Ha1 & Hc1 & Hrefs1 & Hcl1).
    destruct (Hfold a o1 Ha1) as (o' & Ha' & Hc' & Hrefs' & Hcl').
    exists o'. split; [done|]. split; [congruence|].
    specialize (Hb a o Ha). cbn [count] in *. rewrite Hc1 in Hcl'. rewrite Hcl', Hcl1.
    split; repeat case_decide; lia.
Qed.

Lemma closers_inv_init reg h : closers_ok reg h -> closers_inv reg h (FlushAll_init reg h).
Proof.
  intros [Hrefs Hnd] _. simpl. split; [by rewrite length_replicate|].
  split; [done|]. split; [done|]. split; [done|]. intros a o Ha.
  rewrite holders_replicate. destruct (Hrefs a o Ha) as [Hr Hb]. done.
Qed.

(** A step that leaves the heap, the entries, and which goroutines have run
    [pf.done()] as they are. *)
Lemma closers_inv_same reg h0 c c' :
  closers_inv reg h0 c -> is_panic (c_main c) = false ->
  (forall a, holders a (c_gs c') (c_pfs c') = holders a (c_gs c) (c_pfs c)) ->
  length (c_gs c') = length (c_gs c) ->
  c_pfs c' = c_pfs c -> c_heap c' = c_heap c ->
  closers_inv reg h0 c'.
Proof.
  intros Hinv Hp Hh Hlen Hpfs Hheap _.
  destruct (Hinv Hp) as (Hl & Hc & Hends & Hnd & Hrefs).
  rewrite Hlen, Hpfs, Hheap. repeat (split; [done|]).
  intros a o Ha. rewrite <- Hpfs, Hh. by apply Hrefs.
Qed.

Lemma step_closers reg h0 a c c' :
  step a c = Some c' -> closers_inv reg h0 c -> closers_inv reg h0 c'.
Proof.
  unfold step. destruct (is_panic (c_main c)) eqn:Epanic; [done|].
  destruct a as [i|i err|i|i|].
  - destruct (c_gs c !! i) as [[| | | |]|] eqn:Eg; try done.
    destruct (c_pfs c !! i) as [pfi|] eqn:Ep; [|done]. case_decide as Hz; [|done].
    intros [= <-] Hinv. apply (closers_inv_same reg h0 c); simpl; try done.
    + intros a. by eapply holders_insert_same.
    + by rewrite length_insert.
  - destruct (c_gs c !! i) as [[| | | |]|] eqn:Eg; try done.
    intros [= <-] Hinv. apply (closers_inv_same reg h0 c); simpl; try done.
    + intros a. by eapply holders_insert_same.
    + by rewrite length_insert.
  - destruct (c_gs c !! i) as [[| |err| |]|] eqn:Eg; try done.
    destruct (c_pfs c !! i) as [pfi|] eqn:Ep; [|done].
    unfold pf_done.
    set (h' := foldl (fun h c => (Close (Some c) h).1) (c_heap c) (pf_c pfi)).
    destruct (foldl wg_Done (Some (c_pfs c)) (pf_wf pfi)) as [pfs'|] eqn:Ef;
      intros [= <-] Hinv; [|by intros ?].
    intros _. destruct (Hinv Epanic) as (Hl & Hc & Hends & Hnd & Hrefs).
    destruct (wg_Done_fold_c _ _ _ Ef) as [Hc' Hlen']. cbn [c_gs c_pfs c_heap].
    destruct (Close_fold (pf_c pfi) (c_heap c)) as [Hends' Hfold].
    { by rewrite Hends. }
    { intros a o Ha. destruct (Hrefs a o Ha) as (Hr & Hb & _). split; [|done].
      rewrite Hr. apply inj_le. by eapply holders_bound. }
    fold h' in Hends', Hfold.
    split; [rewrite length_insert; lia|]. split; [congruence|].
    split; [congruence|]. split; [done|]. intros a o' Ha'.
    destruct (lookup_lt_is_Some_2 (closers (c_heap c)) a) as [o Ha].
    { apply lookup_lt_Some in Ha'.
      apply (f_equal length) in Hends'. rewrite !length_fmap in Hends'. lia. }
    destruct (Hfold a o Ha) as (o'' & Ha'' & Hco & Hro & Hcl).
    assert (o'' = o') as -> by congruence.
    destruct (Hrefs a o Ha) as (Hr & Hb & Hcount).
    rewrite (holders_c _ _ _ _ Hc').
    pose proof (holders_insert_signal a _ _ _ _ (GSend err) _ Eg Ep eq_refl eq_refl) as Hsig.
    rewrite Hco, Hcl. split; [lia|]. split; [lia|].
    rewrite <- Hcount. repeat case_decide; lia.
  - destruct (c_gs c !! i) as [[| | |err|]|] eqn:Eg; try done.
    intros [= <-] Hinv. apply (closers_inv_same reg h0 c); simpl; try done.
    + intros a. by eapply holders_insert_same.
    + by rewrite length_insert.
  - unfold step_main. intros Hstep Hinv.
    apply (closers_inv_same reg h0 c); try done;
      destruct (c_main c) as [[|m] first|m first k|first|]; try done.
    all: try (by injection Hstep as <-).
    all: try (destruct (c_chan c) as [|e chan]; [done|]; by injection Hstep as <-).
    all: by destruct (c_registry c !! k); injection Hstep as <-.
Qed.

Lemma run_closers reg h0 acts c c' :
  run acts c = Some c' -> closers_inv reg h0 c -> closers_inv reg h0 c'.
Proof.
  revert c. induction acts as [|a acts IH]; intros c; simpl.
  - by intros [= <-].
  - destruct (step a c) as [c1|] eqn:E; [|done]. intros Hrun Hinv.
    eapply IH; [done|]. by eapply step_closers.
Qed.

(** ** Line: a pipeline of flushers *)

Lemma Line_attach1_state rc x pf h :
  pf_s (Line_attach1 rc x (pf, h)).1 = pf_s pf
  /\ pf_f (Line_attach1 rc x (pf, h)).1 = pf_f pf
  /\ pipes (Line_attach1 rc x (pf, h)).2 = pipes h
  /\ closed (Line_attach1 rc x (pf, h)).2 = closed h
  /\ arrays (Line_attach1 rc x (pf, h)).2 = arrays h.
Proof.
  unfold Line_attach1. destruct rc; [|done]. by destruct (is_Closer x && _).
Qed.

Lemma Close_pipes rc h : pipes (Close rc h).1 = pipes h.
Proof.
  unfold Close. destruct rc as [a|]; [|done]. destruct (closers h !! a); [|done].
  by case_decide.
Qed.

Section line_flushers.
Context `{GoRuntime}.

(** One iteration of the loop of [Line] for a stage that registers a
    flusher: the inner loop visits the one new entry. *)
Lemma Line_loop_flusher o r f rest s h :
  Line_loop o r (stage_of f :: rest) s h
  = let '(closeIn, h1) := Line_closeIn r h in
    let '(r', closeOut, s2, h2) :=
      Line_junction (match rest with [] => true | _ => false end) o s h1 in
    let '(m, e) := append (arrays h2) nil_slice (elems (arrays h2) (Env s2)) in
    let pf := mkPendingFlush (set_Env e (set_pendingFlushes tt s2)) f [] 0 [] in
    let '(pf', h3) :=
      Line_attach1 closeOut (Stderr s2)
        (Line_attach1 closeOut (Stdout s2)
           (Line_attach1 closeIn (Stdin s2) (pf, set_arrays m h2))) in
    Line_loop o r' rest
      (Line_next_Stdin r' (set_pendingFlushes (pendingFlushes s2 ++ [pf']) s2))
      (Close closeOut (Close closeIn h3).1).1.
Proof.
  cbn [Line_loop]. destruct (Line_closeIn r h) as [closeIn h1].
  destruct (Line_junction _ o s h1) as [[[r' closeOut] s2] h2].
  rewrite stage_of_AddFlusher. unfold AddFlusher.
  destruct (append _ _ _) as [m e].
  cbn [pendingFlushes set_pendingFlushes]. rewrite length_app. cbn [length].
  replace (length (pendingFlushes s2) + 1 - length (pendingFlushes s2)) with 1 by lia.
  cbn [seq foldl]. unfold Line_attach. cbn [pendingFlushes set_pendingFlushes].
  rewrite lookup_app_r by lia. rewrite Nat.sub_diag. cbn [lookup list_lookup].
  cbn [pf_s Stdin Stdout Stderr set_Env set_pendingFlushes].
  destruct (Line_attach1 closeOut _ _) as [pf' h3].
  cbn [pendingFlushes set_pendingFlushes].
  rewrite insert_app_r_alt by lia. rewrite Nat.sub_diag. cbn [insert list_insert].
  destruct (Close closeIn h3) as [h5 e5]. cbn [fst].
  destruct (Close closeOut h5) as [h6 e6]. reflexivity.
Qed.
Lemma Line_attach3_state ci co x1 x2 x3 pf h :
  let res := Line_attach1 co x3 (Line_attach1 co x2 (Line_attach1 ci x1 (pf, h))) in
  pf_s res.1 = pf_s pf /\ pf_f res.1 = pf_f pf
  /\ pf_wg res.1 = pf_wg pf /\ pf_wf res.1 = pf_wf pf
  /\ pipes res.2 = pipes h.
Proof.
  intros res. unfold res.
  destruct (Line_attach1_state ci x1 pf h) as (Hs1 & Hf1 & Hp1 & _).
  destruct (Line_attach1_fields ci x1 pf h) as (Hg1 & Hw1).
  destruct (Line_attach1 ci x1 (pf, h)) as [pf1 h1].
  destruct (Line_attach1_state co x2 pf1 h1) as (Hs2 & Hf2 & Hp2 & _).
  destruct (Line_attach1_fields co x2 pf1 h1) as (Hg2 & Hw2).
  destruct (Line_attach1 co x2 (pf1, h1)) as [pf2 h2].
  destruct (Line_attach1_state co x3 pf2 h2) as (Hs3 & Hf3 & Hp3 & _).
  destruct (Line_attach1_fields co x3 pf2 h2) as (Hg3 & Hw3).
  destruct (Line_attach1 co x3 (pf2, h2)) as [pf3 h3].
  simpl in *. repeat split; congruence.
Qed.

Lemma Line_closeIn_pipes r h : pipes (Line_closeIn r h).2 = pipes h.
Proof. by destruct r. Qed.

(** The streams of the entries of a pipeline of flushers, and the State the
    loop of [Line] ends in. *)
Lemma Line_loop_wiring o (fs : list Flusher) :
  forall r s h,
    exists new s' h',
      Line_loop o r (stage_of <$> fs) s h = (s', h', None)
      /\ pendingFlushes s' = pendingFlushes s ++ new
      /\ pf_f <$> new = fs
      /\ (fun pf => Stdin (pf_s pf)) <$> new
         = match fs with
           | [] => []
           | _ => Stdin s :: (PipeReader <$> seq (pipes h) (length fs - 1))
           end
      /\ (fun pf => Stdout (pf_s pf)) <$> new
         = match fs with
           | [] => []
           | _ => (PipeWriter <$> seq (pipes h) (length fs - 1)) ++ [o]
           end
      /\ Forall (fun pf => Stderr (pf_s pf) = Stderr s /\ Dir (pf_s pf) = Dir s
                           /\ pf_wg pf = 0 /\ pf_wf pf = []) new
      /\ Stderr s' = Stderr s /\ Dir s' = Dir s /\ Env s' = Env s
      /\ Stdout s' = match fs with [] => Stdout s | _ => o end
      /\ Stdin s' = (if decide (2 <= length fs)
                     then PipeReader (pipes h + length fs - 2) else Stdin s)
      /\ pipes h' = pipes h + (length fs - 1).
Proof.
  induction fs as [|f rest IH]; intros r s h.
  - exists [], s, h. simpl. rewrite app_nil_r. repeat split; (done || lia).
  - cbn [fmap list_fmap]. rewrite Line_loop_flusher.
    pose proof (Line_closeIn_pipes r h) as Hp1.
    destruct (Line_closeIn r h) as [closeIn h1]. cbn [snd] in Hp1.
    destruct rest as [|f' rest'].
    + cbn [fmap list_fmap Line_junction].
      destruct (append _ _ _) as [m e].
      set (pf := mkPendingFlush _ f [] 0 []).
      destruct (Line_attach3_state closeIn None (Stdin (set_Stdout o s))
                  (Stdout (set_Stdout o s)) (Stderr (set_Stdout o s)) pf (set_arrays m h1))
        as (Hs & Hf & Hg & Hw & Hp).
      destruct (Line_attach1 None _ _) as [pf' h3]. cbn [fst snd] in *.
      eexists [pf'], _, _. split; [reflexivity|]. cbn [Line_next_Stdin Close fst].
      rewrite Close_pipes, Hp. simpl. rewrite Hs, Hf. simpl.
      repeat split; try (done || lia). apply Forall_singleton. by rewrite Hs, Hg, Hw.
    + cbn [fmap list_fmap]. unfold Line_junction, new_refCloser.
      cbn [closers pipes arrays closed set_closers].
      destruct (append _ _ _) as [m e].
      set (pf := mkPendingFlush _ f [] 0 []).
      set (h2 := set_arrays m _).
      destruct (Line_attach3_state closeIn (Some (length (closers h1)))
                  (Stdin (set_Stdout (PipeWriter (pipes h1)) s))
                  (Stdout (set_Stdout (PipeWriter (pipes h1)) s))
                  (Stderr (set_Stdout (PipeWriter (pipes h1)) s)) pf h2)
        as (Hs & Hf & Hg & Hw & Hp).
      destruct (Line_attach1 (Some _) _ _) as [pf' h3]. cbn [fst snd] in *.
      set (s4 := Line_next_Stdin _ _). set (h6 := (Close _ _).1).
      destruct (IH (Some (pipes h1)) s4 h6)
        as (new & s' & h' & Hloop & Hreg & Hfs & Hin & Hout & Hall & He & Hd & Hv & Hso & Hsi & Hpp).
      assert (pipes h6 = S (pipes h)) as Hp6.
      { unfold h6. rewrite !Close_pipes, Hp. unfold h2. simpl. by rewrite Hp1. }
      exists (pf' :: new), s', h'. split; [exact Hloop|].
      rewrite Hp6 in Hin, Hout, Hsi, Hpp. simpl in Hin, Hout, Hsi, Hpp, Hreg.
      rewrite Nat.sub_0_r in Hin, Hout, Hpp. rewrite Hp1 in Hin.
      split; [by rewrite Hreg, <- app_assoc|].
      split; [by rewrite fmap_cons, Hfs, Hf|].
      split; [by rewrite fmap_cons, Hin, Hs|].
      split; [rewrite fmap_cons, Hout, Hs; unfold pf; simpl; by rewrite Hp1|].
      split; [apply Forall_cons; split; [by rewrite Hs, Hg, Hw|exact Hall]|].
      rewrite He, Hd, Hv, Hso, Hsi, Hpp. simpl.
      repeat split; try done; try lia.
      repeat case_decide; try lia; f_equal; lia.
Qed.
End line_flushers.

(** X11 (Line): [Line] of stages that register one flusher each connects
    them in the order of the stages.  The first entry reads from the
    caller's [Stdin], the last one writes to the caller's [Stdout], and
    between two neighbours there is one new pipe: the earlier entry writes
    to its write end and the later one reads from its read end.  Every entry
    has the caller's [Stderr] and [Dir], and no wait dependency, so the
    flushers run at the same time.  When [Line] returns, [s.Stdout] is the
    caller's again, but [s.Stdin] is left on the read end of the last pipe
    when there are two stages or more. *)
Theorem Line_connects_flushers `{GoRuntime} (fs : list Flusher) (s : State) (h : Heap) :
  fs <> [] ->
  exists new,
    (Line (stage_of <$> fs) s h).2 = None
    /\ pendingFlushes (Line (stage_of <$> fs) s h).1.1 = pendingFlushes s ++ new
    /\ pf_f <$> new = fs
    /\ (fun pf => Stdin (pf_s pf)) <$> new
       = Stdin s :: (PipeReader <$> seq (pipes h) (length fs - 1))
    /\ (fun pf => Stdout (pf_s pf)) <$> new
       = (PipeWriter <$> seq (pipes h) (length fs - 1)) ++ [Stdout s]
    /\ Forall (fun pf => Stderr (pf_s pf) = Stderr s /\ Dir (pf_s pf) = Dir s
                         /\ pf_wg pf = 0 /\ pf_wf pf = []) new
    /\ Stdout (Line (stage_of <$> fs) s h).1.1 = Stdout s
    /\ Stdin (Line (stage_of <$> fs) s h).1.1
       = (if decide (2 <= length fs) then PipeReader (pipes h + length fs - 2) else Stdin s).
Proof.
  intros Hne. unfold Line; unfold enter_scope.
  destruct (append _ _ _) as [m e].
  destruct (Line_loop_wiring (Stdout (set_Env e s)) fs None (set_Env e s) (set_arrays m h))
    as (new & s' & h' & Hloop & Hreg & Hfs & Hin & Hout & Hall & He & Hd & Hv & Hso & Hsi & Hpp).
  rewrite Hloop. exists new. cbn [fst snd Stdin Stdout set_Env set_Dir pendingFlushes].
  destruct fs as [|f fs]; [done|]. simpl in *.
  repeat split; done.
Qed.

Lemma Line_connects_flushers_witness :
  exists new,
    (Line (H:=example_runtime) (stage_of (H:=example_runtime) <$> example_flushers)
       example_state example_heap).2 = None
    /\ pendingFlushes
         (Line (H:=example_runtime) (stage_of (H:=example_runtime) <$> example_flushers)
            example_state example_heap).1.1 = [] ++ new
    /\ pf_f <$> new = example_flushers
    /\ (fun pf => Stdin (pf_s pf)) <$> new = [EmptyReader; PipeReader 0; PipeReader 1]
    /\ (fun pf => Stdout (pf_s pf)) <$> new = [PipeWriter 0; PipeWriter 1; Buffer 0].
Proof.
  destruct (Line_connects_flushers (H:=example_runtime) example_flushers
              example_state example_heap)
    as (new & Herr & Hreg & Hfs & Hin & Hout & _); [done|].
  exists new. split; [exact Herr|]. split; [exact Hreg|]. split; [exact Hfs|].
  split; [exact Hin|exact Hout].
Defined.

(** The endpoint of a closer is closed when the last entry that holds the
    closer runs [pf.done()]. *)
Lemma closes_with_holders (reg : list pendingFlush) (h : Heap)
    (acts : list action) (c : config) (a : nat) (o : refCloser) :
  closers_ok reg h ->
  (forall i pf, reg !! i = Some pf -> waits i reg <= pf_wg pf) ->
  run acts (FlushAll_init reg h) = Some c ->
  closers h !! a = Some o -> 0 < held a reg ->
  closes (rc_c o) (closed (c_heap c))
  = closes (rc_c o) (closed h) + (if decide (holders a (c_gs c) reg = 0) then 1 else 0)
  /\ (holders a (c_gs c) reg = 0
      <-> forall i pf g, reg !! i = Some pf -> a ∈ pf_c pf -> c_gs c !! i = Some g ->
            signalled g = true)
  /\ (forall first, c_main c = MReturn first ->
        closes (rc_c o) (closed (c_heap c)) = closes (rc_c o) (closed h) + 1).
Proof.
  intros Hok Hle Hrun Ha Hheld.
  destruct (run_wait reg _ _ _ Hrun (wait_inv_init reg h Hle)) as (Hp & _).
  pose proof (run_inv _ _ _ _ Hrun (flush_inv_init reg h)) as (Hlen & Hmain & Hperm & _).
  destruct (run_closers reg h _ _ _ Hrun (closers_inv_init reg h Hok) Hp)
    as (Hl & Hc & Hends & Hnd & Hrefs).
  destruct (lookup_lt_is_Some_2 (closers (c_heap c)) a) as [o' Ha'].
  { apply lookup_lt_Some in Ha.
    apply (f_equal length) in Hends. rewrite !length_fmap in Hends. lia. }
  assert (rc_c o' = rc_c o) as Ho'.
  { apply (f_equal (fun l => l !! a)) in Hends.
    rewrite !list_lookup_fmap, Ha, Ha' in Hends. by injection Hends. }
  destruct (Hrefs a o' Ha') as (_ & _ & Hcount).
  rewrite (holders_c _ _ _ _ Hc), Ho' in Hcount.
  assert (closes (rc_c o) (closed (c_heap c))
          = closes (rc_c o) (closed h)
            + (if decide (holders a (c_gs c) reg = 0) then 1 else 0)) as Hcl.
  { repeat case_decide; lia. }
  split; [exact Hcl|]. split; [apply holders_0; lia|].
  intros first Hret. rewrite Hcl. rewrite decide_True; [done|].
  apply holders_0; [lia|]. intros i pf g Hi _ Hg.
  unfold main_ok in Hmain. rewrite Hret in Hmain. destruct Hmain as (Hrecv & _).
  apply Permutation_length in Hperm. rewrite length_app in Hperm.
  pose proof (exit_errs_length (c_gs c)) as Hexit.
  destruct (exit_errs_all (c_gs c) i) as [err Herr]; [lia|by eapply lookup_lt_Some|].
  rewrite Herr in Hg. by injection Hg as <-.
Qed.

(** X12 (FlushAll, pendingFlush.done, refCloser.Close): during [FlushAll],
    on a registry whose closers count the entries that hold them, the
    endpoint of a closer that is held is closed exactly when the last entry
    that holds it has run [pf.done()]: it is not closed while an entry that
    holds it has not finished, it is closed once as soon as all of them
    have, and so it has been closed exactly once when [FlushAll] returns. *)
Theorem FlushAll_closes_with_last_holder (reg : list pendingFlush) (h : Heap)
    (acts : list action) (c : config) (a : nat) (o : refCloser) :
  closers_ok reg h ->
  (forall i pf, reg !! i = Some pf -> waits i reg <= pf_wg pf) ->
  run acts (FlushAll_init reg h) = Some c ->
  closers h !! a = Some o -> 0 < held a reg ->
  closes (rc_c o) (closed (c_heap c))
  = closes (rc_c o) (closed h) + (if decide (holders a (c_gs c) reg = 0) then 1 else 0)
  /\ (holders a (c_gs c) reg = 0
      <-> forall i pf g, reg !! i = Some pf -> a ∈ pf_c pf -> c_gs c !! i = Some g ->
            signalled g = true)
  /\ (forall first, c_main c = MReturn first ->
        closes (rc_c o) (closed (c_heap c)) = closes (rc_c o) (closed h) + 1).
Proof. apply closes_with_holders. Qed.

Lemma example_line_closers_ok : closers_ok (pendingFlushes example_line.1.1) example_line.1.2.
Proof.
  split.
  - intros a o Ha. destruct a as [|[|[|[|a]]]]; vm_compute in Ha; [| | | |done];
      injection Ha as <-; vm_compute; by split.
  - apply (bool_decide_unpack _). vm_compute. reflexivity.
Qed.

Lemma FlushAll_closes_with_last_holder_witness :
  closes (PipeWriter 0) (closed (c_heap line_midway)) = 1
  /\ closes (PipeReader 0) (closed (c_heap line_midway)) = 0.
Proof.
  split.
  - destruct (FlushAll_closes_with_last_holder (pendingFlushes example_line.1.1)
                example_line.1.2 line_schedule line_midway 0 (mkRefCloser (PipeWriter 0) 1))
      as [Hcl _].
    + exact example_line_closers_ok.
    + intros i pf Hi. destruct i as [|[|[|i]]]; vm_compute in Hi; [| | |done];
        injection Hi as <-; vm_compute; lia.
    + vm_compute. reflexivity.
    + reflexivity.
    + vm_compute. lia.
    + exact Hcl.
  - destruct (FlushAll_closes_with_last_holder (pendingFlushes example_line.1.1)
                example_line.1.2 line_schedule line_midway 1 (mkRefCloser (PipeReader 0) 1))
      as [Hcl _].
    + exact example_line_closers_ok.
    + intros i pf Hi. destruct i as [|[|[|i]]]; vm_compute in Hi; [| | |done];
        injection Hi as <-; vm_compute; lia.
    + vm_compute. reflexivity.
    + reflexivity.
    + vm_compute. lia.
    + exact Hcl.
Defined.

(** ** Line: the closers of a pipeline of flushers *)









Section line_closers.
Context `{GoRuntime}.
End line_closers.



Section line_closers_loop.
Context `{GoRuntime}.

End line_closers_loop.




Section line_closers_spec.
Context `{GoRuntime}.

End line_closers_spec.






(** ** Line: a stage that registers no flusher *)

Section line_plain.
Context `{GoRuntime}.

Lemma ChDir_plain dir : plain_stage (ChDir dir).
Proof. intros s h. by eexists _, _. Qed.



End line_plain.


